(** * A shallow embedding of the channel mixer of SDL_mixer/mixer.c

    The mixer keeps a bank of playback channels in the global array
    [mix_channel] (of [num_channels] entries).  The control functions
    (Mix_PlayChannelTimed, Mix_HaltChannel, Mix_Pause, ...) update that
    array; the audio callback [mix_channels] reads and advances it once per
    output buffer.  The functions below follow the C text statement by
    statement.  They run in a state-and-fault monad: the state holds the
    globals of mixer.c and the Mix_Chunk objects they point to, a fault is
    what C leaves undefined (an index outside the array, a dangling chunk, a
    division by zero) or a loop that does not end. *)

From Stdlib Require Import ZArith Lia Bool List.
From stdpp Require Import base tactics option list gmap.

Local Open Scope Z_scope.

(** ** Machine integers *)

(** [uint32_t] arithmetic wraps modulo 2^32. *)
Definition to_u32 (z : Z) : Z := z mod 2 ^ 32.

(** Conversion of a value to [int] (two's complement, 32 bits). *)
Definition to_int (z : Z) : Z := (z + 2 ^ 31) mod 2 ^ 32 - 2 ^ 31.

Definition INT_MAX : Z := 2 ^ 31 - 1.
Definition UINT32_MAX : Z := 2 ^ 32 - 1.

(** Modelled from the spec: the constant SDL_MIX_MAXVOLUME of the SDL audio
    header, which is not among the sources.  The spec calls it MAX, the top
    of the volume range 0..MAX; SDL fixes it at 128. *)
Definition SDL_MIX_MAXVOLUME : Z := 128.

(** Modelled from the spec: the constant MIX_MAX_VOLUME of SDL_mixer.h (not
    among the sources), the same top of the volume range. *)
Definition MIX_MAX_VOLUME : Z := 128.

(** ** Data *)

(** Modelled from the spec: the enumeration Mix_Fading of SDL_mixer.h, the
    fade state tagged as none, fading-out or fading-in. *)
Inductive Mix_Fading := MIX_NO_FADING | MIX_FADING_OUT | MIX_FADING_IN.

#[global] Instance Mix_Fading_eq_dec : EqDecision Mix_Fading.
Proof. solve_decision. Defined.

(** Modelled from the spec: the structure Mix_Chunk of SDL_mixer.h.  A chunk
    is an ownership flag, the address of its sample buffer, the length of
    that buffer in bytes (a [uint32_t] in mixer.c, which passes its address
    to the WAVE loader) and its own volume. *)
Record Mix_Chunk := mkChunk {
  allocated : Z;
  abuf : Z;
  alen : Z;
  chunk_volume : Z
}.

(** [struct _Mix_Channel].  A chunk pointer is [None] (NULL) or the name of
    a chunk object; [samples] is an address inside the chunk's buffer;
    [effects] is the chain of registered effect callbacks, [[]] for NULL. *)
Record Mix_Channel := mkChannel {
  chunk : option positive;
  playing : Z;
  paused : Z;
  samples : Z;
  volume : Z;
  looping : Z;
  tag : Z;
  expire : Z;
  start_time : Z;
  fading : Mix_Fading;
  fade_volume : Z;
  fade_volume_reset : Z;
  fade_length : Z;
  ticks_fade : Z;
  effects : list Z
}.

(** What the mixer does to the outside world, most recent event first.
    [EvStop] is not a call: it records the two stores by which Mix_FreeChunk
    stops a channel, which the audio thread can see, so that the trace
    orders them against the calls of [free]. *)
Inductive event :=
  | EvSilence (len : Z)
      (* memset(stream, mixer.silence, len) *)
  | EvMusic (len : Z)
      (* mix_music(music_data, stream, len) *)
  | EvDone (channel : Z)
      (* channel_done_callback(channel) *)
  | EvMixAudio (channel index src len vol : Z) (effs : list Z)
      (* SDL_MixAudio(stream+index, Mix_DoEffects(channel, src, len), len, vol) *)
  | EvPost (len : Z) (effs : list Z)
      (* Mix_DoEffects(MIX_CHANNEL_POST, stream, len), chain not empty *)
  | EvFreeBuf (ptr : Z)
      (* free(chunk->abuf) *)
  | EvFreeChunk (p : positive)
      (* free(chunk) *)
  | EvStop (channel : Z).
      (* mix_channel[channel].playing = 0; mix_channel[channel].looping = 0;
         in Mix_FreeChunk *)

(** The globals of mixer.c that the channel functions use.  [mix_channel] is
    [None] for the NULL pointer.  [channel_done_callback] tells whether a
    callback is registered; [music_on] stands for the test
    [music_active || mix_music != music_mixer]. *)
Record mixer_state := mkState {
  mix_channel : option (list Mix_Channel);
  num_channels : Z;
  reserved_channels : Z;
  channel_done_callback : bool;
  mixer_format : Z;
  mixer_channels : Z;
  music_on : bool;
  posteffects : list Z;
  heap : gmap positive Mix_Chunk;
  trace : list event
}.

Definition set_chunk (v : option positive) (c : Mix_Channel) : Mix_Channel :=
  {| chunk := v; playing := playing c; paused := paused c; samples :=
     samples c; volume := volume c; looping := looping c; tag := tag c; expire
     := expire c; start_time := start_time c; fading := fading c; fade_volume
     := fade_volume c; fade_volume_reset := fade_volume_reset c; fade_length
     := fade_length c; ticks_fade := ticks_fade c; effects := effects c |}.

Definition set_playing (v : Z) (c : Mix_Channel) : Mix_Channel :=
  {| chunk := chunk c; playing := v; paused := paused c; samples := samples
     c; volume := volume c; looping := looping c; tag := tag c; expire :=
     expire c; start_time := start_time c; fading := fading c; fade_volume :=
     fade_volume c; fade_volume_reset := fade_volume_reset c; fade_length :=
     fade_length c; ticks_fade := ticks_fade c; effects := effects c |}.

Definition set_paused (v : Z) (c : Mix_Channel) : Mix_Channel :=
  {| chunk := chunk c; playing := playing c; paused := v; samples := samples
     c; volume := volume c; looping := looping c; tag := tag c; expire :=
     expire c; start_time := start_time c; fading := fading c; fade_volume :=
     fade_volume c; fade_volume_reset := fade_volume_reset c; fade_length :=
     fade_length c; ticks_fade := ticks_fade c; effects := effects c |}.

Definition set_samples (v : Z) (c : Mix_Channel) : Mix_Channel :=
  {| chunk := chunk c; playing := playing c; paused := paused c; samples :=
     v; volume := volume c; looping := looping c; tag := tag c; expire :=
     expire c; start_time := start_time c; fading := fading c; fade_volume :=
     fade_volume c; fade_volume_reset := fade_volume_reset c; fade_length :=
     fade_length c; ticks_fade := ticks_fade c; effects := effects c |}.

Definition set_volume (v : Z) (c : Mix_Channel) : Mix_Channel :=
  {| chunk := chunk c; playing := playing c; paused := paused c; samples :=
     samples c; volume := v; looping := looping c; tag := tag c; expire :=
     expire c; start_time := start_time c; fading := fading c; fade_volume :=
     fade_volume c; fade_volume_reset := fade_volume_reset c; fade_length :=
     fade_length c; ticks_fade := ticks_fade c; effects := effects c |}.

Definition set_looping (v : Z) (c : Mix_Channel) : Mix_Channel :=
  {| chunk := chunk c; playing := playing c; paused := paused c; samples :=
     samples c; volume := volume c; looping := v; tag := tag c; expire :=
     expire c; start_time := start_time c; fading := fading c; fade_volume :=
     fade_volume c; fade_volume_reset := fade_volume_reset c; fade_length :=
     fade_length c; ticks_fade := ticks_fade c; effects := effects c |}.

Definition set_tag (v : Z) (c : Mix_Channel) : Mix_Channel :=
  {| chunk := chunk c; playing := playing c; paused := paused c; samples :=
     samples c; volume := volume c; looping := looping c; tag := v; expire :=
     expire c; start_time := start_time c; fading := fading c; fade_volume :=
     fade_volume c; fade_volume_reset := fade_volume_reset c; fade_length :=
     fade_length c; ticks_fade := ticks_fade c; effects := effects c |}.

Definition set_expire (v : Z) (c : Mix_Channel) : Mix_Channel :=
  {| chunk := chunk c; playing := playing c; paused := paused c; samples :=
     samples c; volume := volume c; looping := looping c; tag := tag c; expire
     := v; start_time := start_time c; fading := fading c; fade_volume :=
     fade_volume c; fade_volume_reset := fade_volume_reset c; fade_length :=
     fade_length c; ticks_fade := ticks_fade c; effects := effects c |}.

Definition set_start_time (v : Z) (c : Mix_Channel) : Mix_Channel :=
  {| chunk := chunk c; playing := playing c; paused := paused c; samples :=
     samples c; volume := volume c; looping := looping c; tag := tag c; expire
     := expire c; start_time := v; fading := fading c; fade_volume :=
     fade_volume c; fade_volume_reset := fade_volume_reset c; fade_length :=
     fade_length c; ticks_fade := ticks_fade c; effects := effects c |}.

Definition set_fading (v : Mix_Fading) (c : Mix_Channel) : Mix_Channel :=
  {| chunk := chunk c; playing := playing c; paused := paused c; samples :=
     samples c; volume := volume c; looping := looping c; tag := tag c; expire
     := expire c; start_time := start_time c; fading := v; fade_volume :=
     fade_volume c; fade_volume_reset := fade_volume_reset c; fade_length :=
     fade_length c; ticks_fade := ticks_fade c; effects := effects c |}.

Definition set_fade_volume (v : Z) (c : Mix_Channel) : Mix_Channel :=
  {| chunk := chunk c; playing := playing c; paused := paused c; samples :=
     samples c; volume := volume c; looping := looping c; tag := tag c; expire
     := expire c; start_time := start_time c; fading := fading c; fade_volume
     := v; fade_volume_reset := fade_volume_reset c; fade_length :=
     fade_length c; ticks_fade := ticks_fade c; effects := effects c |}.

Definition set_fade_volume_reset (v : Z) (c : Mix_Channel) : Mix_Channel :=
  {| chunk := chunk c; playing := playing c; paused := paused c; samples :=
     samples c; volume := volume c; looping := looping c; tag := tag c; expire
     := expire c; start_time := start_time c; fading := fading c; fade_volume
     := fade_volume c; fade_volume_reset := v; fade_length := fade_length c;
     ticks_fade := ticks_fade c; effects := effects c |}.

Definition set_fade_length (v : Z) (c : Mix_Channel) : Mix_Channel :=
  {| chunk := chunk c; playing := playing c; paused := paused c; samples :=
     samples c; volume := volume c; looping := looping c; tag := tag c; expire
     := expire c; start_time := start_time c; fading := fading c; fade_volume
     := fade_volume c; fade_volume_reset := fade_volume_reset c; fade_length
     := v; ticks_fade := ticks_fade c; effects := effects c |}.

Definition set_ticks_fade (v : Z) (c : Mix_Channel) : Mix_Channel :=
  {| chunk := chunk c; playing := playing c; paused := paused c; samples :=
     samples c; volume := volume c; looping := looping c; tag := tag c; expire
     := expire c; start_time := start_time c; fading := fading c; fade_volume
     := fade_volume c; fade_volume_reset := fade_volume_reset c; fade_length
     := fade_length c; ticks_fade := v; effects := effects c |}.

Definition set_effects (v : list Z) (c : Mix_Channel) : Mix_Channel :=
  {| chunk := chunk c; playing := playing c; paused := paused c; samples :=
     samples c; volume := volume c; looping := looping c; tag := tag c; expire
     := expire c; start_time := start_time c; fading := fading c; fade_volume
     := fade_volume c; fade_volume_reset := fade_volume_reset c; fade_length
     := fade_length c; ticks_fade := ticks_fade c; effects := v |}.

Definition with_mix_channel (v : option (list Mix_Channel)) (s : mixer_state) : mixer_state :=
  {| mix_channel := v; num_channels := num_channels s; reserved_channels :=
     reserved_channels s; channel_done_callback := channel_done_callback s;
     mixer_format := mixer_format s; mixer_channels := mixer_channels s;
     music_on := music_on s; posteffects := posteffects s; heap := heap s;
     trace := trace s |}.

Definition with_num_channels (v : Z) (s : mixer_state) : mixer_state :=
  {| mix_channel := mix_channel s; num_channels := v; reserved_channels :=
     reserved_channels s; channel_done_callback := channel_done_callback s;
     mixer_format := mixer_format s; mixer_channels := mixer_channels s;
     music_on := music_on s; posteffects := posteffects s; heap := heap s;
     trace := trace s |}.

Definition with_reserved_channels (v : Z) (s : mixer_state) : mixer_state :=
  {| mix_channel := mix_channel s; num_channels := num_channels s;
     reserved_channels := v; channel_done_callback := channel_done_callback s;
     mixer_format := mixer_format s; mixer_channels := mixer_channels s;
     music_on := music_on s; posteffects := posteffects s; heap := heap s;
     trace := trace s |}.

Definition with_channel_done_callback (v : bool) (s : mixer_state) : mixer_state :=
  {| mix_channel := mix_channel s; num_channels := num_channels s;
     reserved_channels := reserved_channels s; channel_done_callback := v;
     mixer_format := mixer_format s; mixer_channels := mixer_channels s;
     music_on := music_on s; posteffects := posteffects s; heap := heap s;
     trace := trace s |}.

Definition with_heap (v : gmap positive Mix_Chunk) (s : mixer_state) : mixer_state :=
  {| mix_channel := mix_channel s; num_channels := num_channels s;
     reserved_channels := reserved_channels s; channel_done_callback :=
     channel_done_callback s; mixer_format := mixer_format s; mixer_channels
     := mixer_channels s; music_on := music_on s; posteffects := posteffects
     s; heap := v; trace := trace s |}.

Definition with_trace (v : list event) (s : mixer_state) : mixer_state :=
  {| mix_channel := mix_channel s; num_channels := num_channels s;
     reserved_channels := reserved_channels s; channel_done_callback :=
     channel_done_callback s; mixer_format := mixer_format s; mixer_channels
     := mixer_channels s; music_on := music_on s; posteffects := posteffects
     s; heap := heap s; trace := v |}.

(** ** The monad *)

Inductive fault :=
  | OutOfBounds (i : Z)              (* mix_channel[i] outside the array *)
  | BadChunk (p : option positive)   (* a NULL or freed chunk is read *)
  | DivByZero
  | Diverges.                        (* a loop ran out of fuel *)

Inductive outcome (A : Type) :=
  | Ok (a : A) (s : mixer_state)
  | Crash (f : fault).
Arguments Ok {A} a s.
Arguments Crash {A} f.

Definition M (A : Type) : Type := mixer_state → outcome A.

#[global] Instance M_ret : MRet M := λ A a s, Ok a s.
#[global] Instance M_bind : MBind M := λ A B f m s,
  match m s with
  | Ok a s' => f a s'
  | Crash e => Crash e
  end.

Definition gets {A} (f : mixer_state → A) : M A := λ s, Ok (f s) s.
Definition modify (f : mixer_state → mixer_state) : M unit := λ s, Ok tt (f s).
Definition crash {A} (e : fault) : M A := λ _, Crash e.
Definition emit (evs : list event) : M unit :=
  modify (λ s, with_trace (evs ++ trace s) s).

(** [mix_channel[i]] as an rvalue. *)
Definition get_channel (i : Z) : M Mix_Channel := λ s,
  match mix_channel s with
  | Some arr =>
      if 0 <=? i then
        match arr !! Z.to_nat i with
        | Some c => Ok c s
        | None => Crash (OutOfBounds i)
        end
      else Crash (OutOfBounds i)
  | None => Crash (OutOfBounds i)
  end.

(** Assignment to fields of [mix_channel[i]]. *)
Definition put_channel (i : Z) (c : Mix_Channel) : M unit := λ s,
  match mix_channel s with
  | Some arr =>
      if (0 <=? i) && (i <? Z.of_nat (length arr)) then
        Ok tt (with_mix_channel (Some (<[Z.to_nat i := c]> arr)) s)
      else Crash (OutOfBounds i)
  | None => Crash (OutOfBounds i)
  end.

(** [*chunk] as an rvalue. *)
Definition get_chunk (p : positive) : M Mix_Chunk := λ s,
  match heap s !! p with
  | Some ck => Ok ck s
  | None => Crash (BadChunk (Some p))
  end.

(** [for (i = lo; i < lo + n; ++i) body(i)]. *)
Fixpoint for_range (n : nat) (i : Z) (body : Z → M unit) : M unit :=
  match n with
  | O => mret tt
  | S n' => body i;; for_range n' (i + 1) body
  end.

Definition for_loop (lo hi : Z) (body : Z → M unit) : M unit :=
  for_range (Z.to_nat (hi - lo)) lo body.

(** ** Completion callback *)

Definition done_events (cb : bool) (channel : Z) : list event :=
  if cb then [EvDone channel] else [].

Definition _Mix_channel_done_playing (channel : Z) : M unit :=
  cb ← gets channel_done_callback;
  emit (done_events cb channel).

Definition Mix_ChannelFinished (registered : bool) : M unit :=
  modify (with_channel_done_callback registered).

Definition when (b : bool) (m : M unit) : M unit := if b then m else mret tt.

(** ** Channel control *)

(** The clamp-and-store of Mix_Volume on one channel. *)
Definition volume_fields (vol : Z) (c : Mix_Channel) : Mix_Channel :=
  if 0 <=? vol then
    set_volume (if SDL_MIX_MAXVOLUME <? vol then SDL_MIX_MAXVOLUME else vol) c
  else c.

(** Mix_Volume for [which] other than -1. *)
Definition Mix_Volume_one (which vol : Z) : M Z :=
  n ← gets num_channels;
  if which <? n then
    c ← get_channel which;
    when (0 <=? vol) (put_channel which (volume_fields vol c));;
    mret (volume c)
  else mret 0.

Fixpoint Mix_Volume_all (n : nat) (i vol prev : Z) : M Z :=
  match n with
  | O => mret prev
  | S n' => v ← Mix_Volume_one i vol; Mix_Volume_all n' (i + 1) vol (prev + v)
  end.

Definition Mix_Volume (which vol : Z) : M Z :=
  if which =? -1 then
    n ← gets num_channels;
    prev ← Mix_Volume_all (Z.to_nat n) 0 vol 0;
    if n =? 0 then crash DivByZero else mret (prev ÷ n)
  else Mix_Volume_one which vol.

(** The field updates of Mix_HaltChannel on one channel. *)
Definition halt_fields (c : Mix_Channel) : Mix_Channel :=
  let c1 := if playing c =? 0 then c else set_looping 0 (set_playing 0 c) in
  let c2 := set_expire 0 c1 in
  let c3 :=
    if decide (fading c2 = MIX_NO_FADING) then c2
    else set_volume (fade_volume_reset c2) c2 in
  set_fading MIX_NO_FADING c3.

(** Mix_HaltChannel for [which] other than -1. *)
Definition Mix_HaltChannel_one (which : Z) : M unit :=
  n ← gets num_channels;
  if which <? n then
    c ← get_channel which;
    when (negb (playing c =? 0)) (_Mix_channel_done_playing which);;
    put_channel which (halt_fields c)
  else mret tt.

Definition Mix_HaltChannel (which : Z) : M Z :=
  (if which =? -1 then
     n ← gets num_channels;
     for_loop 0 n Mix_HaltChannel_one
   else Mix_HaltChannel_one which);;
  mret 0.

(** The test of Mix_Playing on one channel. *)
Definition active (c : Mix_Channel) : bool :=
  (0 <? playing c) || negb (looping c =? 0).

Fixpoint Mix_Playing_all (n : nat) (i status : Z) : M Z :=
  match n with
  | O => mret status
  | S n' =>
      c ← get_channel i;
      Mix_Playing_all n' (i + 1) (if active c then status + 1 else status)
  end.

Definition Mix_Playing (which : Z) : M Z :=
  n ← gets num_channels;
  if which =? -1 then Mix_Playing_all (Z.to_nat n) 0 0
  else if which <? n then
    c ← get_channel which;
    mret (if active c then 1 else 0)
  else mret 0.

Definition Mix_GroupChannel (which tg : Z) : M Z :=
  n ← gets num_channels;
  if (which <? 0) || (n <? which) then mret 0
  else
    c ← get_channel which;
    put_channel which (set_tag tg c);;
    mret 1.

Definition Mix_GetChunk (channel : Z) : M (option positive) :=
  n ← gets num_channels;
  if (0 <=? channel) && (channel <? n) then
    c ← get_channel channel; mret (chunk c)
  else mret None.

Definition Mix_FadingChannel (which : Z) : M Mix_Fading :=
  n ← gets num_channels;
  if (which <? 0) || (n <=? which) then mret MIX_NO_FADING
  else c ← get_channel which; mret (fading c).

Definition Mix_ReserveChannels (num : Z) : M Z :=
  n ← gets num_channels;
  let num' := if n <? num then n else num in
  modify (with_reserved_channels num');;
  mret num'.

(** Mix_ExpireChannel for [which] other than -1; [now] is LR_GetTicks(). *)
Definition Mix_ExpireChannel_one (which ticks now : Z) : M Z :=
  n ← gets num_channels;
  if which <? n then
    c ← get_channel which;
    put_channel which
      (set_expire (if 0 <? ticks then to_u32 (now + ticks) else 0) c);;
    mret 1
  else mret 0.

Fixpoint Mix_ExpireChannel_all (n : nat) (i ticks now status : Z) : M Z :=
  match n with
  | O => mret status
  | S n' =>
      r ← Mix_ExpireChannel_one i ticks now;
      Mix_ExpireChannel_all n' (i + 1) ticks now (status + r)
  end.

Definition Mix_ExpireChannel (which ticks now : Z) : M Z :=
  if which =? -1 then
    n ← gets num_channels;
    Mix_ExpireChannel_all (Z.to_nat n) 0 ticks now 0
  else Mix_ExpireChannel_one which ticks now.

(** Pause and resume; [now] is the value LR_GetTicks() returned. *)
Definition pause_channel (now i : Z) : M unit :=
  c ← get_channel i;
  when (0 <? playing c) (put_channel i (set_paused (to_int now) c)).

Definition Mix_Pause (which now : Z) : M unit :=
  n ← gets num_channels;
  if which =? -1 then for_loop 0 n (pause_channel now)
  else if which <? n then pause_channel now which
  else mret tt.

Definition resume_fields (now : Z) (c : Mix_Channel) : Mix_Channel :=
  let c1 :=
    if 0 <? expire c then
      set_expire (to_u32 (expire c + to_u32 (now - to_u32 (paused c)))) c
    else c in
  set_paused 0 c1.

Definition resume_channel (now i : Z) : M unit :=
  c ← get_channel i;
  when (0 <? playing c) (put_channel i (resume_fields now c)).

Definition Mix_Resume (which now : Z) : M unit :=
  n ← gets num_channels;
  if which =? -1 then for_loop 0 n (resume_channel now)
  else if which <? n then resume_channel now which
  else mret tt.

Fixpoint Mix_Paused_all (n : nat) (i status : Z) : M Z :=
  match n with
  | O => mret status
  | S n' =>
      c ← get_channel i;
      Mix_Paused_all n' (i + 1) (if paused c =? 0 then status else status + 1)
  end.

Definition Mix_Paused (which : Z) : M Z :=
  n ← gets num_channels;
  if which <? 0 then Mix_Paused_all (Z.to_nat n) 0 0
  else if which <? n then
    c ← get_channel which; mret (if paused c =? 0 then 0 else 1)
  else mret 0.

(** ** Chunks *)

Definition set_alen (v : Z) (ck : Mix_Chunk) : Mix_Chunk :=
  {| allocated := allocated ck; abuf := abuf ck; alen := v;
     chunk_volume := chunk_volume ck |}.

(** [while (alen % frame_width) alen--;] *)
Fixpoint trim_alen (fuel : nat) (len frame_width : Z) : option Z :=
  if len mod frame_width =? 0 then Some len
  else
    match fuel with
    | O => None
    | S fuel' => trim_alen fuel' (len - 1) frame_width
    end.

Definition frame_width_of (format channels : Z) : Z :=
  (if Z.land format 255 =? 16 then 2 else 1) * channels.

Definition checkchunkintegral (p : positive) : M Z :=
  ck ← get_chunk p;
  fmt ← gets mixer_format;
  chans ← gets mixer_channels;
  let frame_width := frame_width_of fmt chans in
  if frame_width =? 0 then crash DivByZero
  else
    match trim_alen (Z.to_nat (alen ck)) (alen ck) frame_width with
    | None => crash Diverges
    | Some len =>
        modify (λ s, with_heap (<[p := set_alen len ck]> (heap s)) s);;
        mret (to_int len)
    end.

(** The scan for a free channel of Mix_PlayChannelTimed. *)
Fixpoint first_free (n : nat) (i : Z) : M Z :=
  match n with
  | O => mret i
  | S n' =>
      c ← get_channel i;
      if playing c <=? 0 then mret i else first_free n' (i + 1)
  end.

Definition play_fields (p : positive) (ck : Mix_Chunk) (loops ticks now : Z)
    (c : Mix_Channel) : Mix_Channel :=
  {| chunk := Some p;
     playing := to_int (alen ck);
     paused := 0;
     samples := abuf ck;
     volume := volume c;
     looping := loops;
     tag := tag c;
     expire := if 0 <? ticks then to_u32 (now + ticks) else 0;
     start_time := now;
     fading := MIX_NO_FADING;
     fade_volume := fade_volume c;
     fade_volume_reset := fade_volume_reset c;
     fade_length := fade_length c;
     ticks_fade := ticks_fade c;
     effects := effects c |}.

Definition Mix_PlayChannelTimed (which : Z) (chunk : option positive)
    (loops ticks now : Z) : M Z :=
  match chunk with
  | None => mret (-1)
  | Some p =>
      len ← checkchunkintegral p;
      if len =? 0 then mret (-1)
      else
        n ← gets num_channels;
        which' ←
          (if which =? -1 then
             r ← gets reserved_channels;
             i ← first_free (Z.to_nat (n - r)) r;
             mret (if i =? n then -1 else i)
           else mret which);
        when ((0 <=? which') && (which' <? n))
          (st ← Mix_Playing which';
           when (negb (st =? 0)) (_Mix_channel_done_playing which');;
           ck ← get_chunk p;
           c ← get_channel which';
           put_channel which' (play_fields p ck loops ticks now c));;
        mret which'
  end.

Definition stop_if_chunk (p : positive) (i : Z) : M unit :=
  c ← get_channel i;
  when (bool_decide (chunk c = Some p))
    (put_channel i (set_looping 0 (set_playing 0 c));;
     emit [EvStop i]).

(** The first half of Mix_FreeChunk: "Guarantee that this chunk isn't
    playing". *)
Definition stop_chunk_channels (p : positive) : M unit :=
  bank ← gets mix_channel;
  n ← gets num_channels;
  when (bool_decide (bank ≠ None)) (for_loop 0 n (stop_if_chunk p)).

(** The second half: "Actually free the chunk". *)
Definition release_chunk (p : positive) : M unit :=
  ck ← get_chunk p;
  when (negb (allocated ck =? 0)) (emit [EvFreeBuf (abuf ck)]);;
  modify (λ s, with_heap (delete p (heap s)) s);;
  emit [EvFreeChunk p].

Definition Mix_FreeChunk (chunk : option positive) : M unit :=
  match chunk with
  | None => mret tt
  | Some p => stop_chunk_channels p;; release_chunk p
  end.

(** ** Resizing the bank *)

(** The eleven assignments that clear a channel; the other four fields keep
    whatever the memory held. *)
Definition clear_fields (c : Mix_Channel) : Mix_Channel :=
  {| chunk := None;
     playing := 0;
     paused := 0;
     samples := samples c;
     volume := SDL_MIX_MAXVOLUME;
     looping := 0;
     tag := -1;
     expire := 0;
     start_time := start_time c;
     fading := MIX_NO_FADING;
     fade_volume := SDL_MIX_MAXVOLUME;
     fade_volume_reset := SDL_MIX_MAXVOLUME;
     fade_length := fade_length c;
     ticks_fade := ticks_fade c;
     effects := [] |}.

(** [realloc(mix_channel, n * sizeof(struct _Mix_Channel))].  The product
    is taken in [size_t], that is modulo [SIZE_MAX + 1], with [chan_size]
    the size of one channel; both depend on the platform.  [memory] is the
    answer of the allocator: [None] when realloc returns NULL (no memory
    left, or a request of zero bytes to a C library that answers it with
    NULL), otherwise the contents of the memory past the old block.  The
    block returned holds the channels that fit the bytes asked for: the
    first entries of the old block, then what [memory] says. *)
Definition realloc_bank (SIZE_MAX chan_size n : Z)
    (memory : option (Z → Mix_Channel)) (old : option (list Mix_Channel))
    : option (list Mix_Channel) :=
  match memory with
  | None => None
  | Some junk =>
      let room := Z.to_nat (((n * chan_size) mod (SIZE_MAX + 1)) / chan_size) in
      let arr := default [] old in
      Some (take room arr ++
            ((λ k, junk (Z.of_nat k)) <$> seq (length arr) (room - length arr)))
  end.

Definition clear_channel (i : Z) : M unit :=
  c ← get_channel i; put_channel i (clear_fields c).

(** The result of realloc is stored without a test. *)
Definition Mix_AllocateChannels (SIZE_MAX chan_size : Z) (numchans : Z)
    (memory : option (Z → Mix_Channel)) : M Z :=
  n ← gets num_channels;
  if (numchans <? 0) || (numchans =? n) then mret n
  else
    when (numchans <? n) (for_loop numchans n Mix_HaltChannel_one);;
    modify (λ s,
      with_mix_channel
        (realloc_bank SIZE_MAX chan_size numchans memory (mix_channel s)) s);;
    when (n <? numchans) (for_loop n numchans clear_channel);;
    modify (with_num_channels numchans);;
    mret numchans.

(** ** The mixing callback *)

(** The body of the channel loop of [mix_channels] reads and writes only
    [mix_channel[i]], reads the chunk that channel points to, and calls out
    (SDL_MixAudio, the effect chain, the completion callback).  It is
    written here as a function of the channel: [mix_loop] reads the channel
    once, runs the body and stores the result.  The calls out are recorded
    as events; a failed malloc in Mix_DoEffects, which only skips the
    effects, is not modelled. *)

(** The local variables of the channel loop of [mix_channels] that outlive
    one statement: the offset [index] in the stream, the local [volume], the
    channel being mixed, and the events produced so far (most recent
    first). *)
Record cursor := mkCursor {
  cur_index : Z;
  cur_volume : Z;
  cur_chan : Mix_Channel;
  cur_events : list event
}.

(** "Expiration delay for that channel is reached". *)
Definition expire_fields (c : Mix_Channel) : Mix_Channel :=
  set_expire 0 (set_fading MIX_NO_FADING (set_looping 0 (set_playing 0 c))).

(** The expiration test and the fade step of an unpaused channel; [now] is
    [sdl_ticks].  The calls Mix_Volume(i, v) are calls on the channel being
    processed, which is inside the array. *)
Definition fade_step (cb : bool) (i now : Z) (c : Mix_Channel)
    : (Mix_Channel * list event) + fault :=
  if (0 <? expire c) && (expire c <? now) then
    inl (expire_fields c, done_events cb i)
  else if decide (fading c = MIX_NO_FADING) then inl (c, [])
  else
    let ticks := to_u32 (now - ticks_fade c) in
    if fade_length c <? ticks then
      let c1 := volume_fields (fade_volume_reset c) c in
      match fading c with
      | MIX_FADING_OUT =>
          inl (set_fading MIX_NO_FADING
                 (set_expire 0 (set_looping 0 (set_playing 0 c1))),
               done_events cb i)
      | _ => inl (set_fading MIX_NO_FADING c1, [])
      end
    else if fade_length c =? 0 then inr DivByZero
    else
      match fading c with
      | MIX_FADING_OUT =>
          inl (volume_fields
                 (to_int (to_u32 (to_u32 (fade_volume c) *
                                  to_u32 (fade_length c - ticks))
                          / fade_length c)) c, [])
      | _ =>
          inl (volume_fields
                 (to_int (to_u32 (to_u32 (fade_volume c) * ticks)
                          / fade_length c)) c, [])
      end.

Definition chunk_of (hp : gmap positive Mix_Chunk) (c : Mix_Channel)
    : Mix_Chunk + fault :=
  match chunk c with
  | None => inr (BadChunk None)
  | Some p =>
      match hp !! p with
      | Some ck => inl ck
      | None => inr (BadChunk (Some p))
      end
  end.

(** [while (mix_channel[i].playing > 0 && index < len) ...] *)
Fixpoint mix_pass (fuel : nat) (cb : bool) (hp : gmap positive Mix_Chunk)
    (i len : Z) (k : cursor) : cursor + fault :=
  let c := cur_chan k in
  if (0 <? playing c) && (cur_index k <? len) then
    match fuel with
    | O => inr Diverges
    | S fuel' =>
        match chunk_of hp c with
        | inr e => inr e
        | inl ck =>
            let remaining := len - cur_index k in
            let vol := (volume c * chunk_volume ck) ÷ MIX_MAX_VOLUME in
            let mixable :=
              if remaining <? playing c then remaining else playing c in
            let ev :=
              EvMixAudio i (cur_index k) (samples c) mixable vol (effects c) in
            let c' :=
              set_playing (playing c - mixable)
                (set_samples (samples c + mixable) c) in
            let alert :=
              if (playing c' =? 0) && (looping c' =? 0)
              then done_events cb i else [] in
            mix_pass fuel' cb hp i len
              {| cur_index := cur_index k + mixable;
                 cur_volume := vol;
                 cur_chan := c';
                 cur_events := alert ++ ev :: cur_events k |}
        end
    end
  else inl k.

(** [while (mix_channel[i].looping && index < len) ...].  The local
    [int alen = chunk->alen] is [to_int (alen ck)]; the new [playing] is
    computed from the unsigned field and converted back to [int]. *)
Fixpoint mix_wrap (fuel : nat) (hp : gmap positive Mix_Chunk)
    (i len : Z) (k : cursor) : cursor + fault :=
  let c := cur_chan k in
  if negb (looping c =? 0) && (cur_index k <? len) then
    match fuel with
    | O => inr Diverges
    | S fuel' =>
        match chunk_of hp c with
        | inr e => inr e
        | inl ck =>
            let remaining :=
              if to_int (alen ck) <? len - cur_index k
              then to_int (alen ck) else len - cur_index k in
            let ev :=
              EvMixAudio i (cur_index k) (abuf ck) remaining (cur_volume k)
                (effects c) in
            let c1 := if 0 <? looping c then set_looping (looping c - 1) c else c in
            let c2 :=
              set_playing (to_int (alen ck - remaining))
                (set_samples (abuf ck + remaining) c1) in
            mix_wrap fuel' hp i len
              {| cur_index := cur_index k + remaining;
                 cur_volume := cur_volume k;
                 cur_chan := c2;
                 cur_events := ev :: cur_events k |}
        end
    end
  else inl k.

(** [if (!mix_channel[i].playing && mix_channel[i].looping) ...] *)
Definition mix_rewind (hp : gmap positive Mix_Chunk) (k : cursor)
    : cursor + fault :=
  let c := cur_chan k in
  if (playing c =? 0) && negb (looping c =? 0) then
    match chunk_of hp c with
    | inr e => inr e
    | inl ck =>
        let c1 := if 0 <? looping c then set_looping (looping c - 1) c else c in
        inl {| cur_index := cur_index k;
               cur_volume := cur_volume k;
               cur_chan := set_playing (to_int (alen ck)) (set_samples (abuf ck) c1);
               cur_events := cur_events k |}
    end
  else inl k.

(** The body of [for (i = 0; i < num_channels; ++i)] for one channel.  It
    returns the local [volume], the channel and the events of this
    iteration. *)
Definition mix_block (fuel : nat) (cb : bool) (hp : gmap positive Mix_Chunk)
    (i now len vol : Z) (c : Mix_Channel) : cursor + fault :=
  if paused c =? 0 then
    match fade_step cb i now c with
    | inr e => inr e
    | inl (c1, evs) =>
        let k := {| cur_index := 0; cur_volume := vol;
                    cur_chan := c1; cur_events := evs |} in
        if 0 <? playing c1 then
          match mix_pass fuel cb hp i len k with
          | inr e => inr e
          | inl k1 =>
              match mix_wrap fuel hp i len k1 with
              | inr e => inr e
              | inl k2 => mix_rewind hp k2
              end
          end
        else inl k
    end
  else inl {| cur_index := 0; cur_volume := vol;
              cur_chan := c; cur_events := [] |}.

Fixpoint mix_loop (n fuel : nat) (now len i vol : Z) : M Z :=
  match n with
  | O => mret vol
  | S n' =>
      c ← get_channel i;
      cb ← gets channel_done_callback;
      hp ← gets heap;
      match mix_block fuel cb hp i now len vol c with
      | inr e => crash e
      | inl k =>
          put_channel i (cur_chan k);;
          emit (cur_events k);;
          mix_loop n' fuel now len (i + 1) (cur_volume k)
      end
  end.

(** [mix_channels(udata, stream, len)], with [now] the value LR_GetTicks()
    returns and [fuel] a bound on the iterations of each inner loop.  The
    first two statements, which clear the stream and mix the music into it,
    are [mix_music_bus]. *)
Definition mix_music_bus (len : Z) : M unit :=
  emit [EvSilence len];;
  music ← gets music_on;
  when music (emit [EvMusic len]).

Definition mix_channels (fuel : nat) (now len : Z) : M unit :=
  mix_music_bus len;;
  n ← gets num_channels;
  mix_loop (Z.to_nat n) fuel now len 0 SDL_MIX_MAXVOLUME;;
  post ← gets posteffects;
  when (bool_decide (post ≠ [])) (emit [EvPost len post]).

(** A run of the callback over successive buffers, each given as the tick
    count at the call and the buffer length. *)
Fixpoint mix_run (fuel : nat) (bufs : list (Z * Z)) : M unit :=
  match bufs with
  | [] => mret tt
  | (now, len) :: rest => mix_channels fuel now len;; mix_run fuel rest
  end.

(** ** Reading the trace *)

Definition is_done (i : Z) (e : event) : bool :=
  match e with EvDone j => i =? j | _ => false end.

(** How many times the completion callback ran for channel [i]. *)
Definition done_count (i : Z) (t : list event) : nat :=
  length (filter (λ e, is_done i e = true) t).

Definition mixed_len (i : Z) (e : event) : Z :=
  match e with
  | EvMixAudio j _ _ len _ _ => if i =? j then len else 0
  | _ => 0
  end.

(** How many bytes of chunk data channel [i] put into the stream. *)
Definition mixed_bytes (i : Z) (t : list event) : Z :=
  foldr (λ e acc, mixed_len i e + acc) 0 t.

(** * Vocabulary of the properties *)

(** The channel at index [i], when the array exists and holds one there. *)
Definition channel_at (s : mixer_state) (i : Z) : option Mix_Channel :=
  match mix_channel s with
  | Some arr => if 0 <=? i then arr !! Z.to_nat i else None
  | None => None
  end.

(** Unfolds the operations of the monad. *)
Ltac munfold :=
  unfold when, emit, gets, modify, crash, mbind, M_bind, mret, M_ret in *.

(** Many loops of mixer.c visit the channels in turn and touch, at index
    [i], only [mix_channel[i]] and the trace.  Such a body is described by
    a function from the channel to its new value and the events it emits
    (the callback flag is the only global it may read). *)
Definition chan_step : Type :=
  bool → Z → Mix_Channel → Mix_Channel * list event.

(** The state after such a body has run at index [i]. *)
Definition apply_step (i : Z) (r : Mix_Channel * list event)
    (s : mixer_state) : mixer_state :=
  with_trace (r.2 ++ trace s)
    (with_mix_channel ((λ arr, <[Z.to_nat i := r.1]> arr) <$> mix_channel s) s).

(** [body] behaves as [F] says; when [bounded], only at indices below
    [num_channels]. *)
Definition runs_as (bounded : bool) (body : Z → M unit) (F : chan_step) : Prop :=
  ∀ i s c,
    channel_at s i = Some c →
    (bounded = true → i < num_channels s) →
    body i s = Ok tt (apply_step i (F (channel_done_callback s) i c) s).

(** The events of [n] consecutive indices from [lo] on, most recent first. *)
Fixpoint range_events (F : chan_step) (cb : bool) (arr : list Mix_Channel)
    (n : nat) (lo : Z) : list event :=
  match n with
  | O => []
  | S n' =>
      range_events F cb arr n' (lo + 1) ++
      match arr !! Z.to_nat lo with
      | Some c => (F cb lo c).2
      | None => []
      end
  end.

(** The loop bodies of Mix_FreeChunk, of the halting loop and of the
    clearing loop of Mix_AllocateChannels, in that form. *)
Definition stop_step (p : positive) : chan_step := λ _ i c,
  if bool_decide (chunk c = Some p)
  then (set_looping 0 (set_playing 0 c), [EvStop i])
  else (c, []).

Definition halt_step : chan_step := λ cb i c,
  (halt_fields c, if playing c =? 0 then [] else done_events cb i).

Definition clear_step : chan_step := λ _ _ c, (clear_fields c, []).

(** The indices, from [i] on and in ascending order, of the channels of
    [arr] that point to the chunk [p]. *)
Fixpoint holders (p : positive) (i : Z) (arr : list Mix_Channel) : list Z :=
  match arr with
  | [] => []
  | c :: rest =>
      (if bool_decide (chunk c = Some p) then [i] else []) ++
      holders p (i + 1) rest
  end.

(** What Mix_FreeChunk records while it stops the channels of [arr] that
    point to [p], most recent first. *)
Definition stop_events (p : positive) (arr : list Mix_Channel) : list event :=
  EvStop <$> reverse (holders p 0 arr).

(** What it records while it frees the chunk [ck] at [p]. *)
Definition free_events (p : positive) (ck : Mix_Chunk) : list event :=
  EvFreeChunk p :: (if allocated ck =? 0 then [] else [EvFreeBuf (abuf ck)]).

(** The array exists and [num_channels] is its length. *)
Definition bank_ok (s : mixer_state) : Prop :=
  ∃ arr, mix_channel s = Some arr ∧ num_channels s = Z.of_nat (length arr).

(** The defaults of a fresh channel: no chunk, not playing, full volume, no
    fade, no group, no deadline, not paused, no effects. *)
Definition is_default (c : Mix_Channel) : Prop :=
  chunk c = None ∧ playing c = 0 ∧ looping c = 0 ∧
  volume c = SDL_MIX_MAXVOLUME ∧
  fading c = MIX_NO_FADING ∧
  fade_volume c = SDL_MIX_MAXVOLUME ∧
  fade_volume_reset c = SDL_MIX_MAXVOLUME ∧
  tag c = -1 ∧ expire c = 0 ∧ paused c = 0 ∧ effects c = [].

(** A sequence of resize requests, each with the answer of the allocator. *)
Fixpoint allocate_many (SIZE_MAX chan_size : Z)
    (reqs : list (Z * option (Z → Mix_Channel))) : M unit :=
  match reqs with
  | [] => mret tt
  | r :: rest =>
      Mix_AllocateChannels SIZE_MAX chan_size r.1 r.2;;
      allocate_many SIZE_MAX chan_size rest
  end.

(** The request is a query, or its size fits [size_t] and realloc returns a
    block. *)
Definition served (SIZE_MAX chan_size : Z)
    (r : Z * option (Z → Mix_Channel)) : Prop :=
  r.1 < 0 ∨ (r.1 * chan_size ≤ SIZE_MAX ∧ is_Some r.2).

(** The events of channel [i]: its completion callbacks and its calls of
    SDL_MixAudio. *)
Definition on_channel (i : Z) (e : event) : Prop :=
  match e with
  | EvDone j => j = i
  | EvMixAudio j _ _ _ _ _ => j = i
  | _ => False
  end.

(** The three loops of the channel body change [playing], [samples] and
    [looping] only. *)
Definition same_static (c c' : Mix_Channel) : Prop :=
  chunk c' = chunk c ∧ paused c' = paused c ∧ volume c' = volume c ∧
  tag c' = tag c ∧ expire c' = expire c ∧ start_time c' = start_time c ∧
  fading c' = fading c ∧ fade_volume c' = fade_volume c ∧
  fade_volume_reset c' = fade_volume_reset c ∧
  fade_length c' = fade_length c ∧ ticks_fade c' = ticks_fade c ∧
  effects c' = effects c.

(** A channel that is playing points to a live chunk of positive length
    that fits an [int]; a fading channel has a fade duration. *)
Definition chan_ok (hp : gmap positive Mix_Chunk) (c : Mix_Channel) : Prop :=
  (0 < playing c →
   ∃ p ck, chunk c = Some p ∧ hp !! p = Some ck ∧ 0 < alen ck ≤ INT_MAX) ∧
  (fading c ≠ MIX_NO_FADING → fade_length c ≠ 0).

(** The states the callback is meant to run on. *)
Definition wf (s : mixer_state) : Prop :=
  ∃ arr,
    mix_channel s = Some arr ∧
    num_channels s = Z.of_nat (length arr) ∧
    Forall (chan_ok (heap s)) arr.

(** One execution of the body of the first loop. *)
Definition pass_step (cb : bool) (i len : Z) (ck : Mix_Chunk) (k : cursor)
    : cursor :=
  let c := cur_chan k in
  let mixable := Z.min (len - cur_index k) (playing c) in
  let vol := (volume c * chunk_volume ck) ÷ MIX_MAX_VOLUME in
  let c' :=
    set_playing (playing c - mixable) (set_samples (samples c + mixable) c) in
  {| cur_index := cur_index k + mixable;
     cur_volume := vol;
     cur_chan := c';
     cur_events :=
       (if (playing c' =? 0) && (looping c' =? 0)
        then done_events cb i else []) ++
       EvMixAudio i (cur_index k) (samples c) mixable vol (effects c)
       :: cur_events k |}.

(** The globals that the callback does not write. *)
Definition same_globals (s s' : mixer_state) : Prop :=
  num_channels s' = num_channels s ∧
  reserved_channels s' = reserved_channels s ∧
  channel_done_callback s' = channel_done_callback s ∧
  mixer_format s' = mixer_format s ∧
  mixer_channels s' = mixer_channels s ∧
  music_on s' = music_on s ∧
  posteffects s' = posteffects s ∧
  heap s' = heap s.

(** Channel [c] holds chunk [p], of length [L], and is unpaused, without
    deadline and without fade. *)
Definition plain (hp : gmap positive Mix_Chunk) (p : positive) (L : Z)
    (c : Mix_Channel) : Prop :=
  paused c = 0 ∧ expire c = 0 ∧ fading c = MIX_NO_FADING ∧
  chunk c = Some p ∧
  ∃ ck, hp !! p = Some ck ∧ alen ck = L ∧ 0 < L ≤ INT_MAX.

(** The bytes asked for by a sequence of buffers. *)
Definition total_len (bufs : list (Z * Z)) : Z :=
  foldr (λ b acc, b.2 + acc) 0 bufs.

(** Channel [i] of state [s] plainly plays chunk [p] of length [L], with
    [r] bytes left in the current pass and loop counter [lp]. *)
Definition plays_at (s : mixer_state) (i : Z) (p : positive) (L r lp : Z)
    : Prop :=
  ∃ c, channel_at s i = Some c ∧ plain (heap s) p L c ∧
       playing c = r ∧ looping c = lp.

(** The two ways in which the expiration and fade step stops a channel. *)
Definition expired (now : Z) (c : Mix_Channel) : Prop :=
  paused c = 0 ∧ 0 < expire c < now.

Definition fade_out_over (now : Z) (c : Mix_Channel) : Prop :=
  paused c = 0 ∧ ¬ (0 < expire c < now) ∧
  fading c = MIX_FADING_OUT ∧ fade_length c < to_u32 (now - ticks_fade c).

(** ** Sample states *)

(** A channel as Mix_OpenAudio leaves it. *)
Definition idle_channel : Mix_Channel :=
  {| chunk := None; playing := 0; paused := 0; samples := 0;
     volume := SDL_MIX_MAXVOLUME; looping := 0; tag := -1; expire := 0;
     start_time := 0; fading := MIX_NO_FADING;
     fade_volume := SDL_MIX_MAXVOLUME;
     fade_volume_reset := SDL_MIX_MAXVOLUME;
     fade_length := 0; ticks_fade := 0; effects := [] |}.

(** A channel in the middle of chunk 1, with [left] bytes to go. *)
Definition busy_channel (left loops : Z) : Mix_Channel :=
  {| chunk := Some 1%positive; playing := left; paused := 0; samples := 4096;
     volume := SDL_MIX_MAXVOLUME; looping := loops; tag := -1; expire := 0;
     start_time := 0; fading := MIX_NO_FADING;
     fade_volume := SDL_MIX_MAXVOLUME;
     fade_volume_reset := SDL_MIX_MAXVOLUME;
     fade_length := 0; ticks_fade := 0; effects := [] |}.

(** A channel fading out from volume [V] over [D] ticks since tick 0, its
    current volume [vol], with deadline [deadline]. *)
Definition fading_channel (V D vol deadline : Z) : Mix_Channel :=
  {| chunk := Some 1%positive; playing := 100; paused := 0; samples := 4096;
     volume := vol; looping := 0; tag := -1; expire := deadline;
     start_time := 0; fading := MIX_FADING_OUT;
     fade_volume := V; fade_volume_reset := SDL_MIX_MAXVOLUME;
     fade_length := D; ticks_fade := 0; effects := [] |}.

(** An open mixer: signed 16-bit stereo output (frame width 4), a callback
    registered, one owned chunk of [len] bytes. *)
Definition sample_state (bank : list Mix_Channel) (len : Z) : mixer_state :=
  {| mix_channel := Some bank;
     num_channels := Z.of_nat (length bank);
     reserved_channels := 0;
     channel_done_callback := true;
     mixer_format := 32784;
     mixer_channels := 2;
     music_on := false;
     posteffects := [];
     heap := {[ 1%positive := mkChunk 1 4096 len 128 ]};
     trace := [] |}.

(** Tactics that settle [chan_ok], [wf] and numeric side conditions on
    closed terms by computation. *)
Ltac solve_chan_ok :=
  split;
  [ intros Hpl;
    first
      [ exfalso; vm_compute in Hpl; discriminate Hpl
      | eexists _, _; split; [reflexivity|]; split; [reflexivity|];
        vm_compute; split; [reflexivity|discriminate] ]
  | intros Hfa;
    first [ exfalso; apply Hfa; reflexivity | vm_compute; discriminate ] ].

Ltac solve_range :=
  vm_compute; repeat split;
  first [ reflexivity | discriminate | intros [H ?]; discriminate H ].

Ltac solve_wf :=
  eexists; split; [reflexivity|]; split; [reflexivity|];
  repeat (constructor; [solve_chan_ok|]); constructor.

(** * The rest of the channel interface *)

(** ** Groups *)

(** [for ( ; from <= to; ++from) status += Mix_GroupChannel(from, tag);]
    runs [to - from + 1] times when [from <= to]; the overflow of [++from]
    when [to] is INT_MAX is not modelled. *)
Fixpoint Mix_GroupChannels_loop (n : nat) (from tg status : Z) : M Z :=
  match n with
  | O => mret status
  | S n' =>
      r ← Mix_GroupChannel from tg;
      Mix_GroupChannels_loop n' (from + 1) tg (status + r)
  end.

Definition Mix_GroupChannels (from to tg : Z) : M Z :=
  Mix_GroupChannels_loop (Z.to_nat (to - from + 1)) from tg 0.

(** The test of Mix_GroupAvailable on one channel. *)
Definition available (tg : Z) (c : Mix_Channel) : bool :=
  ((tg =? -1) || (tg =? tag c)) && (playing c <=? 0).

Fixpoint Mix_GroupAvailable_loop (n : nat) (i tg : Z) : M Z :=
  match n with
  | O => mret (-1)
  | S n' =>
      c ← get_channel i;
      if available tg c then mret i
      else Mix_GroupAvailable_loop n' (i + 1) tg
  end.

Definition Mix_GroupAvailable (tg : Z) : M Z :=
  n ← gets num_channels;
  Mix_GroupAvailable_loop (Z.to_nat n) 0 tg.

(** The first two tests of Mix_GroupOldest on one channel. *)
Definition in_group_playing (tg : Z) (c : Mix_Channel) : bool :=
  ((tag c =? tg) || (tg =? -1)) && (0 <? playing c).

(** The loop of Mix_GroupOldest, with its locals [mintime] and [chan]. *)
Fixpoint Mix_GroupOldest_loop (n : nat) (i tg mintime chan : Z) : M Z :=
  match n with
  | O => mret chan
  | S n' =>
      c ← get_channel i;
      if in_group_playing tg c && (start_time c <=? mintime)
      then Mix_GroupOldest_loop n' (i + 1) tg (start_time c) i
      else Mix_GroupOldest_loop n' (i + 1) tg mintime chan
  end.

(** [now] is the value LR_GetTicks() returns. *)
Definition Mix_GroupOldest (tg now : Z) : M Z :=
  n ← gets num_channels;
  Mix_GroupOldest_loop (Z.to_nat n) 0 tg now (-1).

(** ** Vocabulary for the channel interface *)

(** The sum of the volumes of a bank, the [prev_volume] that the broadcast
    form of Mix_Volume accumulates. *)
Definition sum_volumes (l : list Mix_Channel) : Z :=
  foldr (λ c acc, volume c + acc) 0 l.

(** How many channels of a bank pass a test. *)
Definition count_if (f : Mix_Channel → bool) (l : list Mix_Channel) : Z :=
  foldr (λ c acc, if f c then 1 + acc else acc) 0 l.

(** The test of Mix_Paused on one channel. *)
Definition is_paused (c : Mix_Channel) : bool := negb (paused c =? 0).

(** What the loop of Mix_GroupOldest has established about its locals
    [mintime] and [chan] when it reaches channel [i]. *)
Definition oldest_upto (s : mixer_state) (tg now i mintime chan : Z) : Prop :=
  mintime ≤ now ∧
  (∀ j c, 0 ≤ j < i → channel_at s j = Some c →
          in_group_playing tg c = true → start_time c ≤ now →
          chan ≠ -1 ∧ mintime ≤ start_time c ∧
          (start_time c = mintime → j ≤ chan)) ∧
  (chan = -1 → mintime = now) ∧
  (chan ≠ -1 →
   0 ≤ chan < i ∧
   ∃ c, channel_at s chan = Some c ∧ in_group_playing tg c = true ∧
        start_time c = mintime).

(** Turns the integer tests of the goal and of the hypotheses into
    propositions. *)
Ltac ztests :=
  rewrite ?andb_true_iff, ?orb_true_iff, ?andb_false_iff, ?orb_false_iff,
    ?negb_true_iff, ?negb_false_iff,
    ?Z.eqb_eq, ?Z.leb_le, ?Z.ltb_lt, ?Z.eqb_neq, ?Z.leb_gt, ?Z.ltb_ge in *.

(** Decides the integer tests of the goal by cases. *)
Ltac zcases :=
  repeat match goal with
         | |- context [?a <=? ?b] => destruct (Z.leb_spec a b)
         | |- context [?a <? ?b] => destruct (Z.ltb_spec a b)
         | |- context [?a =? ?b] => destruct (Z.eqb_spec a b)
         end; simpl; try done; try lia.

(** ** Vocabulary for the mixing callback *)

(** The read position of a channel lies inside its chunk: [samples] and
    [playing] describe the rest of the buffer
    [abuf, abuf + alen). *)
Definition ptr_ok (ck : Mix_Chunk) (c : Mix_Channel) : Prop :=
  0 < alen ck ≤ INT_MAX ∧
  0 ≤ playing c ≤ alen ck ∧
  samples c + playing c = abuf ck + alen ck.

Definition in_chunk (hp : gmap positive Mix_Chunk) (c : Mix_Channel) : Prop :=
  0 < playing c →
  ∃ p ck, chunk c = Some p ∧ hp !! p = Some ck ∧ ptr_ok ck c.

(** A call of SDL_MixAudio writes [n] bytes at [stream + idx] inside a
    stream of [len] bytes and reads them at [src] inside the buffer of the
    chunk [p]. *)
Definition reads_within (hp : gmap positive Mix_Chunk) (p : option positive)
    (len : Z) (e : event) : Prop :=
  match e with
  | EvMixAudio _ idx src n _ _ =>
      0 ≤ idx ∧ 0 < n ∧ idx + n ≤ len ∧
      ∃ q ck, p = Some q ∧ hp !! q = Some ck ∧
              abuf ck ≤ src ∧ src + n ≤ abuf ck + alen ck
  | _ => True
  end.

(** The same, for the chunk that the channel of the event holds in [s]. *)
Definition mix_in_bounds (s : mixer_state) (len : Z) (e : event) : Prop :=
  match e with
  | EvMixAudio i _ _ _ _ _ =>
      reads_within (heap s) (channel_at s i ≫= chunk) len e
  | _ => True
  end.

(** A call of SDL_MixAudio whose source is the chunk [p], as held by the
    channel of the event in [s]. *)
Definition mixes_chunk (s : mixer_state) (p : positive) (e : event) : Prop :=
  match e with
  | EvMixAudio i _ _ _ _ _ => channel_at s i ≫= chunk = Some p
  | _ => False
  end.

(** ** Vocabulary for pausing *)

(** The bodies of the loops of Mix_Pause(-1) and Mix_Resume(-1), as
    functions of the channel. *)
Definition pause_fields (now : Z) (c : Mix_Channel) : Mix_Channel :=
  if 0 <? playing c then set_paused (to_int now) c else c.

Definition unpause_fields (now : Z) (c : Mix_Channel) : Mix_Channel :=
  if 0 <? playing c then resume_fields now c else c.

Definition pause_step (now : Z) : chan_step := λ _ _ c, (pause_fields now c, []).

Definition resume_step (now : Z) : chan_step := λ _ _ c, (unpause_fields now c, []).

(** * Loading a chunk from memory *)

(** Mix_QuickLoad_WAV walks through the block of memory it is given.  The
    block is the list of the bytes that can be read through [mem], each a
    [uint8_t]; a read at any other offset is outside the block.  Offsets
    are unbounded integers: the wrap-around of a pointer is not modelled. *)
Inductive scan_fault :=
  | ReadOutside (off : Z)   (* mem[off] is not part of the block *)
  | ScanDiverges.           (* the loop ran out of fuel *)

Definition scan (A : Type) : Type := (A + scan_fault)%type.

#[global] Instance scan_ret : MRet scan := λ A a, inl a.
#[global] Instance scan_bind : MBind scan := λ A B f m,
  match m with
  | inl a => f a
  | inr e => inr e
  end.

Definition read_u8 (bytes : list Z) (off : Z) : scan Z :=
  if 0 <=? off then
    match bytes !! Z.to_nat off with
    | Some b => inl b
    | None => inr (ReadOutside off)
    end
  else inr (ReadOutside off).

(** [(mem[3]<<24)|(mem[2]<<16)|(mem[1]<<8)|(mem[0])]: the bytes are promoted
    to [int], so the first shift wraps to a negative [int] when the top bit
    of [mem[3]] is set, and the result is stored into the [uint32_t]
    [chunk->alen]. *)
Definition le32_of (b0 b1 b2 b3 : Z) : Z :=
  to_u32 (Z.lor (Z.lor (Z.lor (to_int (Z.shiftl b3 24)) (Z.shiftl b2 16))
                   (Z.shiftl b1 8)) b0).

(** The bytes of ["data"]. *)
Definition data_magic : list Z := [100; 97; 116; 97].

(** The [do ... while (memcmp(magic, "data", 4) != 0)] loop, from the
    offset [pos] of [mem] on; it returns the offset of [chunk->abuf] and
    [chunk->alen]. *)
Fixpoint quickload_scan (fuel : nat) (bytes : list Z) (pos : Z)
    : scan (Z * Z) :=
  match fuel with
  | O => inr ScanDiverges
  | S fuel' =>
      m0 ← read_u8 bytes pos;
      m1 ← read_u8 bytes (pos + 1);
      m2 ← read_u8 bytes (pos + 2);
      m3 ← read_u8 bytes (pos + 3);
      b3 ← read_u8 bytes (pos + 4 + 3);
      b2 ← read_u8 bytes (pos + 4 + 2);
      b1 ← read_u8 bytes (pos + 4 + 1);
      b0 ← read_u8 bytes (pos + 4);
      let len := le32_of b0 b1 b2 b3 in
      let buf := pos + 4 + 4 in
      if bool_decide ([m0; m1; m2; m3] = data_magic) then mret (buf, len)
      else quickload_scan fuel' bytes (buf + len)
  end.

(** [Mix_QuickLoad_WAV(mem)].  [opened] is the value of the static
    [audio_opened], [fresh] what [calloc] returns, [mem] the address passed
    and [bytes] the block behind it.  Each turn of the loop moves on by
    eight bytes at least and reads inside the block, so one more turn than
    the block has bytes is fuel enough. *)
Definition Mix_QuickLoad_WAV (opened : Z) (fresh : option positive)
    (mem : Z) (bytes : list Z) (s : mixer_state)
    : scan (option positive * mixer_state) :=
  if opened =? 0 then mret (None, s)
  else
    match fresh with
    | None => mret (None, s)
    | Some p =>
        '(off, len) ← quickload_scan (S (length bytes)) bytes 12;
        mret (Some p,
              with_heap
                (<[p := {| allocated := 0; abuf := mem + off; alen := len;
                           chunk_volume := MIX_MAX_VOLUME |}]> (heap s)) s)
    end.

(** ** Vocabulary for the layout of the block *)

(** The four bytes of a length, least significant first. *)
Definition le32 (n : Z) : list Z :=
  [n mod 256; n / 256 mod 256; n / 65536 mod 256; n / 16777216 mod 256].

(** A chunk of a RIFF file: four bytes of identifier, the length of the
    payload, the payload, with no padding after it. *)
Definition wav_chunk (c : list Z * list Z) : list Z :=
  c.1 ++ le32 (Z.of_nat (length c.2)) ++ c.2.

Definition wav_chunks (cs : list (list Z * list Z)) : list Z :=
  concat (wav_chunk <$> cs).

(** A chunk the loop steps over: an identifier of four bytes other than
    ["data"] and a payload whose length fits the length field. *)
Definition skipped (c : list Z * list Z) : Prop :=
  length c.1 = 4%nat ∧ c.1 ≠ data_magic ∧ Z.of_nat (length c.2) < 2 ^ 32.

(** ** More sample states *)

(** A channel that has read [done] bytes of chunk 1 and has [left] to go. *)
Definition reading_channel (done left loops : Z) : Mix_Channel :=
  set_samples (4096 + done) (busy_channel left loops).

(** A channel of group [tg] that started at tick [t]. *)
Definition grouped_channel (tg t left : Z) : Mix_Channel :=
  set_tag tg (set_start_time t (busy_channel left 0)).

(** A playing channel paused at tick [t]. *)
Definition paused_channel (t left : Z) : Mix_Channel :=
  set_paused t (busy_channel left 0).

(** Settles a statement about every channel of a closed state, channel by
    channel. *)
Ltac each_channel Hc :=
  simpl in Hc;
  first
    [ discriminate Hc
    | injection Hc as <-
    | match type of Hc with
      | context [_ !! ?n] => destruct n; each_channel Hc
      end ].

Ltac solve_in_chunk :=
  let i := fresh "i" in
  let c := fresh "c" in
  let Hc := fresh "Hc" in
  let Hpl := fresh "Hpl" in
  intros i c Hc; unfold channel_at in Hc; simpl in Hc;
  destruct (0 <=? i); [|discriminate Hc];
  each_channel Hc;
  intros Hpl;
  first
    [ exfalso; vm_compute in Hpl; discriminate Hpl
    | eexists _, _; split; [reflexivity|]; split; [reflexivity|];
      solve_range ].

(** * Opening and closing the device *)

(** What mixer.c asks of the audio device and of the music player. *)
Inductive device_call :=
  | SDL_OpenAudio (freq format nchannels samples : Z)
  | SDL_CloseAudio
  | SDL_PauseAudio (pause_on : Z)
  | open_music
  | close_music
  | Mix_VolumeMusic (vol : Z).

(** The statics of mixer.c that the channel interface does not read, around
    the state of the channels: [audio_opened], [mixer.freq] (the fields
    [mixer.format] and [mixer.channels] are in [mixer_state]), the decoder
    registry, whose names are lists of characters, and the calls made to
    the device so far, most recent first. *)
Record audio := mkAudio {
  audio_opened : Z;
  mixer_freq : Z;
  chunk_decoders : list (list Z);
  num_decoders : Z;
  chan_state : mixer_state;
  calls : list device_call
}.

Definition with_audio_opened (v : Z) (d : audio) : audio :=
  {| audio_opened := v; mixer_freq := mixer_freq d;
     chunk_decoders := chunk_decoders d; num_decoders := num_decoders d;
     chan_state := chan_state d; calls := calls d |}.

Definition with_mixer_freq (v : Z) (d : audio) : audio :=
  {| audio_opened := audio_opened d; mixer_freq := v;
     chunk_decoders := chunk_decoders d; num_decoders := num_decoders d;
     chan_state := chan_state d; calls := calls d |}.

Definition with_decoders (ds : list (list Z)) (n : Z) (d : audio) : audio :=
  {| audio_opened := audio_opened d; mixer_freq := mixer_freq d;
     chunk_decoders := ds; num_decoders := n;
     chan_state := chan_state d; calls := calls d |}.

Definition with_chan_state (s : mixer_state) (d : audio) : audio :=
  {| audio_opened := audio_opened d; mixer_freq := mixer_freq d;
     chunk_decoders := chunk_decoders d; num_decoders := num_decoders d;
     chan_state := s; calls := calls d |}.

Definition with_calls (v : list device_call) (d : audio) : audio :=
  {| audio_opened := audio_opened d; mixer_freq := mixer_freq d;
     chunk_decoders := chunk_decoders d; num_decoders := num_decoders d;
     chan_state := chan_state d; calls := v |}.

Definition with_mixer_spec (format nchannels : Z) (s : mixer_state)
    : mixer_state :=
  {| mix_channel := mix_channel s; num_channels := num_channels s;
     reserved_channels := reserved_channels s;
     channel_done_callback := channel_done_callback s;
     mixer_format := format; mixer_channels := nchannels;
     music_on := music_on s; posteffects := posteffects s; heap := heap s;
     trace := trace s |}.

(** Computations on these statics that can fault. *)
Definition D (A : Type) : Type := audio → (A * audio) + fault.

#[global] Instance D_ret : MRet D := λ A a d, inl (a, d).
#[global] Instance D_bind : MBind D := λ A B f m d,
  match m d with
  | inl (a, d') => f a d'
  | inr e => inr e
  end.

Definition D_gets {A} (f : audio → A) : D A := λ d, inl (f d, d).
Definition D_modify (f : audio → audio) : D unit := λ d, inl (tt, f d).
Definition D_crash {A} (e : fault) : D A := λ _, inr e.

(** A function of the channel interface, run on the state of the channels. *)
Definition lift {A} (m : M A) : D A := λ d,
  match m (chan_state d) with
  | Ok a s => inl (a, with_chan_state s d)
  | Crash e => inr e
  end.

Definition call (c : device_call) : D unit :=
  D_modify (λ d, with_calls (c :: calls d) d).

(** ** The decoder registry *)

Definition Mix_GetNumChunkDecoders : D Z := D_gets num_decoders.

Definition Mix_GetChunkDecoder (index : Z) : D (option (list Z)) :=
  n ← D_gets num_decoders;
  if (index <? 0) || (n <=? index) then mret None
  else
    ds ← D_gets chunk_decoders;
    match ds !! Z.to_nat index with
    | Some name => mret (Some name)
    | None => D_crash (OutOfBounds index)
    end.

(** [add_chunk_decoder(decoder)]; [room] tells whether [realloc] succeeds.
    The array is resized to [num_decoders + 1] entries, an entry the old
    array did not have being shown as the empty name until it is written. *)
Definition add_chunk_decoder (room : bool) (decoder : list Z) : D unit :=
  if room then
    D_modify (λ d,
      let n := num_decoders d in
      with_decoders
        (<[Z.to_nat n := decoder]>
           (resize (Z.to_nat (n + 1)) [] (chunk_decoders d)))
        (to_int (n + 1)) d)
  else mret tt.

(** The characters of ["WAVE"]. *)
Definition WAVE_name : list Z := [87; 65; 86; 69].

(** ** Mix_QuerySpec *)

(** The value returned and, when the device is open, the three values
    stored through the pointers (none of which is taken to be NULL). *)
Definition Mix_QuerySpec : D (Z * option (Z * Z * Z)) :=
  d ← D_gets id;
  mret (audio_opened d,
        if audio_opened d =? 0 then None
        else Some (mixer_freq d, mixer_format (chan_state d),
                   mixer_channels (chan_state d))).

(** ** Mix_CloseAudio *)

Definition Mix_CloseAudio : D unit :=
  opened ← D_gets audio_opened;
  if opened =? 0 then mret tt
  else
    (if opened =? 1 then
       call close_music;;
       lift (Mix_HaltChannel (-1));;
       call SDL_CloseAudio;;
       lift (modify (with_mix_channel None));;
       D_modify (with_decoders [] 0)
     else mret tt);;
    D_modify (λ d, with_audio_opened (to_int (audio_opened d - 1)) d).

(** [while (audio_opened) Mix_CloseAudio();] *)
Fixpoint close_all (fuel : nat) : D unit :=
  opened ← D_gets audio_opened;
  if opened =? 0 then mret tt
  else
    match fuel with
    | O => D_crash Diverges
    | S fuel' => Mix_CloseAudio;; close_all fuel'
    end.

(** ** Mix_OpenAudio *)

(** [malloc(n * sizeof(struct _Mix_Channel))]: NULL, or [n] channels that
    hold whatever the memory held. *)
Definition malloc_bank (n : Z) (memory : option (Z → Mix_Channel))
    : option (list Mix_Channel) :=
  (λ junk, (λ k, junk (Z.of_nat k)) <$> seq 0 (Z.to_nat n)) <$> memory.

(** [Mix_OpenAudio(frequency, format, nchannels, chunksize)].
    [MIX_CHANNELS] is the constant of SDL_mixer.h, a header that is not
    part of the sources.  The other parameters are the answers of the world:
    [obtained] is the format SDL_OpenAudio stores in [mixer] ([None] when it
    fails, in which case [mixer] is taken to be left alone), [music_ok]
    whether open_music succeeds, [memory] what malloc returns and [room]
    whether the registry can grow. *)
Definition Mix_OpenAudio (MIX_CHANNELS : Z)
    (frequency format nchannels chunksize : Z)
    (obtained : option (Z * Z * Z)) (music_ok : bool)
    (memory : option (Z → Mix_Channel)) (room : bool) : D Z :=
  d ← D_gets id;
  if negb (audio_opened d =? 0) &&
     (format =? mixer_format (chan_state d)) &&
     (nchannels =? mixer_channels (chan_state d))
  then
    D_modify (with_audio_opened (to_int (audio_opened d + 1)));;
    mret 0
  else
    close_all (Z.to_nat (audio_opened d));;
    call (SDL_OpenAudio frequency format nchannels chunksize);;
    match obtained with
    | None => mret (-1)
    | Some (freq', format', nchannels') =>
        D_modify (with_mixer_freq freq');;
        lift (modify (with_mixer_spec format' nchannels'));;
        call open_music;;
        if negb music_ok then call SDL_CloseAudio;; mret (-1)
        else
          lift (modify (with_num_channels MIX_CHANNELS));;
          lift (modify (with_mix_channel (malloc_bank MIX_CHANNELS memory)));;
          lift (for_loop 0 MIX_CHANNELS clear_channel);;
          call (Mix_VolumeMusic SDL_MIX_MAXVOLUME);;
          add_chunk_decoder room WAVE_name;;
          D_modify (with_audio_opened 1);;
          call (SDL_PauseAudio 0);;
          mret 0
    end.

(** ** Vocabulary for the device *)

(** The registry holds [num_decoders] names. *)
Definition registry_ok (d : audio) : Prop :=
  num_decoders d = Z.of_nat (length (chunk_decoders d)).

(** A device that is open, with a bank of [num_channels] channels. *)
Definition opened_ok (d : audio) : Prop :=
  0 < audio_opened d < INT_MAX ∧ bank_ok (chan_state d).

(** Unfolds the operations on the statics of the device. *)
Ltac dunfold :=
  unfold call, lift, D_gets, D_modify, D_crash, mbind, D_bind, mret, D_ret in *.

(** ** Sample devices *)

(** The statics before the first open. *)
Definition closed_device : audio :=
  {| audio_opened := 0; mixer_freq := 0; chunk_decoders := [];
     num_decoders := 0;
     chan_state :=
       {| mix_channel := None; num_channels := 0; reserved_channels := 0;
          channel_done_callback := false; mixer_format := 0;
          mixer_channels := 0; music_on := false; posteffects := [];
          heap := ∅; trace := [] |};
     calls := [] |}.

(** A device opened [k] times at 44100 Hz, with the channels [bank]. *)
Definition open_device (k : Z) (bank : list Mix_Channel) : audio :=
  {| audio_opened := k; mixer_freq := 44100;
     chunk_decoders := [WAVE_name]; num_decoders := 1;
     chan_state := sample_state bank 10;
     calls := [] |}.

(** * The states of an open mixer *)

(** ** Partial correctness *)


(** ** Calls *)

Definition with_music_on (v : bool) (s : mixer_state) : mixer_state :=
  {| mix_channel := mix_channel s; num_channels := num_channels s;
     reserved_channels := reserved_channels s; channel_done_callback :=
     channel_done_callback s; mixer_format := mixer_format s; mixer_channels
     := mixer_channels s; music_on := v; posteffects := posteffects s;
     heap := heap s; trace := trace s |}.

(** What a program and the audio device can do to the statics of mixer.c
    between Mix_OpenAudio and Mix_CloseAudio.  The values that the C
    functions take from the clock or from the allocator are carried by the
    call.  [call_load] is a loader (Mix_LoadWAV_RW, Mix_QuickLoad_WAV) that
    hands out a new chunk, [call_music] a change of the music player
    (Mix_HookMusic, or music that starts or stops), [call_mix] one run of
    the audio callback.  The queries (Mix_Playing, Mix_Paused, Mix_GetChunk,
    Mix_FadingChannel, Mix_GroupAvailable, Mix_GroupOldest, ...) write
    nothing and are not listed. *)
Inductive api_call :=
  | call_play (which : Z) (chunk : option positive) (loops ticks now : Z)
  | call_halt (which : Z)
  | call_volume (which vol : Z)
  | call_pause (which now : Z)
  | call_resume (which now : Z)
  | call_expire (which ticks now : Z)
  | call_group (which tg : Z)
  | call_groups (from to tg : Z)
  | call_reserve (num : Z)
  | call_finished (registered : bool)
  | call_allocate (SIZE_MAX chan_size numchans : Z)
      (memory : option (Z → Mix_Channel))
  | call_free (chunk : option positive)
  | call_load (p : positive) (ck : Mix_Chunk)
  | call_music (on : bool)
  | call_mix (fuel : nat) (now len : Z).

Definition run (c : api_call) : M unit :=
  match c with
  | call_play which chunk loops ticks now =>
      Mix_PlayChannelTimed which chunk loops ticks now;; mret tt
  | call_halt which => Mix_HaltChannel which;; mret tt
  | call_volume which vol => Mix_Volume which vol;; mret tt
  | call_pause which now => Mix_Pause which now
  | call_resume which now => Mix_Resume which now
  | call_expire which ticks now => Mix_ExpireChannel which ticks now;; mret tt
  | call_group which tg => Mix_GroupChannel which tg;; mret tt
  | call_groups from to tg => Mix_GroupChannels from to tg;; mret tt
  | call_reserve num => Mix_ReserveChannels num;; mret tt
  | call_finished registered => Mix_ChannelFinished registered
  | call_allocate SIZE_MAX chan_size numchans memory =>
      Mix_AllocateChannels SIZE_MAX chan_size numchans memory;; mret tt
  | call_free chunk => Mix_FreeChunk chunk
  | call_load p ck => modify (λ s, with_heap (<[p := ck]> (heap s)) s)
  | call_music on => modify (with_music_on on)
  | call_mix fuel now len => mix_channels fuel now len
  end.

(** What the world guarantees about a call: a loader hands out a chunk at
    an address that is not in use, with a length that fits its [uint32_t]
    field; a resize to a positive count is served by the allocator, and the
    size asked for fits [size_t]. *)
Definition allowed (c : api_call) (s : mixer_state) : Prop :=
  match c with
  | call_load p ck => heap s !! p = None ∧ 0 ≤ alen ck ≤ UINT32_MAX
  | call_allocate SIZE_MAX chan_size numchans memory =>
      numchans ≤ 0 ∨
      (0 < chan_size ∧ numchans * chan_size ≤ SIZE_MAX ∧ is_Some memory)
  | _ => True
  end.

(** The state Mix_OpenAudio leaves when it succeeds: a bank of
    [num_channels] channels, each with the defaults; the chunks are those
    that an earlier session left. *)
Definition opened (s : mixer_state) : Prop :=
  (∃ arr,
     mix_channel s = Some arr ∧
     num_channels s = Z.of_nat (length arr) ∧
     Forall is_default arr) ∧
  (∀ p ck, heap s !! p = Some ck → 0 ≤ alen ck ≤ UINT32_MAX).

(** The states of an open mixer. *)
Inductive reachable : mixer_state → Prop :=
  | reach_open (s : mixer_state) :
      opened s → reachable s
  | reach_step (s s' : mixer_state) (c : api_call) :
      reachable s → allowed c s → run c s = Ok tt s' → reachable s'.

(** ** What holds in them *)



(** The fields on which [sound] depends are the same. *)
Definition same_play (c c' : Mix_Channel) : Prop :=
  chunk c' = chunk c ∧ playing c' = playing c ∧ looping c' = looping c ∧
  fading c' = fading c.


(** ** Sample states of an open mixer *)



(** A freshly opened mixer with a chunk of 2^31 bytes. *)
Definition overlong_state : mixer_state :=
  sample_state [idle_channel; idle_channel] 2147483648.

(** * Properties *)

(** ** Machine integers *)

Lemma to_int_id (z : Z) : - 2 ^ 31 ≤ z ≤ INT_MAX → to_int z = z.
Proof.
  unfold to_int, INT_MAX. intros H.
  rewrite Z.mod_small; lia.
Qed.

Lemma to_u32_id (z : Z) : 0 ≤ z ≤ UINT32_MAX → to_u32 z = z.
Proof. unfold to_u32, UINT32_MAX. intros H. apply Z.mod_small. lia. Qed.

Lemma to_u32_to_int (z : Z) : to_u32 (to_int z) = to_u32 z.
Proof.
  unfold to_u32, to_int.
  rewrite <- (Z.mod_add ((z + 2 ^ 31) mod 2 ^ 32 - 2 ^ 31) 1 (2 ^ 32)) by lia.
  replace ((z + 2 ^ 31) mod 2 ^ 32 - 2 ^ 31 + 1 * 2 ^ 32)
    with ((z + 2 ^ 31) mod 2 ^ 32 + 2 ^ 31) by lia.
  rewrite Zplus_mod_idemp_l.
  replace (z + 2 ^ 31 + 2 ^ 31) with (z + 1 * 2 ^ 32) by lia.
  apply Z.mod_add. lia.
Qed.

(** The deadline arithmetic of Mix_Resume is an addition modulo 2^32. *)
Lemma resume_arith (e t0 t1 : Z) :
  to_u32 (e + to_u32 (t1 - to_u32 (to_int t0))) = to_u32 (e + (t1 - t0)).
Proof.
  rewrite to_u32_to_int. unfold to_u32.
  rewrite Zminus_mod_idemp_r, Zplus_mod_idemp_r. reflexivity.
Qed.

(** ** Reading and writing the bank *)

Lemma get_channel_at (i : Z) (s : mixer_state) :
  get_channel i s =
  match channel_at s i with
  | Some c => Ok c s
  | None => Crash (OutOfBounds i)
  end.
Proof.
  unfold get_channel, channel_at.
  destruct (mix_channel s); [|done]. by destruct (0 <=? i).
Qed.

Lemma channel_at_Some (s : mixer_state) (i : Z) (c : Mix_Channel) :
  channel_at s i = Some c →
  ∃ arr, mix_channel s = Some arr ∧ 0 ≤ i < Z.of_nat (length arr) ∧
         arr !! Z.to_nat i = Some c.
Proof.
  unfold channel_at. destruct (mix_channel s) as [arr|]; [|done].
  destruct (Z.leb_spec 0 i); [|done]. intros Hl.
  exists arr. split; [done|]. split; [|done].
  apply lookup_lt_Some in Hl. lia.
Qed.

Lemma put_channel_at (i : Z) (c c0 : Mix_Channel) (s : mixer_state) (arr : list Mix_Channel) :
  mix_channel s = Some arr → channel_at s i = Some c0 →
  put_channel i c s = Ok tt (with_mix_channel (Some (<[Z.to_nat i := c]> arr)) s).
Proof.
  intros Hb H. destruct (channel_at_Some _ _ _ H) as (arr' & Hb' & Hi & _).
  unfold put_channel. rewrite Hb' in *. simplify_eq.
  destruct (Z.leb_spec 0 i); [|lia].
  destruct (Z.ltb_spec i (Z.of_nat (length arr))); [done|lia].
Qed.

Lemma channel_at_put_eq (i : Z) (c : Mix_Channel) (s : mixer_state) (arr : list Mix_Channel) :
  0 ≤ i < Z.of_nat (length arr) →
  channel_at (with_mix_channel (Some (<[Z.to_nat i := c]> arr)) s) i = Some c.
Proof.
  intros H. unfold channel_at. simpl.
  destruct (Z.leb_spec 0 i); [|lia].
  apply list_lookup_insert_eq. lia.
Qed.

Lemma channel_at_put_ne (i j : Z) (c : Mix_Channel) (s : mixer_state) (arr : list Mix_Channel) :
  mix_channel s = Some arr → 0 ≤ i → i ≠ j →
  channel_at (with_mix_channel (Some (<[Z.to_nat i := c]> arr)) s) j = channel_at s j.
Proof.
  intros Hb Hi Hne. unfold channel_at. simpl. rewrite Hb.
  destruct (Z.leb_spec 0 j); [|done].
  apply list_lookup_insert_ne. lia.
Qed.

Lemma with_mix_channel_id (s : mixer_state) (arr : list Mix_Channel) :
  mix_channel s = Some arr → with_mix_channel (Some arr) s = s.
Proof. destruct s; simpl; intros ->; reflexivity. Qed.

(** ** Pause and resume *)

(** C4.  On a playing channel with a deadline, Mix_Pause at tick [T0] stamps
    [paused] and Mix_Resume at tick [T1] clears the stamp and moves the
    deadline forward by [T1 - T0] (in [uint32_t] arithmetic, hence exactly
    when nothing wraps): a deadline [T0 + 500] becomes [T1 + 500].  On a
    channel that is not playing both calls change nothing. *)
Theorem pause_resume_shifts_deadline
    (s : mixer_state) (which T0 T1 : Z) (c : Mix_Channel) :
  channel_at s which = Some c →
  which < num_channels s →
  0 ≤ T0 ≤ UINT32_MAX →
  0 ≤ T1 ≤ UINT32_MAX →
  (0 < playing c → 0 < expire c ≤ UINT32_MAX →
   ∃ s1 s2 c1 c2,
     Mix_Pause which T0 s = Ok tt s1 ∧
     channel_at s1 which = Some c1 ∧
     paused c1 = to_int T0 ∧ to_u32 (paused c1) = T0 ∧
     expire c1 = expire c ∧
     Mix_Resume which T1 s1 = Ok tt s2 ∧
     channel_at s2 which = Some c2 ∧
     paused c2 = 0 ∧
     expire c2 = to_u32 (expire c + (T1 - T0)) ∧
     (T0 ≤ T1 → expire c + (T1 - T0) ≤ UINT32_MAX →
      expire c2 = expire c + (T1 - T0)) ∧
     (expire c = T0 + 500 → T1 + 500 ≤ UINT32_MAX → expire c2 = T1 + 500)) ∧
  (playing c ≤ 0 →
   Mix_Pause which T0 s = Ok tt s ∧ Mix_Resume which T1 s = Ok tt s).
Proof.
  intros Hc Hn HT0 HT1.
  destruct (channel_at_Some _ _ _ Hc) as (arr & Hb & Hi & Hl).
  assert (Hw : (which =? -1) = false) by lia.
  assert (Hlt : (which <? num_channels s) = true) by lia.
  split.
  - intros Hp He.
    set (c1 := set_paused (to_int T0) c).
    set (s1 := with_mix_channel (Some (<[Z.to_nat which := c1]> arr)) s).
    set (c2 := resume_fields T1 c1).
    assert (H1 : channel_at s1 which = Some c1)
      by (apply channel_at_put_eq; lia).
    assert (HP : Mix_Pause which T0 s = Ok tt s1).
    { unfold Mix_Pause, pause_channel. munfold. rewrite Hw, Hlt.
      rewrite get_channel_at, Hc.
      destruct (Z.ltb_spec 0 (playing c)); [|lia].
      by apply (put_channel_at _ _ c). }
    exists s1,
      (with_mix_channel
         (Some (<[Z.to_nat which := c2]> (<[Z.to_nat which := c1]> arr))) s1),
      c1, c2.
    split; [exact HP|]. split; [exact H1|].
    split; [reflexivity|]. split.
    { simpl. rewrite to_u32_to_int. apply to_u32_id. lia. }
    split; [reflexivity|]. split.
    { unfold Mix_Resume, resume_channel. munfold.
      replace (num_channels s1) with (num_channels s) by reflexivity.
      rewrite Hw, Hlt, get_channel_at, H1.
      replace (playing c1) with (playing c) by reflexivity.
      destruct (Z.ltb_spec 0 (playing c)); [|lia].
      by apply (put_channel_at _ _ c1). }
    split.
    { apply channel_at_put_eq. rewrite length_insert. lia. }
    assert (Hexp : expire c2 = to_u32 (expire c + (T1 - T0))).
    { unfold c2, resume_fields. replace (expire c1) with (expire c) by reflexivity.
      destruct (Z.ltb_spec 0 (expire c)); [|lia].
      simpl. apply resume_arith. }
    split.
    { unfold c2, resume_fields. by destruct (0 <? expire c1). }
    split; [exact Hexp|]. split.
    + intros ? ?. rewrite Hexp. apply to_u32_id. lia.
    + intros E ?. rewrite Hexp, E.
      replace (T0 + 500 + (T1 - T0)) with (T1 + 500) by lia.
      apply to_u32_id. lia.
  - intros Hp. split.
    + unfold Mix_Pause, pause_channel. munfold. rewrite Hw, Hlt.
      rewrite get_channel_at, Hc.
      by destruct (Z.ltb_spec 0 (playing c)); [lia|].
    + unfold Mix_Resume, resume_channel. munfold. rewrite Hw, Hlt.
      rewrite get_channel_at, Hc.
      by destruct (Z.ltb_spec 0 (playing c)); [lia|].
Qed.

(** ** Frame truncation *)

Lemma mod_pred (len fw : Z) :
  0 < fw → 0 ≤ len → len mod fw ≠ 0 → (len - 1) mod fw = len mod fw - 1.
Proof.
  intros Hfw Hlen Hne.
  pose proof (Z.mod_pos_bound len fw Hfw) as Hb.
  symmetry. apply (Z.mod_unique _ _ (len / fw)); [lia|].
  pose proof (Z.div_mod len fw). lia.
Qed.

Lemma trim_alen_spec (fuel : nat) (len fw : Z) :
  0 < fw → 0 ≤ len → len ≤ Z.of_nat fuel →
  trim_alen fuel len fw = Some (len - len mod fw).
Proof.
  intros Hfw. revert len. induction fuel as [|fuel IH]; intros len Hlen Hfuel.
  - assert (len = 0) as -> by lia. reflexivity.
  - simpl. destruct (Z.eqb_spec (len mod fw) 0) as [E|E].
    + rewrite E. f_equal. lia.
    + assert (len ≠ 0) by (intros ->; by rewrite Z.mod_0_l in E by lia).
      rewrite IH by lia. f_equal.
      rewrite mod_pred by lia. lia.
Qed.

Lemma checkchunkintegral_spec (p : positive) (ck : Mix_Chunk) (s : mixer_state) :
  heap s !! p = Some ck →
  0 ≤ alen ck →
  0 < frame_width_of (mixer_format s) (mixer_channels s) →
  let len := alen ck - alen ck mod frame_width_of (mixer_format s) (mixer_channels s) in
  checkchunkintegral p s =
  Ok (to_int len) (with_heap (<[p := set_alen len ck]> (heap s)) s).
Proof.
  intros Hp Hlen Hfw len. unfold checkchunkintegral, get_chunk. munfold.
  rewrite Hp. destruct (Z.eqb_spec (frame_width_of (mixer_format s) (mixer_channels s)) 0); [lia|].
  rewrite trim_alen_spec by lia. reflexivity.
Qed.

(** ** Playing an unplayable chunk *)

(** C9, amended.  Mix_PlayChannelTimed with a NULL chunk returns -1 and
    changes nothing.  With a chunk whose frame-truncated length is zero it
    returns -1 and leaves the channels and the trace alone, but the chunk's
    length has been truncated in place to zero (so nothing changes only when
    the length was zero already). *)
Theorem play_rejects_unplayable_chunk
    (s : mixer_state) (which loops ticks now : Z) :
  Mix_PlayChannelTimed which None loops ticks now s = Ok (-1) s ∧
  ∀ (p : positive) (ck : Mix_Chunk),
    heap s !! p = Some ck →
    0 ≤ alen ck ≤ UINT32_MAX →
    0 < frame_width_of (mixer_format s) (mixer_channels s) →
    alen ck - alen ck mod frame_width_of (mixer_format s) (mixer_channels s) = 0 →
    ∃ s',
      Mix_PlayChannelTimed which (Some p) loops ticks now s = Ok (-1) s' ∧
      mix_channel s' = mix_channel s ∧
      num_channels s' = num_channels s ∧
      trace s' = trace s ∧
      heap s' = <[p := set_alen 0 ck]> (heap s) ∧
      (alen ck = 0 → s' = s).
Proof.
  split; [reflexivity|].
  intros p ck Hp Hlen Hfw Hz.
  exists (with_heap (<[p := set_alen 0 ck]> (heap s)) s).
  split.
  - unfold Mix_PlayChannelTimed. munfold.
    rewrite (checkchunkintegral_spec p ck) by (done || lia).
    rewrite Hz. reflexivity.
  - repeat split; try reflexivity.
    intros Hz'. rewrite insert_id.
    + by destruct s.
    + rewrite Hp. f_equal. destruct ck; simpl in *. by subst.
Qed.

(** ** Indices outside the bank *)

(** C10.  The code departs from the claim: Mix_Volume, Mix_HaltChannel and
    Mix_Playing test only [which < num_channels], so any [which < -1] indexes
    the array below its start; Mix_GroupChannel tests [which > num_channels],
    so [which = num_channels] writes one past the end. *)
Theorem out_of_range_index_reaches_array
    (s : mixer_state) (arr : list Mix_Channel) (which vol tg : Z) :
  mix_channel s = Some arr →
  num_channels s = Z.of_nat (length arr) →
  (which < -1 →
   Mix_Volume which vol s = Crash (OutOfBounds which) ∧
   Mix_HaltChannel which s = Crash (OutOfBounds which) ∧
   Mix_Playing which s = Crash (OutOfBounds which)) ∧
  Mix_GroupChannel (num_channels s) tg s = Crash (OutOfBounds (num_channels s)).
Proof.
  intros Hb Hn. split.
  - intros Hw.
    assert (Hne : (which =? -1) = false) by lia.
    assert (Hlt : (which <? num_channels s) = true) by lia.
    assert (Hg : get_channel which s = Crash (OutOfBounds which)).
    { unfold get_channel. rewrite Hb.
      by destruct (Z.leb_spec 0 which); [lia|]. }
    repeat split.
    + unfold Mix_Volume, Mix_Volume_one. munfold. by rewrite Hne, Hlt, Hg.
    + unfold Mix_HaltChannel, Mix_HaltChannel_one. munfold.
      by rewrite Hne, Hlt, Hg.
    + unfold Mix_Playing. munfold. by rewrite Hne, Hlt, Hg.
  - unfold Mix_GroupChannel. munfold.
    destruct (Z.ltb_spec (num_channels s) 0); [lia|].
    rewrite Z.ltb_irrefl. simpl.
    unfold get_channel. rewrite Hb.
    destruct (Z.leb_spec 0 (num_channels s)); [|lia].
    rewrite (lookup_ge_None_2 arr); [done|lia].
Qed.

(** ** Expiration against halt *)

(** The body of the channel loop on an unpaused channel whose deadline has
    passed. *)
Lemma expired_block
    (fuel : nat) (cb : bool) (hp : gmap positive Mix_Chunk)
    (i now len vol : Z) (c : Mix_Channel) :
  paused c = 0 →
  0 < expire c < now →
  mix_block fuel cb hp i now len vol c =
    inl {| cur_index := 0; cur_volume := vol;
           cur_chan := expire_fields c; cur_events := done_events cb i |}.
Proof.
  intros Hp He. unfold mix_block, fade_step. rewrite Hp. simpl.
  destruct (Z.ltb_spec 0 (expire c)); [|lia].
  destruct (Z.ltb_spec (expire c) now); [|lia]. reflexivity.
Qed.


(** ** Loops over the bank *)

Lemma apply_step_id (i : Z) (c : Mix_Channel) (s : mixer_state) :
  channel_at s i = Some c → apply_step i (c, []) s = s.
Proof.
  intros H. destruct (channel_at_Some _ _ _ H) as (arr & Hb & _ & Hl).
  unfold apply_step. simpl. rewrite Hb. simpl.
  rewrite list_insert_id by done.
  destruct s; simpl in *. by subst.
Qed.

Lemma range_events_ext (F : chan_step) (cb : bool) (arr arr' : list Mix_Channel)
    (n : nat) (lo : Z) :
  0 ≤ lo →
  (∀ j : nat, lo ≤ Z.of_nat j → arr' !! j = arr !! j) →
  range_events F cb arr' n lo = range_events F cb arr n lo.
Proof.
  revert lo. induction n as [|n IH]; intros lo Hlo Hext; [done|].
  simpl. rewrite IH by (try lia; intros j Hj; apply Hext; lia).
  rewrite Hext by lia. reflexivity.
Qed.

Lemma for_range_runs (bounded : bool) (body : Z → M unit) (F : chan_step) :
  runs_as bounded body F →
  ∀ (n : nat) (lo : Z) (s : mixer_state) (arr : list Mix_Channel),
    mix_channel s = Some arr →
    0 ≤ lo →
    lo + Z.of_nat n ≤ Z.of_nat (length arr) →
    (bounded = true → lo + Z.of_nat n ≤ num_channels s) →
    ∃ arr',
      for_range n lo body s =
        Ok tt (with_trace
                 (range_events F (channel_done_callback s) arr n lo ++ trace s)
                 (with_mix_channel (Some arr') s)) ∧
      length arr' = length arr ∧
      ∀ j : nat,
        arr' !! j =
        if bool_decide (lo ≤ Z.of_nat j < lo + Z.of_nat n)
        then (λ c, (F (channel_done_callback s) (Z.of_nat j) c).1) <$> arr !! j
        else arr !! j.
Proof.
  intros Hrun. induction n as [|n IH]; intros lo s arr Hb Hlo Hlen Hnum.
  - exists arr. split; [|split; [done|]].
    + simpl. munfold. f_equal. destruct s; simpl in *. by subst.
    + intros j. case_bool_decide; [lia|done].
  - destruct (lookup_lt_is_Some_2 arr (Z.to_nat lo)) as [c Hc]; [lia|].
    assert (Hat : channel_at s lo = Some c).
    { unfold channel_at. rewrite Hb. by destruct (Z.leb_spec 0 lo); [|lia]. }
    set (cb := channel_done_callback s).
    set (s1 := apply_step lo (F cb lo c) s).
    set (arr1 := <[Z.to_nat lo := (F cb lo c).1]> arr).
    assert (Hb1 : mix_channel s1 = Some arr1).
    { unfold s1, apply_step. simpl. by rewrite Hb. }
    destruct (IH (lo + 1) s1 arr1 Hb1) as (arr' & Hfor & Hlen' & Hlk).
    { lia. }
    { unfold arr1. rewrite length_insert. lia. }
    { replace (num_channels s1) with (num_channels s) by reflexivity.
      intros Hbd. specialize (Hnum Hbd). lia. }
    exists arr'. split; [|split].
    + simpl. munfold.
      rewrite (Hrun lo s c Hat) by (intros Hbd; specialize (Hnum Hbd); lia).
      fold cb. fold s1. rewrite Hfor.
      replace (channel_done_callback s1) with cb by reflexivity.
      rewrite (range_events_ext F cb arr arr1).
      * rewrite Hc. unfold s1, apply_step. simpl.
        unfold with_trace, with_mix_channel. simpl. f_equal. f_equal.
        by rewrite app_assoc.
      * lia.
      * intros j Hj. unfold arr1. apply list_lookup_insert_ne. lia.
    + rewrite Hlen'. unfold arr1. by rewrite length_insert.
    + intros j. rewrite Hlk.
      replace (channel_done_callback s1) with cb by reflexivity.
      destruct (decide (j = Z.to_nat lo)) as [->|Hne].
      * rewrite (bool_decide_eq_false_2 (lo + 1 ≤ _ < _)) by lia.
        rewrite bool_decide_eq_true_2 by lia.
        unfold arr1. rewrite list_lookup_insert_eq by lia.
        rewrite Hc. simpl. by rewrite Z2Nat.id by lia.
      * unfold arr1. rewrite list_lookup_insert_ne by done.
        repeat case_bool_decide; (done || lia).
Qed.

Lemma range_events_silent (F : chan_step) (cb : bool) (arr : list Mix_Channel)
    (n : nat) (lo : Z) :
  (∀ i c, (F cb i c).2 = []) → range_events F cb arr n lo = [].
Proof.
  intros Hs. revert lo. induction n as [|n IH]; intros lo; [done|].
  simpl. rewrite IH. destruct (arr !! Z.to_nat lo); simpl; [apply Hs|done].
Qed.

Lemma stop_if_chunk_runs (p : positive) :
  runs_as false (stop_if_chunk p) (stop_step p).
Proof.
  intros i s c Hc _. unfold stop_if_chunk, stop_step. munfold.
  rewrite get_channel_at, Hc.
  destruct (channel_at_Some _ _ _ Hc) as (arr & Hb & Hi & Hl).
  case_bool_decide.
  - rewrite (put_channel_at _ _ c s arr) by done.
    unfold apply_step. simpl. rewrite Hb. reflexivity.
  - by rewrite apply_step_id.
Qed.

Lemma Mix_HaltChannel_one_runs :
  runs_as true Mix_HaltChannel_one halt_step.
Proof.
  intros i s c Hc Hn. specialize (Hn eq_refl).
  unfold Mix_HaltChannel_one, _Mix_channel_done_playing, halt_step. munfold.
  destruct (Z.ltb_spec i (num_channels s)); [|lia].
  rewrite get_channel_at, Hc.
  destruct (channel_at_Some _ _ _ Hc) as (arr & Hb & Hi & Hl).
  destruct (playing c =? 0); simpl.
  - rewrite (put_channel_at _ _ c s arr) by done.
    unfold apply_step. simpl. rewrite Hb. simpl.
    unfold with_trace, with_mix_channel. simpl. by destruct s.
  - erewrite put_channel_at; [|exact Hb|exact Hc].
    unfold apply_step. simpl. rewrite Hb. reflexivity.
Qed.

Lemma clear_channel_runs : runs_as false clear_channel clear_step.
Proof.
  intros i s c Hc _. unfold clear_channel, clear_step. munfold.
  rewrite get_channel_at, Hc.
  destruct (channel_at_Some _ _ _ Hc) as (arr & Hb & Hi & Hl).
  rewrite (put_channel_at _ _ c s arr) by done.
  unfold apply_step. simpl. rewrite Hb. simpl.
  unfold with_trace, with_mix_channel. simpl. by destruct s.
Qed.

(** ** Destroying a chunk *)

Lemma holders_spec (p : positive) (arr : list Mix_Channel) (lo i : Z) :
  i ∈ holders p lo arr ↔
  ∃ c, lo ≤ i ∧ arr !! Z.to_nat (i - lo) = Some c ∧ chunk c = Some p.
Proof.
  revert lo. induction arr as [|c arr IH]; intros lo; simpl.
  - split; [by intros ?%elem_of_nil|by intros (? & _ & ? & _)].
  - rewrite elem_of_app, IH. split.
    + intros [Hin|(c' & Hlo & Hl & Hc)].
      * case_bool_decide as Hd; [|by apply elem_of_nil in Hin].
        apply list_elem_of_singleton in Hin as ->.
        exists c. rewrite Z.sub_diag. split; [lia|done].
      * exists c'. split; [lia|]. split; [|done].
        replace (Z.to_nat (i - lo)) with (S (Z.to_nat (i - (lo + 1)))) by lia.
        done.
    + intros (c' & Hlo & Hl & Hc).
      destruct (decide (i = lo)) as [->|Hne].
      * rewrite Z.sub_diag in Hl. simpl in Hl. simplify_eq.
        left. rewrite bool_decide_eq_true_2 by done.
        by apply list_elem_of_singleton.
      * right. exists c'. split; [lia|]. split; [|done].
        replace (Z.to_nat (i - lo)) with (S (Z.to_nat (i - (lo + 1)))) in Hl
          by lia.
        done.
Qed.

Lemma range_events_stop (p : positive) (cb : bool) (l pre : list Mix_Channel) :
  range_events (stop_step p) cb (pre ++ l) (length l) (Z.of_nat (length pre)) =
  EvStop <$> reverse (holders p (Z.of_nat (length pre)) l).
Proof.
  revert pre. induction l as [|c l IH]; intros pre; [done|].
  simpl. rewrite Nat2Z.id, lookup_app_r, Nat.sub_diag by lia. simpl.
  specialize (IH (pre ++ [c])).
  rewrite <- app_assoc, length_app in IH. simpl in IH.
  replace (Z.of_nat (length pre + 1)) with (Z.of_nat (length pre) + 1) in IH
    by lia.
  rewrite IH, reverse_app, fmap_app. f_equal.
  unfold stop_step. by case_bool_decide.
Qed.

Lemma stop_events_spec (p : positive) (cb : bool) (arr : list Mix_Channel) :
  range_events (stop_step p) cb arr (length arr) 0 = stop_events p arr.
Proof. exact (range_events_stop p cb arr []). Qed.

Lemma stop_step_fst (p : positive) (cb : bool) (i : Z) (c : Mix_Channel) :
  (stop_step p cb i c).1 =
  if bool_decide (chunk c = Some p) then set_looping 0 (set_playing 0 c) else c.
Proof. unfold stop_step. by case_bool_decide. Qed.

Lemma free_chunk_phases
    (s : mixer_state) (p : positive) (ck : Mix_Chunk) :
  heap s !! p = Some ck →
  (mix_channel s = None ∨
   ∃ arr, mix_channel s = Some arr ∧ num_channels s = Z.of_nat (length arr)) →
  ∃ s1 s2,
    stop_chunk_channels p s = Ok tt s1 ∧
    release_chunk p s1 = Ok tt s2 ∧
    Mix_FreeChunk (Some p) s = Ok tt s2 ∧
    heap s1 = heap s ∧
    trace s1 = stop_events p (default [] (mix_channel s)) ++ trace s ∧
    (∀ i c, channel_at s i = Some c →
       channel_at s1 i =
       Some (if bool_decide (chunk c = Some p)
             then set_looping 0 (set_playing 0 c) else c)) ∧
    (∀ i c1, channel_at s1 i = Some c1 → chunk c1 = Some p →
       playing c1 = 0 ∧ looping c1 = 0) ∧
    mix_channel s2 = mix_channel s1 ∧
    heap s2 = delete p (heap s) ∧
    trace s2 = free_events p ck ++ trace s1.
Proof.
  intros Hp Hbank.
  assert (Hstop : ∃ s1,
    stop_chunk_channels p s = Ok tt s1 ∧ heap s1 = heap s ∧
    trace s1 = stop_events p (default [] (mix_channel s)) ++ trace s ∧
    (∀ i c, channel_at s i = Some c →
       channel_at s1 i =
       Some (if bool_decide (chunk c = Some p)
             then set_looping 0 (set_playing 0 c) else c)) ∧
    (∀ i c1, channel_at s1 i = Some c1 →
       ∃ c, channel_at s i = Some c)).
  { destruct Hbank as [Hb|(arr & Hb & Hn)].
    - exists s. unfold stop_chunk_channels. munfold. rewrite Hb.
      rewrite bool_decide_eq_false_2 by (by intros []).
      repeat split; try done; unfold channel_at; rewrite Hb; done.
    - destruct (for_range_runs false _ _ (stop_if_chunk_runs p)
                  (Z.to_nat (num_channels s)) 0 s arr Hb)
        as (arr' & Hfor & Hlen & Hlk); [lia|lia|done|].
      rewrite Hn, Nat2Z.id, stop_events_spec in Hfor.
      eexists. unfold stop_chunk_channels, for_loop. munfold. rewrite Hb.
      rewrite bool_decide_eq_true_2 by done.
      rewrite Z.sub_0_r, Hn, Nat2Z.id, Hfor.
      split; [reflexivity|]. split; [reflexivity|]. split; [reflexivity|].
      split.
      + intros i c Hc. destruct (channel_at_Some _ _ _ Hc) as (a & Ha & Hi & Hl).
        simplify_eq. unfold channel_at. simpl.
        destruct (Z.leb_spec 0 i); [|lia].
        rewrite Hlk, bool_decide_eq_true_2 by lia. rewrite Hl. simpl.
        by rewrite stop_step_fst.
      + intros i c1 Hc1. unfold channel_at in *. simpl in Hc1. rewrite Hb.
        destruct (Z.leb_spec 0 i); [|done].
        apply lookup_lt_Some in Hc1. rewrite Hlen in Hc1.
        by apply lookup_lt_is_Some_2. }
  destruct Hstop as (s1 & Hs1 & Hh1 & Ht1 & Hch & Hback).
  exists s1. eexists.
  assert (Hrel : release_chunk p s1 = Ok tt
    (with_trace (free_events p ck ++ trace s1)
       (with_heap (delete p (heap s)) s1))).
  { unfold release_chunk, get_chunk, free_events. munfold. rewrite Hh1, Hp.
    destruct (allocated ck =? 0); simpl;
      unfold with_trace, with_heap; simpl; by rewrite Hh1. }
  split; [exact Hs1|]. split; [exact Hrel|]. split.
  { unfold Mix_FreeChunk. munfold. by rewrite Hs1. }
  split; [exact Hh1|]. split; [exact Ht1|]. split; [exact Hch|].
  split; [|done].
  intros i c1 Hc1 Hck. destruct (Hback i c1 Hc1) as [c Hc].
  rewrite (Hch i c Hc) in Hc1. simplify_eq.
  case_bool_decide as Hd; [done|].
  done.
Qed.

Lemma holders_bank (s : mixer_state) (p : positive) (i : Z) :
  i ∈ holders p 0 (default [] (mix_channel s)) ↔
  ∃ c, channel_at s i = Some c ∧ chunk c = Some p.
Proof.
  rewrite holders_spec. unfold channel_at.
  destruct (mix_channel s) as [arr|]; simpl.
  - rewrite Z.sub_0_r. split.
    + intros (c & Hi & Hl & Hc). exists c.
      by destruct (Z.leb_spec 0 i); [|lia].
    + intros (c & Hl & Hc). exists c.
      by destruct (Z.leb_spec 0 i); [|done].
  - split; [by intros (? & _ & ? & _)|by intros (? & ? & _)].
Qed.

(** C7.  Mix_FreeChunk records its stores and its calls of [free] in the
    order in which it makes them.  Read from the oldest event on, the trace
    it adds is: one stop for each channel that points to the chunk, in
    ascending order of the channels and for no other channel; then
    free(abuf), present exactly when the chunk's [allocated] flag is set;
    then free(chunk).  After the stops, and so before anything is freed,
    every channel that points to the chunk has [playing = 0] and
    [looping = 0], the other channels are as they were and the chunk is
    still in the heap. *)
Theorem free_chunk_stops_before_release
    (s : mixer_state) (p : positive) (ck : Mix_Chunk) :
  heap s !! p = Some ck →
  (mix_channel s = None ∨
   ∃ arr, mix_channel s = Some arr ∧ num_channels s = Z.of_nat (length arr)) →
  let held := holders p 0 (default [] (mix_channel s)) in
  ∃ s1 s2,
    stop_chunk_channels p s = Ok tt s1 ∧
    release_chunk p s1 = Ok tt s2 ∧
    Mix_FreeChunk (Some p) s = Ok tt s2 ∧
    (∀ i, i ∈ held ↔ ∃ c, channel_at s i = Some c ∧ chunk c = Some p) ∧
    trace s1 = (EvStop <$> reverse held) ++ trace s ∧
    trace s2 =
      EvFreeChunk p ::
      (if allocated ck =? 0 then [] else [EvFreeBuf (abuf ck)]) ++
      (EvStop <$> reverse held) ++ trace s ∧
    heap s1 = heap s ∧
    (∀ i c, channel_at s i = Some c →
       channel_at s1 i =
       Some (if bool_decide (chunk c = Some p)
             then set_looping 0 (set_playing 0 c) else c)) ∧
    (∀ i c1, channel_at s1 i = Some c1 → chunk c1 = Some p →
       playing c1 = 0 ∧ looping c1 = 0) ∧
    mix_channel s2 = mix_channel s1 ∧
    heap s2 = delete p (heap s).
Proof.
  intros Hp Hbank held.
  destruct (free_chunk_phases s p ck Hp Hbank)
    as (s1 & s2 & H1 & H2 & H3 & H4 & H5 & H6 & H7 & H8 & H9 & H10).
  exists s1, s2. split; [exact H1|]. split; [exact H2|]. split; [exact H3|].
  split; [intros i; apply holders_bank|].
  split; [exact H5|]. split.
  { rewrite H10, H5. reflexivity. }
  done.
Qed.

(** ** Resizing the bank *)

Lemma clear_fields_default (c : Mix_Channel) : is_default (clear_fields c).
Proof. by repeat split. Qed.

Lemma realloc_room (SIZE_MAX chan_size N : Z) :
  0 < chan_size → 0 ≤ N → N * chan_size ≤ SIZE_MAX →
  Z.to_nat (((N * chan_size) mod (SIZE_MAX + 1)) / chan_size) = Z.to_nat N.
Proof.
  intros Hc HN Hfit. rewrite Z.mod_small by nia.
  by rewrite Z.div_mul by lia.
Qed.

Lemma allocate_noop (SIZE_MAX chan_size : Z) (s : mixer_state) (N : Z)
    (memory : option (Z → Mix_Channel)) :
  N < 0 ∨ N = num_channels s →
  Mix_AllocateChannels SIZE_MAX chan_size N memory s = Ok (num_channels s) s.
Proof.
  intros H. unfold Mix_AllocateChannels. munfold.
  destruct (Z.ltb_spec N 0); [done|].
  destruct (Z.eqb_spec N (num_channels s)); [done|lia].
Qed.

Lemma allocate_shrink_any (SIZE_MAX chan_size : Z) (s : mixer_state)
    (arr : list Mix_Channel) (N : Z) (memory : option (Z → Mix_Channel)) :
  mix_channel s = Some arr →
  num_channels s = Z.of_nat (length arr) →
  0 ≤ N < num_channels s →
  ∃ arr_h,
    let s_h :=
      with_trace
        (range_events halt_step (channel_done_callback s) arr
           (Z.to_nat (num_channels s - N)) N ++ trace s)
        (with_mix_channel (Some arr_h) s) in
    for_loop N (num_channels s) Mix_HaltChannel_one s = Ok tt s_h ∧
    length arr_h = length arr ∧
    (∀ j : nat,
       arr_h !! j =
       if bool_decide (N ≤ Z.of_nat j < num_channels s)
       then halt_fields <$> arr !! j else arr !! j) ∧
    Mix_AllocateChannels SIZE_MAX chan_size N memory s =
      Ok N (with_num_channels N
              (with_mix_channel
                 (realloc_bank SIZE_MAX chan_size N memory (Some arr_h)) s_h)).
Proof.
  intros Hb Hn HN.
  destruct (for_range_runs true _ _ Mix_HaltChannel_one_runs
              (Z.to_nat (num_channels s - N)) N s arr Hb)
    as (arr_h & Hfor & Hlen & Hlk); [lia|lia|lia|].
  exists arr_h. cbn zeta. split; [exact Hfor|]. split; [exact Hlen|]. split.
  - intros j. rewrite Hlk.
    replace (N + Z.of_nat (Z.to_nat (num_channels s - N)))
      with (num_channels s) by lia.
    reflexivity.
  - unfold Mix_AllocateChannels. munfold.
    destruct (Z.ltb_spec N 0); [lia|].
    destruct (Z.eqb_spec N (num_channels s)); [lia|].
    destruct (Z.ltb_spec N (num_channels s)); [|lia].
    cbn [orb]. cbn beta iota. unfold for_loop. rewrite Hfor.
    destruct (Z.ltb_spec (num_channels s) N); [lia|].
    reflexivity.
Qed.

Lemma allocate_shrink (SIZE_MAX chan_size : Z) (s : mixer_state)
    (arr : list Mix_Channel) (N : Z) (junk : Z → Mix_Channel) :
  mix_channel s = Some arr →
  num_channels s = Z.of_nat (length arr) →
  0 < chan_size → N * chan_size ≤ SIZE_MAX →
  0 ≤ N < num_channels s →
  ∃ arr_h,
    let s_h :=
      with_trace
        (range_events halt_step (channel_done_callback s) arr
           (Z.to_nat (num_channels s - N)) N ++ trace s)
        (with_mix_channel (Some arr_h) s) in
    for_loop N (num_channels s) Mix_HaltChannel_one s = Ok tt s_h ∧
    length arr_h = length arr ∧
    (∀ j : nat,
       arr_h !! j =
       if bool_decide (N ≤ Z.of_nat j < num_channels s)
       then halt_fields <$> arr !! j else arr !! j) ∧
    Mix_AllocateChannels SIZE_MAX chan_size N (Some junk) s =
      Ok N (with_num_channels N
              (with_mix_channel (Some (take (Z.to_nat N) arr_h)) s_h)).
Proof.
  intros Hb Hn Hc Hfit HN.
  destruct (allocate_shrink_any SIZE_MAX chan_size s arr N (Some junk) Hb Hn HN)
    as (arr_h & Hfor & Hlen & Hlk & Ha).
  exists arr_h. cbn zeta in *.
  split; [exact Hfor|]. split; [exact Hlen|]. split; [exact Hlk|].
  rewrite Ha. f_equal. f_equal. f_equal.
  unfold realloc_bank. simpl.
  rewrite realloc_room by lia.
  replace (Z.to_nat N - length arr_h)%nat with 0%nat by lia.
  simpl. by rewrite app_nil_r.
Qed.

Lemma allocate_grow (SIZE_MAX chan_size : Z) (s : mixer_state)
    (arr : list Mix_Channel) (N : Z) (junk : Z → Mix_Channel) :
  default [] (mix_channel s) = arr →
  num_channels s = Z.of_nat (length arr) →
  0 < chan_size → N * chan_size ≤ SIZE_MAX →
  num_channels s < N →
  ∃ arr',
    Mix_AllocateChannels SIZE_MAX chan_size N (Some junk) s =
      Ok N (with_num_channels N (with_mix_channel (Some arr') s)) ∧
    Z.of_nat (length arr') = N ∧
    ∀ j : nat,
      arr' !! j =
      if bool_decide (Z.of_nat j < num_channels s) then arr !! j
      else if bool_decide (Z.of_nat j < N)
           then Some (clear_fields (junk (Z.of_nat j)))
           else None.
Proof.
  intros Hb Hn Hc Hfit HN.
  set (arr2 := take (Z.to_nat N) arr ++
               ((λ k, junk (Z.of_nat k)) <$>
                seq (length arr) (Z.to_nat N - length arr))).
  assert (Hre : realloc_bank SIZE_MAX chan_size N (Some junk) (mix_channel s)
                = Some arr2).
  { unfold realloc_bank. rewrite Hb. by rewrite realloc_room by lia. }
  assert (Hlen2 : Z.of_nat (length arr2) = N).
  { unfold arr2.
    rewrite length_app, length_fmap, length_seq, length_take. lia. }
  assert (Hlk2 : ∀ j : nat,
    arr2 !! j =
    if bool_decide (Z.of_nat j < num_channels s) then arr !! j
    else if bool_decide (Z.of_nat j < N) then Some (junk (Z.of_nat j))
         else None).
  { intros j. unfold arr2.
    rewrite take_ge by lia.
    case_bool_decide.
    - rewrite lookup_app_l by lia. reflexivity.
    - rewrite lookup_app_r by lia.
      rewrite list_lookup_fmap.
      case_bool_decide.
      + rewrite lookup_seq_lt by lia. simpl. f_equal. f_equal. lia.
      + rewrite lookup_seq_ge by lia. reflexivity. }
  set (s2 := with_mix_channel (Some arr2) s).
  destruct (for_range_runs false _ _ clear_channel_runs
              (Z.to_nat (N - num_channels s)) (num_channels s) s2 arr2)
    as (arr' & Hfor & Hlen & Hlk); [done|lia|lia|done|].
  rewrite range_events_silent in Hfor by done.
  exists arr'. split; [|split].
  - unfold Mix_AllocateChannels. munfold.
    destruct (Z.ltb_spec N 0); [lia|].
    destruct (Z.eqb_spec N (num_channels s)); [lia|].
    destruct (Z.ltb_spec N (num_channels s)); [lia|].
    cbn [orb]. cbn beta iota. rewrite Hre. fold s2.
    destruct (Z.ltb_spec (num_channels s) N); [|lia].
    unfold for_loop. rewrite Hfor. reflexivity.
  - lia.
  - intros j. rewrite Hlk, Hlk2.
    replace (num_channels s + Z.of_nat (Z.to_nat (N - num_channels s)))
      with N by lia.
    repeat case_bool_decide; (done || lia).
Qed.

(** Without memory the call that grows the bank stores NULL and then writes
    through it. *)
Lemma allocate_grow_without_memory (SIZE_MAX chan_size : Z) (s : mixer_state)
    (N : Z) :
  0 ≤ N → num_channels s < N →
  Mix_AllocateChannels SIZE_MAX chan_size N None s =
  Crash (OutOfBounds (num_channels s)).
Proof.
  intros HN Hgt. unfold Mix_AllocateChannels. munfold.
  destruct (Z.ltb_spec N 0); [lia|].
  destruct (Z.eqb_spec N (num_channels s)); [lia|].
  destruct (Z.ltb_spec N (num_channels s)); [lia|].
  simpl. destruct (Z.ltb_spec (num_channels s) N); [|lia].
  unfold for_loop.
  destruct (Z.to_nat (N - num_channels s)) as [|k] eqn:E; [lia|].
  simpl. unfold clear_channel. munfold. reflexivity.
Qed.

Lemma allocate_keeps_bank_ok (SIZE_MAX chan_size : Z) (s : mixer_state)
    (r : Z * option (Z → Mix_Channel)) :
  0 < chan_size →
  served SIZE_MAX chan_size r →
  bank_ok s →
  ∃ n s',
    Mix_AllocateChannels SIZE_MAX chan_size r.1 r.2 s = Ok n s' ∧ bank_ok s'.
Proof.
  destruct r as [N memory]. unfold served. simpl.
  intros Hc Hserved (arr & Hb & Hn).
  destruct (Z.lt_ge_cases N 0) as [Hneg|Hpos].
  { exists (num_channels s), s. split; [apply allocate_noop; lia|].
    by exists arr. }
  destruct Hserved as [?|[Hfit [junk ->]]]; [lia|].
  destruct (Z.lt_trichotomy N (num_channels s)) as [Hlt|[Heq|Hgt]].
  - destruct (allocate_shrink SIZE_MAX chan_size s arr N junk Hb Hn)
      as (arr_h & _ & Hlen & _ & Ha); [lia..|].
    eexists _, _. split; [exact Ha|].
    exists (take (Z.to_nat N) arr_h). split; [done|].
    simpl. rewrite length_take. lia.
  - exists (num_channels s), s. split; [apply allocate_noop; lia|].
    by exists arr.
  - destruct (allocate_grow SIZE_MAX chan_size s arr N junk)
      as (arr' & Ha & Hlen & _); [by rewrite Hb|lia..|].
    eexists _, _. split; [exact Ha|]. exists arr'. split; [done|].
    simpl. lia.
Qed.

Lemma allocate_many_keeps_bank_ok (SIZE_MAX chan_size : Z)
    (reqs : list (Z * option (Z → Mix_Channel))) (s : mixer_state) :
  0 < chan_size →
  Forall (served SIZE_MAX chan_size) reqs →
  bank_ok s →
  ∃ s', allocate_many SIZE_MAX chan_size reqs s = Ok tt s' ∧ bank_ok s'.
Proof.
  intros Hc Hreqs. revert s.
  induction Hreqs as [|r reqs Hr Hreqs IH]; intros s Hs.
  - by exists s.
  - destruct (allocate_keeps_bank_ok SIZE_MAX chan_size s r Hc Hr Hs)
      as (n & s1 & Ha & Hs1).
    destruct (IH s1 Hs1) as (s' & Hm & Hs').
    exists s'. split; [|done].
    simpl. munfold. by rewrite Ha.
Qed.

(** C8, amended.  After any sequence of resize requests that were served,
    for every [N >= 0] whose size fits [size_t] and for which realloc
    returns a block, Mix_AllocateChannels returns [N] and leaves a bank of
    exactly [N] channels: channels below the old count are kept, channels
    from the old count on are cleared to the defaults, and the channels of a
    removed range were halted before the array was cut.  For [N < 0] the
    call returns the current count and changes nothing. *)
Theorem allocate_channels_resizes
    (SIZE_MAX chan_size : Z) (s : mixer_state)
    (reqs : list (Z * option (Z → Mix_Channel)))
    (N : Z) (memory : option (Z → Mix_Channel)) :
  bank_ok s →
  0 < chan_size →
  Forall (served SIZE_MAX chan_size) reqs →
  ∃ s0,
    allocate_many SIZE_MAX chan_size reqs s = Ok tt s0 ∧
    bank_ok s0 ∧
    (N < 0 →
     Mix_AllocateChannels SIZE_MAX chan_size N memory s0 =
       Ok (num_channels s0) s0) ∧
    (0 ≤ N → N * chan_size ≤ SIZE_MAX → is_Some memory →
     ∃ s_h s',
       for_loop N (num_channels s0) Mix_HaltChannel_one s0 = Ok tt s_h ∧
       Mix_AllocateChannels SIZE_MAX chan_size N memory s0 = Ok N s' ∧
       bank_ok s' ∧
       num_channels s' = N ∧
       (∀ i, 0 ≤ i < N → i < num_channels s0 →
          channel_at s' i = channel_at s0 i) ∧
       (∀ i, num_channels s0 ≤ i < N →
          ∃ c, channel_at s' i = Some c ∧ is_default c) ∧
       (∀ i, N ≤ i → channel_at s' i = None) ∧
       (∀ i c, N ≤ i < num_channels s0 → channel_at s0 i = Some c →
          channel_at s_h i = Some (halt_fields c)) ∧
       (N ≤ num_channels s0 →
          mix_channel s' = take (Z.to_nat N) <$> mix_channel s_h) ∧
       trace s' = trace s_h).
Proof.
  intros Hs Hc Hreqs.
  destruct (allocate_many_keeps_bank_ok SIZE_MAX chan_size reqs s Hc Hreqs Hs)
    as (s0 & Hm & Hs0).
  exists s0. split; [exact Hm|]. split; [exact Hs0|]. split.
  { intros HN. apply allocate_noop. lia. }
  intros HN Hfit [junk ->].
  destruct Hs0 as (arr & Hb & Hn).
  assert (Hok0 : bank_ok s0) by (by exists arr).
  destruct (Z.lt_trichotomy N (num_channels s0)) as [Hlt|[Heq|Hgt]].
  - destruct (allocate_shrink SIZE_MAX chan_size s0 arr N junk Hb Hn)
      as (arr_h & Hfor & Hlen & Hlk & Ha); [lia..|].
    simpl in Hfor, Ha.
    eexists _, _. split; [exact Hfor|]. split; [exact Ha|]. split.
    { exists (take (Z.to_nat N) arr_h). split; [done|].
      simpl. rewrite length_take. lia. }
    split; [done|]. split.
    { intros i Hi Hi'. unfold channel_at. simpl. rewrite Hb.
      destruct (Z.leb_spec 0 i); [|lia].
      rewrite lookup_take_lt by lia.
      rewrite Hlk. by rewrite bool_decide_eq_false_2 by lia. }
    split; [intros i Hi; lia|]. split.
    { intros i Hi. unfold channel_at. simpl.
      destruct (Z.leb_spec 0 i); [|done].
      apply lookup_ge_None_2. rewrite length_take. lia. }
    split.
    { intros i c Hi Hc'. unfold channel_at in *. simpl. rewrite Hb in Hc'.
      destruct (Z.leb_spec 0 i); [|lia].
      rewrite Hlk, bool_decide_eq_true_2 by lia. by rewrite Hc'. }
    split; [done|done].
  - exists s0, s0. split.
    { unfold for_loop. rewrite Heq, Z.sub_diag. reflexivity. }
    split. { rewrite allocate_noop by lia. by rewrite Heq. }
    split; [exact Hok0|]. split; [done|]. split; [done|].
    split; [intros i Hi; lia|]. split.
    { intros i Hi. unfold channel_at. rewrite Hb.
      destruct (Z.leb_spec 0 i); [|done].
      apply lookup_ge_None_2. lia. }
    split; [intros i c Hi; lia|]. split; [|done].
    intros _. rewrite Hb. simpl. f_equal. rewrite take_ge; [done|lia].
  - destruct (allocate_grow SIZE_MAX chan_size s0 arr N junk)
      as (arr' & Ha & Hlen & Hlk); [by rewrite Hb|lia..|].
    exists s0. eexists. split.
    { unfold for_loop. by replace (Z.to_nat (num_channels s0 - N)) with 0%nat by lia. }
    split; [exact Ha|]. split.
    { exists arr'. split; [done|]. simpl. lia. }
    split; [done|]. split.
    { intros i Hi Hi'. unfold channel_at. simpl. rewrite Hb.
      destruct (Z.leb_spec 0 i); [|lia].
      rewrite Hlk. by rewrite bool_decide_eq_true_2 by lia. }
    split.
    { intros i Hi. exists (clear_fields (junk i)).
      split; [|apply clear_fields_default].
      unfold channel_at. simpl.
      destruct (Z.leb_spec 0 i); [|lia].
      rewrite Hlk. rewrite bool_decide_eq_false_2 by lia.
      rewrite bool_decide_eq_true_2 by lia. by rewrite Z2Nat.id by lia. }
    split.
    { intros i Hi. unfold channel_at. simpl.
      destruct (Z.leb_spec 0 i); [|done].
      apply lookup_ge_None_2. lia. }
    split; [intros i c Hi; lia|]. split; [lia|done].
Qed.

(** ** Counting in traces *)

Lemma done_count_app (i : Z) (t1 t2 : list event) :
  done_count i (t1 ++ t2) = (done_count i t1 + done_count i t2)%nat.
Proof. unfold done_count. by rewrite filter_app, length_app. Qed.

Lemma mixed_bytes_app (i : Z) (t1 t2 : list event) :
  mixed_bytes i (t1 ++ t2) = mixed_bytes i t1 + mixed_bytes i t2.
Proof.
  unfold mixed_bytes. induction t1 as [|e t1 IH]; simpl; [done|].
  rewrite IH. lia.
Qed.

Lemma done_count_cons (i : Z) (e : event) (t : list event) :
  done_count i (e :: t) =
  ((if is_done i e then 1 else 0) + done_count i t)%nat.
Proof.
  unfold done_count. rewrite filter_cons.
  destruct (is_done i e); by case_decide.
Qed.

Lemma done_count_done_events (i j : Z) (cb : bool) :
  done_count i (done_events cb j) = if cb && (i =? j) then 1%nat else 0%nat.
Proof.
  destruct cb; simpl; [|done].
  rewrite done_count_cons. simpl. by destruct (i =? j).
Qed.

Lemma on_channel_counts (i j : Z) (t : list event) :
  Forall (on_channel i) t → j ≠ i →
  done_count j t = 0%nat ∧ mixed_bytes j t = 0.
Proof.
  intros Ht Hne. induction Ht as [|e t He Ht IH]; [done|].
  destruct IH as [IH1 IH2]. rewrite done_count_cons, IH1.
  unfold mixed_bytes in *. simpl. rewrite IH2.
  destruct e; simpl in *; try done; subst;
    by destruct (Z.eqb_spec j i).
Qed.

Lemma on_channel_done_events (cb : bool) (i : Z) :
  Forall (on_channel i) (done_events cb i).
Proof. destruct cb; simpl; repeat constructor. Qed.

(** ** What the inner loops leave alone *)

Lemma same_static_refl (c : Mix_Channel) : same_static c c.
Proof. by repeat split. Qed.

Lemma same_static_trans (c1 c2 c3 : Mix_Channel) :
  same_static c1 c2 → same_static c2 c3 → same_static c1 c3.
Proof. unfold same_static. intros ? ?. intuition congruence. Qed.

Lemma chunk_of_static (hp : gmap positive Mix_Chunk) (c c' : Mix_Channel) :
  same_static c c' → chunk_of hp c' = chunk_of hp c.
Proof. intros (H & _). unfold chunk_of. by rewrite H. Qed.

Lemma mix_pass_frame (fuel : nat) (cb : bool) (hp : gmap positive Mix_Chunk)
    (i len : Z) (k k' : cursor) :
  mix_pass fuel cb hp i len k = inl k' →
  same_static (cur_chan k) (cur_chan k') ∧
  (Forall (on_channel i) (cur_events k) → Forall (on_channel i) (cur_events k')) ∧
  (0 < playing (cur_chan k') → 0 < playing (cur_chan k)).
Proof.
  revert k. induction fuel as [|fuel IH]; intros k; simpl.
  - destruct (_ && _); [done|]. intros [= <-].
    split; [apply same_static_refl|done].
  - destruct (Z.ltb_spec 0 (playing (cur_chan k))); simpl;
      [|intros [= <-]; split; [apply same_static_refl|done]].
    destruct (cur_index k <? len);
      [|intros [= <-]; split; [apply same_static_refl|done]].
    destruct (chunk_of hp (cur_chan k)) as [ck|]; [|done].
    intros H'. apply IH in H'. simpl in H'.
    destruct H' as (Hs & Hev & Hpl). split; [|split].
    + eapply same_static_trans; [|exact Hs]. by repeat split.
    + intros Hk. apply Hev. apply Forall_app. split.
      * destruct (_ && _); [apply on_channel_done_events|constructor].
      * constructor; [done|exact Hk].
    + done.
Qed.

Lemma mix_wrap_frame (fuel : nat) (hp : gmap positive Mix_Chunk)
    (i len : Z) (k k' : cursor) :
  mix_wrap fuel hp i len k = inl k' →
  same_static (cur_chan k) (cur_chan k') ∧
  (Forall (on_channel i) (cur_events k) → Forall (on_channel i) (cur_events k')).
Proof.
  revert k. induction fuel as [|fuel IH]; intros k; simpl.
  - destruct (_ && _); [done|]. intros [= <-].
    split; [apply same_static_refl|done].
  - destruct (negb _ && _);
      [|intros [= <-]; split; [apply same_static_refl|done]].
    destruct (chunk_of hp (cur_chan k)) as [ck|]; [|done].
    intros H'. apply IH in H'. simpl in H'.
    destruct H' as (Hs & Hev). split.
    + eapply same_static_trans; [|exact Hs].
      destruct (0 <? looping (cur_chan k)); by repeat split.
    + intros Hk. apply Hev. constructor; [done|exact Hk].
Qed.

Lemma mix_rewind_frame (hp : gmap positive Mix_Chunk) (k k' : cursor) :
  mix_rewind hp k = inl k' →
  same_static (cur_chan k) (cur_chan k') ∧ cur_events k' = cur_events k ∧
  cur_index k' = cur_index k.
Proof.
  unfold mix_rewind.
  destruct (_ && _); [|intros [= <-]; split; [apply same_static_refl|done]].
  destruct (chunk_of hp (cur_chan k)) as [ck|]; [|done].
  intros [= <-]. simpl. split; [|done].
  destruct (0 <? looping (cur_chan k)); by repeat split.
Qed.

(** ** Channels the callback can process *)

Lemma vf_chunk (v : Z) (c : Mix_Channel) : chunk (volume_fields v c) = chunk c.
Proof. unfold volume_fields. by destruct (0 <=? v). Qed.
Lemma vf_playing (v : Z) (c : Mix_Channel) : playing (volume_fields v c) = playing c.
Proof. unfold volume_fields. by destruct (0 <=? v). Qed.
Lemma vf_looping (v : Z) (c : Mix_Channel) : looping (volume_fields v c) = looping c.
Proof. unfold volume_fields. by destruct (0 <=? v). Qed.
Lemma vf_paused (v : Z) (c : Mix_Channel) : paused (volume_fields v c) = paused c.
Proof. unfold volume_fields. by destruct (0 <=? v). Qed.
Lemma vf_expire (v : Z) (c : Mix_Channel) : expire (volume_fields v c) = expire c.
Proof. unfold volume_fields. by destruct (0 <=? v). Qed.
Lemma vf_fading (v : Z) (c : Mix_Channel) : fading (volume_fields v c) = fading c.
Proof. unfold volume_fields. by destruct (0 <=? v). Qed.
Lemma vf_fade_length (v : Z) (c : Mix_Channel) :
  fade_length (volume_fields v c) = fade_length c.
Proof. unfold volume_fields. by destruct (0 <=? v). Qed.

Lemma vf_volume (v : Z) (c : Mix_Channel) :
  0 ≤ v ≤ SDL_MIX_MAXVOLUME → volume (volume_fields v c) = v.
Proof.
  intros H. unfold volume_fields.
  destruct (Z.leb_spec 0 v); [|lia]. simpl.
  by destruct (Z.ltb_spec SDL_MIX_MAXVOLUME v); [lia|].
Qed.

Ltac vf_simpl :=
  simpl;
  rewrite ?vf_chunk, ?vf_playing, ?vf_looping, ?vf_paused, ?vf_expire,
    ?vf_fading, ?vf_fade_length.

Lemma fade_step_frame (cb : bool) (hp : gmap positive Mix_Chunk)
    (i now : Z) (c : Mix_Channel) :
  chan_ok hp c →
  ∃ c1 evs,
    fade_step cb i now c = inl (c1, evs) ∧
    chunk c1 = chunk c ∧
    paused c1 = paused c ∧
    (playing c1 = playing c ∧ looping c1 = looping c ∨
     playing c1 = 0 ∧ looping c1 = 0) ∧
    (fading c1 = fading c ∧ fade_length c1 = fade_length c ∨
     fading c1 = MIX_NO_FADING) ∧
    Forall (on_channel i) evs.
Proof.
  intros [_ Hf]. unfold fade_step.
  destruct (_ && _).
  { eexists _, _. split; [done|]. vf_simpl.
    repeat split; auto using on_channel_done_events. }
  destruct (decide (fading c = MIX_NO_FADING)) as [E|E].
  { eexists _, _. split; [done|]. repeat split; auto. }
  destruct (fade_length c <? to_u32 (now - ticks_fade c)).
  { destruct (fading c) eqn:Ef; [done| |];
      (eexists _, _; split; [done|]); vf_simpl;
      repeat split; auto using on_channel_done_events. }
  destruct (Z.eqb_spec (fade_length c) 0) as [E0|E0]; [by apply Hf in E0|].
  destruct (fading c) eqn:Ef; [done| |];
    (eexists _, _; split; [done|]); vf_simpl;
    repeat split; auto.
Qed.

Lemma chan_ok_chunk_of (hp : gmap positive Mix_Chunk) (c : Mix_Channel) :
  chan_ok hp c → 0 < playing c →
  ∃ ck, chunk_of hp c = inl ck ∧ 0 < alen ck ≤ INT_MAX.
Proof.
  intros [Hp _] Hpl. destruct (Hp Hpl) as (p & ck & Hc & Hh & Hl).
  exists ck. unfold chunk_of. by rewrite Hc, Hh.
Qed.

(** The first loop runs its body at most once: afterwards the channel is
    exhausted or the buffer is full. *)
Lemma mix_pass_spec (fuel : nat) (cb : bool) (hp : gmap positive Mix_Chunk)
    (i len : Z) (k : cursor) (ck : Mix_Chunk) :
  chunk_of hp (cur_chan k) = inl ck →
  0 < playing (cur_chan k) →
  (cur_index k < len → (0 < fuel)%nat) →
  mix_pass fuel cb hp i len k =
  inl (if cur_index k <? len then pass_step cb i len ck k else k).
Proof.
  intros Hck Hpl Hfuel.
  destruct (Z.ltb_spec (cur_index k) len) as [Hidx|Hidx].
  - destruct fuel as [|fuel]; [specialize (Hfuel Hidx); lia|].
    simpl. destruct (Z.ltb_spec 0 (playing (cur_chan k))); [|lia].
    destruct (Z.ltb_spec (cur_index k) len); [|lia]. simpl. rewrite Hck.
    set (mixable := Z.min (len - cur_index k) (playing (cur_chan k))).
    assert (Hm : (if len - cur_index k <? playing (cur_chan k)
                  then len - cur_index k else playing (cur_chan k)) = mixable).
    { unfold mixable.
      destruct (Z.ltb_spec (len - cur_index k) (playing (cur_chan k))); lia. }
    rewrite Hm. unfold pass_step. fold mixable.
    destruct fuel; simpl;
      destruct (Z.ltb_spec 0 (playing (cur_chan k) - mixable));
      destruct (Z.ltb_spec (cur_index k + mixable) len); simpl; try done;
      unfold mixable in *; lia.
  - destruct fuel; simpl;
      destruct (0 <? playing (cur_chan k)); simpl;
      destruct (Z.ltb_spec (cur_index k) len); try lia; done.
Qed.

(** With a chunk of positive length the second loop ends. *)
Lemma mix_wrap_total (fuel : nat) (hp : gmap positive Mix_Chunk)
    (i len : Z) (k : cursor) (ck : Mix_Chunk) :
  chunk_of hp (cur_chan k) = inl ck →
  0 < alen ck ≤ INT_MAX →
  len - cur_index k < Z.of_nat fuel →
  ∃ k', mix_wrap fuel hp i len k = inl k'.
Proof.
  intros Hck Hlen. revert k Hck.
  induction fuel as [|fuel IH]; intros k Hck Hfuel; simpl.
  - destruct (negb _); simpl; [|by eexists].
    destruct (Z.ltb_spec (cur_index k) len); [lia|by eexists].
  - destruct (negb _); simpl; [|by eexists].
    destruct (Z.ltb_spec (cur_index k) len); [|by eexists].
    rewrite Hck. rewrite !(to_int_id (alen ck)) by (unfold INT_MAX in *; lia).
    apply IH; simpl.
    + unfold chunk_of in *. simpl.
      by destruct (0 <? looping (cur_chan k)).
    + destruct (Z.ltb_spec (alen ck) (len - cur_index k)); lia.
Qed.

Lemma mix_block_frame (fuel : nat) (cb : bool) (hp : gmap positive Mix_Chunk)
    (i now len vol : Z) (c : Mix_Channel) (k : cursor) :
  chan_ok hp c →
  mix_block fuel cb hp i now len vol c = inl k →
  chunk (cur_chan k) = chunk c ∧
  paused (cur_chan k) = paused c ∧
  (0 < playing (cur_chan k) → 0 < playing c) ∧
  (fading (cur_chan k) ≠ MIX_NO_FADING →
   fading (cur_chan k) = fading c ∧ fade_length (cur_chan k) = fade_length c) ∧
  Forall (on_channel i) (cur_events k).
Proof.
  intros Hok. unfold mix_block.
  destruct (paused c =? 0); [|intros [= <-]; by repeat split].
  destruct (fade_step_frame cb hp i now c Hok)
    as (c1 & evs & -> & Hch & Hpa & Hpl & Hfa & Hev).
  destruct (Z.ltb_spec 0 (playing c1)).
  - destruct (mix_pass _ _ _ _ _ _) as [k1|] eqn:H1; [|done].
    destruct (mix_wrap _ _ _ _ _) as [k2|] eqn:H2; [|done].
    intros H3.
    apply mix_pass_frame in H1 as (S1 & E1 & _).
    apply mix_wrap_frame in H2 as (S2 & E2).
    apply mix_rewind_frame in H3 as (S3 & E3 & _).
    pose proof (same_static_trans _ _ _ (same_static_trans _ _ _ S1 S2) S3)
      as (Sc & Sp & _ & _ & _ & _ & Sf & _ & _ & Sl & _).
    simpl in *. rewrite Sc, Sp, Sf, Sl, E3.
    split; [done|]. split; [done|]. split.
    { intros _. destruct Hpl as [[E _]|[E _]]; lia. }
    split; [|auto].
    intros Hne. destruct Hfa as [[-> ->]|E]; [done|]. by rewrite E in Hne.
  - intros [= <-]. simpl. split; [done|]. split; [done|]. split; [lia|].
    split; [|done].
    intros Hne. destruct Hfa as [[-> ->]|E]; [done|]. by rewrite E in Hne.
Qed.

Lemma mix_block_ok (fuel : nat) (cb : bool) (hp : gmap positive Mix_Chunk)
    (i now len vol : Z) (c : Mix_Channel) (k : cursor) :
  chan_ok hp c →
  mix_block fuel cb hp i now len vol c = inl k →
  chan_ok hp (cur_chan k).
Proof.
  intros Hok Hk.
  destruct (mix_block_frame _ _ _ _ _ _ _ _ _ Hok Hk) as (Hc & _ & Hp & Hf & _).
  destruct Hok as [Hok1 Hok2]. split.
  - intros Hpl. rewrite Hc. auto.
  - intros Hne. destruct (Hf Hne) as [E1 E2]. rewrite E2. apply Hok2.
    by rewrite <- E1.
Qed.

Lemma mix_block_total (fuel : nat) (cb : bool) (hp : gmap positive Mix_Chunk)
    (i now len vol : Z) (c : Mix_Channel) :
  chan_ok hp c →
  len < Z.of_nat fuel →
  ∃ k, mix_block fuel cb hp i now len vol c = inl k.
Proof.
  intros Hok Hfuel. unfold mix_block.
  destruct (paused c =? 0); [|by eexists].
  destruct (fade_step_frame cb hp i now c Hok)
    as (c1 & evs & -> & Hch & _ & Hpl & _ & _).
  destruct (Z.ltb_spec 0 (playing c1)); [|by eexists].
  assert (Hpc : 0 < playing c) by (destruct Hpl as [[E _]|[E _]]; lia).
  destruct (chan_ok_chunk_of hp c Hok Hpc) as (ck & Hck & Hlen).
  assert (Hck1 : chunk_of hp c1 = inl ck).
  { unfold chunk_of in *. by rewrite Hch. }
  rewrite (mix_pass_spec fuel cb hp i len _ ck) by (simpl; done || lia).
  simpl.
  match goal with
  | |- context [mix_wrap fuel hp i len ?k1] =>
      destruct (mix_wrap_total fuel hp i len k1 ck) as (k2 & H2)
  end.
  { destruct (0 <? len); [|done]. unfold chunk_of in *. simpl. by rewrite Hch. }
  { done. }
  { destruct (Z.ltb_spec 0 len); simpl; lia. }
  rewrite H2.
  pose proof (mix_wrap_frame _ _ _ _ _ _ H2) as (S2 & _).
  unfold mix_rewind. destruct (_ && _); [|by eexists].
  rewrite (chunk_of_static hp _ _ S2).
  assert (Hck2 : ∀ b : bool,
    chunk_of hp (cur_chan (if b then
      pass_step cb i len ck
        {| cur_index := 0; cur_volume := vol; cur_chan := c1; cur_events := evs |}
      else {| cur_index := 0; cur_volume := vol; cur_chan := c1; cur_events := evs |}))
    = inl ck).
  { intros []; [|done]. unfold chunk_of in *. simpl. by rewrite Hch. }
  rewrite Hck2. by eexists.
Qed.

(** ** The channel loop of the callback *)

Lemma mix_loop_spec (fuel : nat) (now len : Z) :
  ∀ (n : nat) (lo vol : Z) (s : mixer_state) (arr : list Mix_Channel),
    mix_channel s = Some arr →
    0 ≤ lo →
    lo + Z.of_nat n ≤ Z.of_nat (length arr) →
    Forall (chan_ok (heap s)) arr →
    len < Z.of_nat fuel →
    ∃ vol' arr' evs,
      mix_loop n fuel now len lo vol s =
        Ok vol' (with_trace (evs ++ trace s) (with_mix_channel (Some arr') s)) ∧
      length arr' = length arr ∧
      Forall (chan_ok (heap s)) arr' ∧
      (∀ j : Z, ¬ (lo ≤ j < lo + Z.of_nat n) →
         done_count j evs = 0%nat ∧ mixed_bytes j evs = 0) ∧
      (∀ j : nat, ¬ (lo ≤ Z.of_nat j < lo + Z.of_nat n) → arr' !! j = arr !! j) ∧
      (∀ (j : nat) (c : Mix_Channel),
         lo ≤ Z.of_nat j < lo + Z.of_nat n → arr !! j = Some c →
         ∃ v k,
           mix_block fuel (channel_done_callback s) (heap s) (Z.of_nat j)
             now len v c = inl k ∧
           arr' !! j = Some (cur_chan k) ∧
           done_count (Z.of_nat j) evs = done_count (Z.of_nat j) (cur_events k) ∧
           mixed_bytes (Z.of_nat j) evs = mixed_bytes (Z.of_nat j) (cur_events k)).
Proof.
  induction n as [|n IH]; intros lo vol s arr Hb Hlo Hlen Hok Hfuel.
  - exists vol, arr, []. split.
    { simpl. munfold. f_equal. destruct s; simpl in *. by subst. }
    split; [done|]. split; [done|]. split; [done|]. split; [done|].
    intros j c Hj. lia.
  - destruct (lookup_lt_is_Some_2 arr (Z.to_nat lo)) as [c Hc]; [lia|].
    assert (Hat : channel_at s lo = Some c).
    { unfold channel_at. rewrite Hb. by destruct (Z.leb_spec 0 lo); [|lia]. }
    assert (Hokc : chan_ok (heap s) c).
    { eapply Forall_lookup_1; [exact Hok|exact Hc]. }
    destruct (mix_block_total fuel (channel_done_callback s) (heap s)
                lo now len vol c Hokc Hfuel) as (k & Hk).
    pose proof (mix_block_ok _ _ _ _ _ _ _ _ _ Hokc Hk) as Hokk.
    pose proof (mix_block_frame _ _ _ _ _ _ _ _ _ Hokc Hk) as (_ & _ & _ & _ & Hown).
    set (arr1 := <[Z.to_nat lo := cur_chan k]> arr).
    set (s1 := with_trace (cur_events k ++ trace s)
                 (with_mix_channel (Some arr1) s)).
    destruct (IH (lo + 1) (cur_volume k) s1 arr1)
      as (vol' & arr' & evs & Hloop & Hlen' & Hok' & Hout & Hkeep & Hin).
    { done. }
    { lia. }
    { unfold arr1. rewrite length_insert. lia. }
    { simpl. unfold arr1. apply Forall_insert; done. }
    { done. }
    exists vol', arr', (evs ++ cur_events k). split.
    { simpl. munfold. rewrite get_channel_at, Hat, Hk.
      rewrite (put_channel_at _ _ c s arr) by done.
      fold arr1. simpl.
      fold s1. rewrite Hloop. f_equal.
      unfold with_trace, with_mix_channel. simpl. f_equal.
      by rewrite app_assoc. }
    split. { rewrite Hlen'. unfold arr1. by rewrite length_insert. }
    split; [exact Hok'|]. split.
    { intros j Hj. rewrite done_count_app, mixed_bytes_app.
      destruct (Hout j) as [-> ->]; [lia|].
      destruct (on_channel_counts lo j (cur_events k) Hown) as [-> ->]; [lia|].
      done. }
    split.
    { intros j Hj. rewrite Hkeep by lia.
      unfold arr1. apply list_lookup_insert_ne. lia. }
    intros j cj Hj Hcj.
    destruct (decide (j = Z.to_nat lo)) as [->|Hne].
    + rewrite Z2Nat.id by lia. simplify_eq.
      exists vol, k. split; [done|]. split.
      { rewrite Hkeep by lia. unfold arr1. apply list_lookup_insert_eq. lia. }
      rewrite done_count_app, mixed_bytes_app.
      destruct (Hout lo) as [-> ->]; [lia|]. done.
    + destruct (Hin j cj) as (v & kj & Hkj & Hlk & Hd & Hm).
      { lia. }
      { unfold arr1. rewrite list_lookup_insert_ne by done. done. }
      exists v, kj. split; [exact Hkj|]. split; [exact Hlk|].
      rewrite done_count_app, mixed_bytes_app, Hd, Hm.
      destruct (on_channel_counts lo (Z.of_nat j) (cur_events k) Hown)
        as [-> ->]; [lia|].
      split; lia.
Qed.

Lemma same_globals_refl (s : mixer_state) : same_globals s s.
Proof. by repeat split. Qed.

Lemma same_globals_trans (s1 s2 s3 : mixer_state) :
  same_globals s1 s2 → same_globals s2 s3 → same_globals s1 s3.
Proof. unfold same_globals. intros ? ?. intuition congruence. Qed.

(** One call of the callback on a well-formed state returns, keeps the
    state well formed, and treats every channel by [mix_block]. *)
Lemma mix_channels_spec (fuel : nat) (now len : Z) (s : mixer_state) :
  wf s →
  len < Z.of_nat fuel →
  ∃ s',
    mix_channels fuel now len s = Ok tt s' ∧
    wf s' ∧
    same_globals s s' ∧
    (∀ i, channel_at s i = None → channel_at s' i = None) ∧
    (∀ i c,
       channel_at s i = Some c →
       ∃ v k,
         mix_block fuel (channel_done_callback s) (heap s) i now len v c
           = inl k ∧
         channel_at s' i = Some (cur_chan k) ∧
         done_count i (trace s') =
           (done_count i (cur_events k) + done_count i (trace s))%nat ∧
         mixed_bytes i (trace s') =
           mixed_bytes i (cur_events k) + mixed_bytes i (trace s)).
Proof.
  intros (arr & Hb & Hn & Hok) Hfuel.
  assert (Hpre0 : ∃ pre,
    (∀ j, done_count j pre = 0%nat ∧ mixed_bytes j pre = 0) ∧
    mix_music_bus len s = Ok tt (with_trace (pre ++ trace s) s)).
  { unfold mix_music_bus. munfold. simpl. destruct (music_on s).
    - exists [EvMusic len; EvSilence len]. split; [|reflexivity].
      intros j. rewrite !done_count_cons. by split.
    - exists [EvSilence len]. split; [|reflexivity].
      intros j. rewrite !done_count_cons. by split. }
  destruct Hpre0 as (pre & Hpre & Hemit).
  set (s0 := with_trace (pre ++ trace s) s).
  destruct (mix_loop_spec fuel now len (Z.to_nat (num_channels s)) 0
              SDL_MIX_MAXVOLUME s0 arr)
    as (vol' & arr' & evs & Hloop & Hlen' & Hok' & Hout & Hkeep & Hin);
    [done|lia|lia|done|done|].
  set (post := if bool_decide (posteffects s ≠ []) then [EvPost len (posteffects s)] else []).
  exists (with_trace (post ++ evs ++ pre ++ trace s) (with_mix_channel (Some arr') s)).
  assert (Hpost : ∀ j, done_count j post = 0%nat ∧ mixed_bytes j post = 0).
  { intros j. unfold post. case_bool_decide; [|done].
    rewrite !done_count_cons. by split. }
  split.
  { unfold mix_channels. munfold. rewrite Hemit. fold s0.
    replace (num_channels s0) with (num_channels s) by reflexivity.
    rewrite Hloop. simpl.
    unfold post. case_bool_decide; simpl; f_equal. }
  split.
  { exists arr'. split; [done|]. split; [simpl; lia|done]. }
  split; [by repeat split|]. split.
  { intros i. unfold channel_at. simpl. rewrite Hb.
    destruct (Z.leb_spec 0 i); [|done].
    intros Hnone. apply lookup_ge_None in Hnone.
    apply lookup_ge_None. lia. }
  intros i c Hc. destruct (channel_at_Some _ _ _ Hc) as (a & Ha & Hi & Hl).
  simplify_eq.
  destruct (Hin (Z.to_nat i) c) as (v & k & Hk & Hlk & Hd & Hm); [lia|done|].
  rewrite Z2Nat.id in * by lia.
  exists v, k. split; [exact Hk|]. split.
  { unfold channel_at. simpl. by destruct (Z.leb_spec 0 i); [|lia]. }
  simpl. rewrite !done_count_app, !mixed_bytes_app, Hd, Hm.
  destruct (Hpre i) as [-> ->]. destruct (Hpost i) as [-> ->].
  split; lia.
Qed.

(** ** Counting the bytes of a looping channel *)

Lemma mixed_bytes_cons (i : Z) (e : event) (t : list event) :
  mixed_bytes i (e :: t) = mixed_len i e + mixed_bytes i t.
Proof. reflexivity. Qed.

#[local] Arguments mixed_bytes : simpl never.
#[local] Arguments done_count : simpl never.

Lemma mix_wrap_stop (fuel : nat) (hp : gmap positive Mix_Chunk)
    (i len : Z) (k : cursor) :
  looping (cur_chan k) = 0 ∨ len ≤ cur_index k →
  mix_wrap fuel hp i len k = inl k.
Proof.
  intros H. destruct fuel; simpl;
    destruct (Z.eqb_spec (looping (cur_chan k)) 0); simpl; try done;
    destruct (Z.ltb_spec (cur_index k) len); try done; lia.
Qed.

(** With a finite loop count the second loop keeps
    [playing + L * looping + bytes mixed] constant. *)
Lemma mix_wrap_finite (hp : gmap positive Mix_Chunk) (i len L : Z)
    (ck : Mix_Chunk) (fuel : nat) :
  alen ck = L → 0 < L ≤ INT_MAX →
  ∀ k k' : cursor,
    mix_wrap fuel hp i len k = inl k' →
    chunk_of hp (cur_chan k) = inl ck →
    0 ≤ looping (cur_chan k) →
    0 ≤ playing (cur_chan k) ≤ L →
    cur_index k ≤ len →
    (cur_index k = len ∨ playing (cur_chan k) = 0) →
    cur_index k ≤ cur_index k' ≤ len ∧
    (cur_index k' = len ∨
     looping (cur_chan k') = 0 ∧ playing (cur_chan k') = 0) ∧
    0 ≤ looping (cur_chan k') ∧
    0 ≤ playing (cur_chan k') ≤ L ∧
    playing (cur_chan k') + L * looping (cur_chan k') +
      (cur_index k' - cur_index k) =
      playing (cur_chan k) + L * looping (cur_chan k) ∧
    mixed_bytes i (cur_events k') =
      (cur_index k' - cur_index k) + mixed_bytes i (cur_events k) ∧
    done_count i (cur_events k') = done_count i (cur_events k).
Proof.
  intros HL HLr. induction fuel as [|fuel IH]; intros k k'; simpl.
  - destruct (Z.eqb_spec (looping (cur_chan k)) 0) as [E|E]; simpl.
    + intros [= <-] _ ? ? ? Hor. repeat split; lia.
    + destruct (Z.ltb_spec (cur_index k) len); [done|].
      intros [= <-] _ ? ? ? Hor. repeat split; lia.
  - destruct (Z.eqb_spec (looping (cur_chan k)) 0) as [E|E]; simpl.
    + intros [= <-] _ ? ? ? Hor. repeat split; lia.
    + destruct (Z.ltb_spec (cur_index k) len) as [Hlt|Hge].
      2:{ intros [= <-] _ ? ? ? Hor. repeat split; lia. }
      intros Hw Hck Hlo Hpl Hidx Hor. rewrite Hck in Hw.
      rewrite HL in Hw.
      rewrite (to_int_id L) in Hw by (unfold INT_MAX in *; lia).
      assert (Hp0 : playing (cur_chan k) = 0) by (destruct Hor; lia).
      destruct (Z.ltb_spec 0 (looping (cur_chan k))) as [Hpos|]; [|lia].
      assert (Hrem : ∀ r, 0 ≤ r ≤ L → to_int (L - r) = L - r).
      { intros r Hr. apply to_int_id. unfold INT_MAX in *. lia. }
      destruct (Z.ltb_spec L (len - cur_index k));
        rewrite Hrem in Hw by lia.
      all: apply IH in Hw; simpl in *.
      all: try (unfold chunk_of in *; exact Hck).
      all: try lia.
      all: destruct Hw as (H1 & H2 & H3 & H4 & H5 & H6 & H7);
        rewrite H7, H6, mixed_bytes_cons, done_count_cons; simpl;
        rewrite Z.eqb_refl;
        (split; [lia|]); (split; [exact H2|]); (split; [exact H3|]);
        (split; [exact H4|]); (split; [lia|]); split; lia.
Qed.

(** With a negative loop count (the sentinel -1) the second loop fills the
    buffer and never touches the count. *)
Lemma mix_wrap_forever (hp : gmap positive Mix_Chunk) (i len L : Z)
    (ck : Mix_Chunk) (fuel : nat) :
  alen ck = L → 0 < L ≤ INT_MAX →
  ∀ k k' : cursor,
    mix_wrap fuel hp i len k = inl k' →
    chunk_of hp (cur_chan k) = inl ck →
    looping (cur_chan k) < 0 →
    0 ≤ playing (cur_chan k) ≤ L →
    cur_index k ≤ len →
    cur_index k' = len ∧
    looping (cur_chan k') = looping (cur_chan k) ∧
    0 ≤ playing (cur_chan k') ≤ L ∧
    mixed_bytes i (cur_events k') =
      (len - cur_index k) + mixed_bytes i (cur_events k).
Proof.
  intros HL HLr. induction fuel as [|fuel IH]; intros k k'; simpl.
  - destruct (Z.eqb_spec (looping (cur_chan k)) 0) as [E|E]; simpl.
    + intros _ _ ?. lia.
    + destruct (Z.ltb_spec (cur_index k) len); [done|].
      intros [= <-] _ ? ? ?. repeat split; lia.
  - destruct (Z.eqb_spec (looping (cur_chan k)) 0) as [E|E]; simpl.
    + intros _ _ ?. lia.
    + destruct (Z.ltb_spec (cur_index k) len) as [Hlt|Hge].
      2:{ intros [= <-] _ ? ? ?. repeat split; lia. }
      intros Hw Hck Hlo Hpl Hidx. rewrite Hck in Hw.
      rewrite HL in Hw.
      rewrite (to_int_id L) in Hw by (unfold INT_MAX in *; lia).
      destruct (Z.ltb_spec 0 (looping (cur_chan k))) as [|Hneg]; [lia|].
      assert (Hrem : ∀ r, 0 ≤ r ≤ L → to_int (L - r) = L - r).
      { intros r Hr. apply to_int_id. unfold INT_MAX in *. lia. }
      destruct (Z.ltb_spec L (len - cur_index k));
        rewrite Hrem in Hw by lia.
      all: apply IH in Hw; simpl in *.
      all: try (unfold chunk_of in *; exact Hck).
      all: try lia.
      all: destruct Hw as (H1 & H2 & H3 & H4);
        rewrite H4, mixed_bytes_cons; simpl; rewrite Z.eqb_refl;
        repeat split; lia.
Qed.

(** ** A channel that just plays *)

Lemma plain_chan_ok (hp : gmap positive Mix_Chunk) (p : positive) (L : Z)
    (c : Mix_Channel) :
  plain hp p L c → chan_ok hp c.
Proof.
  intros (_ & _ & Hf & Hc & ck & Hh & HL & HLr). split.
  - intros _. exists p, ck. by rewrite HL.
  - by rewrite Hf.
Qed.

Lemma plain_static (hp : gmap positive Mix_Chunk) (p : positive) (L : Z)
    (c c' : Mix_Channel) :
  same_static c c' → plain hp p L c → plain hp p L c'.
Proof.
  intros (Sc & Sp & _ & _ & Se & _ & Sf & _) (H1 & H2 & H3 & H4 & H5).
  unfold plain. by rewrite Sc, Sp, Se, Sf.
Qed.

(** The body of the channel loop on a plain channel that is playing. *)
Lemma plain_block (fuel : nat) (cb : bool) (hp : gmap positive Mix_Chunk)
    (i now len vol : Z) (p : positive) (L : Z) (c : Mix_Channel) :
  plain hp p L c → 0 < playing c →
  mix_block fuel cb hp i now len vol c =
  match
    mix_pass fuel cb hp i len
      {| cur_index := 0; cur_volume := vol; cur_chan := c; cur_events := [] |}
  with
  | inr e => inr e
  | inl k1 =>
      match mix_wrap fuel hp i len k1 with
      | inr e => inr e
      | inl k2 => mix_rewind hp k2
      end
  end.
Proof.
  intros (Hpa & Hex & Hfa & _) Hpl. unfold mix_block, fade_step.
  rewrite Hpa, Hex. simpl.
  destruct (decide (fading c = MIX_NO_FADING)); [|done].
  by destruct (Z.ltb_spec 0 (playing c)); [|lia].
Qed.

Lemma plain_tick_finite (fuel : nat) (cb : bool) (hp : gmap positive Mix_Chunk)
    (i now len vol : Z) (p : positive) (L : Z) (c : Mix_Channel) :
  plain hp p L c →
  0 < playing c ≤ L →
  0 ≤ looping c →
  0 ≤ len < Z.of_nat fuel →
  ∃ k,
    mix_block fuel cb hp i now len vol c = inl k ∧
    plain hp p L (cur_chan k) ∧
    mixed_bytes i (cur_events k) = Z.min len (playing c + L * looping c) ∧
    (playing c + L * looping c ≤ len →
     playing (cur_chan k) = 0 ∧ looping (cur_chan k) = 0) ∧
    (len < playing c + L * looping c →
     0 < playing (cur_chan k) ≤ L ∧ 0 ≤ looping (cur_chan k) ∧
     playing (cur_chan k) + L * looping (cur_chan k) =
       playing c + L * looping c - len) ∧
    (looping c = 0 →
     looping (cur_chan k) = 0 ∧
     done_count i (cur_events k) =
       if cb && (playing c <=? len) then 1%nat else 0%nat).
Proof.
  intros Hplain Hpl Hlo Hlen.
  destruct (mix_block_total fuel cb hp i now len vol c) as (k & Hk);
    [by eapply plain_chan_ok|lia|].
  exists k. split; [exact Hk|].
  rewrite (plain_block _ _ _ _ _ _ _ p L) in Hk by (done || lia).
  pose proof Hplain as (_ & _ & _ & Hc & ck & Hh & HL & HLr).
  assert (Hck : chunk_of hp c = inl ck) by (unfold chunk_of; by rewrite Hc, Hh).
  rewrite (mix_pass_spec _ _ _ _ _ _ ck) in Hk by (simpl; done || lia).
  simpl in Hk.
  set (k0 := {| cur_index := 0; cur_volume := vol; cur_chan := c; cur_events := [] |}) in *.
  set (k1 := if 0 <? len then pass_step cb i len ck k0 else k0) in *.
  set (m1 := Z.min len (playing c)).
  assert (Hk1 : same_static c (cur_chan k1) ∧ cur_index k1 = m1 ∧
                playing (cur_chan k1) = playing c - m1 ∧
                looping (cur_chan k1) = looping c ∧
                mixed_bytes i (cur_events k1) = m1 ∧
                done_count i (cur_events k1) =
                  if cb && (playing c <=? len) && (looping c =? 0)
                  then 1%nat else 0%nat).
  { unfold k1, m1. destruct (Z.ltb_spec 0 len).
    - unfold pass_step. simpl. rewrite Z.sub_0_r.
      split; [by repeat split|]. split; [lia|]. split; [done|]. split; [done|].
      match goal with
      | |- context [?a ++ _ :: []] => set (alert := a)
      end.
      assert (Ha : mixed_bytes i alert = 0 ∧
                   done_count i alert =
                   if cb && (playing c <=? len) && (looping c =? 0)
                   then 1%nat else 0%nat).
      { unfold alert.
        destruct (Z.eqb_spec (playing c - Z.min len (playing c)) 0);
          destruct (Z.leb_spec (playing c) len); try lia; simpl.
        - destruct (looping c =? 0); simpl.
          + rewrite done_count_done_events, Z.eqb_refl.
            rewrite !andb_true_r. by destruct cb.
          + by rewrite andb_false_r.
        - by rewrite andb_false_r. }
      destruct Ha as [Ha1 Ha2].
      rewrite mixed_bytes_app, mixed_bytes_cons, done_count_app, done_count_cons.
      rewrite Ha1, Ha2. simpl. rewrite Z.eqb_refl.
      split; [unfold mixed_bytes; simpl; lia|].
      unfold done_count. simpl. lia.
    - assert (len = 0) as -> by lia. simpl.
      split; [apply same_static_refl|]. split; [lia|]. split; [lia|].
      split; [done|]. split; [unfold mixed_bytes; simpl; lia|].
      destruct (Z.leb_spec (playing c) 0); [lia|]. by rewrite andb_false_r. }
  destruct Hk1 as (S1 & Hi1 & Hp1 & Hl1 & Hb1 & Hd1).
  destruct (mix_wrap fuel hp i len k1) as [k2|] eqn:Hw; [|done].
  pose proof (mix_wrap_frame _ _ _ _ _ _ Hw) as (S2 & _).
  assert (Hstop : looping c = 0 → k2 = k1).
  { intros E. rewrite mix_wrap_stop in Hw by (left; lia). by simplify_eq. }
  apply (mix_wrap_finite hp i len L ck fuel HL HLr) in Hw;
    [|by rewrite (chunk_of_static hp c)|unfold m1 in *; lia..].
  destruct Hw as (W1 & W2 & W3 & W4 & W5 & W6 & W7).
  rewrite Hi1, Hp1, Hl1, Hb1 in *.
  pose proof (mix_rewind_frame _ _ _ Hk) as (S3 & E3 & _).
  assert (Hpk : plain hp p L (cur_chan k)).
  { eapply plain_static; [|exact Hplain].
    eapply same_static_trans; [|exact S3].
    eapply same_static_trans; [exact S1|exact S2]. }
  split; [exact Hpk|]. rewrite E3.
  assert (Hck2 : chunk_of hp (cur_chan k2) = inl ck).
  { rewrite (chunk_of_static hp c); [done|].
    eapply same_static_trans; [exact S1|exact S2]. }
  assert (Hfin :
    (playing (cur_chan k2) = 0 ∧ 0 < looping (cur_chan k2) ∧
     playing (cur_chan k) = L ∧
     looping (cur_chan k) = looping (cur_chan k2) - 1) ∨
    ((playing (cur_chan k2) ≠ 0 ∨ looping (cur_chan k2) = 0) ∧ k = k2)).
  { unfold mix_rewind in Hk.
    destruct (Z.eqb_spec (playing (cur_chan k2)) 0) as [E|E]; simpl in Hk.
    - destruct (Z.eqb_spec (looping (cur_chan k2)) 0) as [E'|E']; simpl in Hk.
      + right. split; [lia|]. by simplify_eq.
      + left. rewrite Hck2 in Hk. injection Hk as <-. simpl.
        rewrite HL, to_int_id by (unfold INT_MAX in *; lia).
        destruct (Z.ltb_spec 0 (looping (cur_chan k2))); [|lia].
        simpl. lia.
    - right. split; [lia|]. by simplify_eq. }
  split; [unfold m1 in *; nia|].
  split; [intros HR; unfold m1 in *; destruct Hfin as [?|[? ->]]; nia|].
  split; [intros HR; unfold m1 in *; destruct Hfin as [?|[? ->]]; nia|].
  intros E. rewrite (Hstop E) in *.
  destruct Hfin as [?|[_ ->]]; [lia|].
  split; [lia|]. rewrite Hd1, E. simpl. by rewrite andb_true_r.
Qed.

Lemma plain_tick_forever (fuel : nat) (cb : bool) (hp : gmap positive Mix_Chunk)
    (i now len vol : Z) (p : positive) (L : Z) (c : Mix_Channel) :
  plain hp p L c →
  0 < playing c ≤ L →
  looping c < 0 →
  0 ≤ len < Z.of_nat fuel →
  ∃ k,
    mix_block fuel cb hp i now len vol c = inl k ∧
    plain hp p L (cur_chan k) ∧
    mixed_bytes i (cur_events k) = len ∧
    0 < playing (cur_chan k) ≤ L ∧
    looping (cur_chan k) = looping c.
Proof.
  intros Hplain Hpl Hlo Hlen.
  destruct (mix_block_total fuel cb hp i now len vol c) as (k & Hk);
    [by eapply plain_chan_ok|lia|].
  exists k. split; [exact Hk|].
  rewrite (plain_block _ _ _ _ _ _ _ p L) in Hk by (done || lia).
  pose proof Hplain as (_ & _ & _ & Hc & ck & Hh & HL & HLr).
  assert (Hck : chunk_of hp c = inl ck) by (unfold chunk_of; by rewrite Hc, Hh).
  rewrite (mix_pass_spec _ _ _ _ _ _ ck) in Hk by (simpl; done || lia).
  simpl in Hk.
  set (k0 := {| cur_index := 0; cur_volume := vol; cur_chan := c; cur_events := [] |}) in *.
  set (k1 := if 0 <? len then pass_step cb i len ck k0 else k0) in *.
  set (m1 := Z.min len (playing c)).
  assert (Hk1 : same_static c (cur_chan k1) ∧ cur_index k1 = m1 ∧
                playing (cur_chan k1) = playing c - m1 ∧
                looping (cur_chan k1) = looping c ∧
                mixed_bytes i (cur_events k1) = m1).
  { unfold k1, m1. destruct (Z.ltb_spec 0 len).
    - unfold pass_step. simpl. rewrite Z.sub_0_r.
      split; [by repeat split|]. split; [lia|]. split; [done|]. split; [done|].
      rewrite mixed_bytes_app, mixed_bytes_cons. simpl. rewrite Z.eqb_refl.
      destruct (Z.eqb_spec (looping c) 0); [lia|].
      rewrite andb_false_r. unfold mixed_bytes. simpl. lia.
    - assert (len = 0) as -> by lia. simpl.
      split; [apply same_static_refl|]. split; [lia|]. split; [lia|].
      split; [done|]. unfold mixed_bytes; simpl; lia. }
  destruct Hk1 as (S1 & Hi1 & Hp1 & Hl1 & Hb1).
  destruct (mix_wrap fuel hp i len k1) as [k2|] eqn:Hw; [|done].
  pose proof (mix_wrap_frame _ _ _ _ _ _ Hw) as (S2 & _).
  apply (mix_wrap_forever hp i len L ck fuel HL HLr) in Hw;
    [|by rewrite (chunk_of_static hp c)|unfold m1 in *; lia..].
  destruct Hw as (W1 & W2 & W3 & W4).
  rewrite Hi1, Hl1, Hb1 in *.
  pose proof (mix_rewind_frame _ _ _ Hk) as (S3 & E3 & _).
  split.
  { eapply plain_static; [|exact Hplain].
    eapply same_static_trans; [|exact S3].
    eapply same_static_trans; [exact S1|exact S2]. }
  rewrite E3. split; [unfold m1 in *; lia|].
  assert (Hck2 : chunk_of hp (cur_chan k2) = inl ck).
  { rewrite (chunk_of_static hp c); [done|].
    eapply same_static_trans; [exact S1|exact S2]. }
  unfold mix_rewind in Hk.
  destruct (Z.eqb_spec (playing (cur_chan k2)) 0) as [E|E]; simpl in Hk.
  - destruct (Z.eqb_spec (looping (cur_chan k2)) 0) as [E'|E']; [lia|].
    simpl in Hk. rewrite Hck2 in Hk. injection Hk as <-. simpl.
    rewrite HL, to_int_id by (unfold INT_MAX in *; lia).
    destruct (Z.ltb_spec 0 (looping (cur_chan k2))); [lia|]. lia.
  - injection Hk as <-. lia.
Qed.

(** A plain channel with nothing left to play is left alone. *)
Lemma plain_tick_idle (fuel : nat) (cb : bool) (hp : gmap positive Mix_Chunk)
    (i now len vol : Z) (p : positive) (L : Z) (c : Mix_Channel) :
  plain hp p L c →
  playing c = 0 →
  mix_block fuel cb hp i now len vol c =
  inl {| cur_index := 0; cur_volume := vol; cur_chan := c; cur_events := [] |}.
Proof.
  intros (Hpa & Hex & Hfa & _) Hpl. unfold mix_block, fade_step.
  rewrite Hpa, Hex. simpl.
  destruct (decide (fading c = MIX_NO_FADING)); [|done].
  by rewrite Hpl.
Qed.

(** ** Runs of the callback *)

Lemma Mix_Playing_at (s : mixer_state) (i : Z) (c : Mix_Channel) :
  channel_at s i = Some c →
  i < num_channels s →
  Mix_Playing i s = Ok (if active c then 1 else 0) s.
Proof.
  intros Hc Hn. destruct (channel_at_Some _ _ _ Hc) as (arr & Hb & Hi & Hl).
  unfold Mix_Playing. munfold.
  destruct (Z.eqb_spec i (-1)); [lia|].
  destruct (Z.ltb_spec i (num_channels s)); [|lia].
  by rewrite get_channel_at, Hc.
Qed.

Lemma mix_run_finite (fuel : nat) (i : Z) (p : positive) (L : Z)
    (bufs : list (Z * Z)) :
  ∀ (s : mixer_state) (r lp : Z),
    wf s →
    plays_at s i p L r lp →
    (0 < r ≤ L ∧ 0 ≤ lp) ∨ (r = 0 ∧ lp = 0) →
    Forall (λ b, 0 ≤ b.2 < Z.of_nat fuel) bufs →
    ∃ s' r' lp',
      mix_run fuel bufs s = Ok tt s' ∧
      wf s' ∧
      same_globals s s' ∧
      plays_at s' i p L r' lp' ∧
      mixed_bytes i (trace s') =
        mixed_bytes i (trace s) + Z.min (total_len bufs) (r + L * lp) ∧
      ((r' = 0 ∧ lp' = 0 ∧ r + L * lp ≤ total_len bufs) ∨
       (0 < r' ≤ L ∧ 0 ≤ lp' ∧ r' + L * lp' = r + L * lp - total_len bufs)) ∧
      (lp = 0 →
       lp' = 0 ∧
       done_count i (trace s') =
         (done_count i (trace s) +
          if (channel_done_callback s && (0 <? r) && (r <=? total_len bufs))%Z
          then 1 else 0)%nat).
Proof.
  induction bufs as [|[now len] bufs IH]; intros s r lp Hwf Hpl Hr Hbufs.
  - exists s, r, lp. simpl.
    split; [done|]. split; [done|]. split; [apply same_globals_refl|].
    split; [done|].
    destruct Hpl as (c & _ & (_ & _ & _ & _ & ck & _ & _ & HL) & _ & _).
    split; [nia|]. split; [nia|].
    intros ->. split; [done|].
    destruct (Z.ltb_spec 0 r); destruct (Z.leb_spec r 0);
      rewrite ?andb_false_r; simpl; lia.
  - apply Forall_cons in Hbufs as [Hlen Hbufs]. simpl in Hlen.
    destruct (mix_channels_spec fuel now len s Hwf) as (s1 & Hmix & Hwf1 & Hg1 & _ & Hch);
      [lia|].
    destruct Hpl as (c & Hc & Hplain & Hpc & Hlc).
    destruct (Hch i c Hc) as (v & k & Hk & Hc1 & Hd1 & Hm1).
    pose proof Hg1 as (_ & _ & Hcb1 & _ & _ & _ & _ & Hh1).
    pose proof Hplain as (_ & _ & _ & _ & ck & _ & _ & HL).
    assert (Hstep : ∃ r1 lp1,
      plays_at s1 i p L r1 lp1 ∧
      ((0 < r1 ≤ L ∧ 0 ≤ lp1) ∨ (r1 = 0 ∧ lp1 = 0)) ∧
      mixed_bytes i (cur_events k) = Z.min len (r + L * lp) ∧
      r1 + L * lp1 = r + L * lp - Z.min len (r + L * lp) ∧
      (lp = 0 →
       lp1 = 0 ∧ r1 = r - Z.min len r ∧
       done_count i (cur_events k) =
         if channel_done_callback s && (0 <? r) && (r <=? len)
         then 1%nat else 0%nat)).
    { destruct Hr as [[Hr Hlp]|[Hr Hlp]].
      - destruct (plain_tick_finite fuel (channel_done_callback s) (heap s)
                    i now len v p L c)
          as (k' & Hk' & Hp' & Hb' & Hz' & Hn' & Hl'); [done|lia|lia|lia|].
        rewrite Hk in Hk'. injection Hk' as <-.
        exists (playing (cur_chan k)), (looping (cur_chan k)).
        split. { exists (cur_chan k). rewrite Hh1. done. }
        rewrite Hpc, Hlc in *.
        split; [destruct (Z.le_gt_cases (r + L * lp) len); [right|left]; lia|].
        split; [done|].
        split; [destruct (Z.le_gt_cases (r + L * lp) len); nia|].
        intros E. destruct (Hl' E) as [-> ->]. split; [done|].
        rewrite E in *.
        destruct (Z.ltb_spec 0 r); [|lia]. rewrite andb_true_r.
        split; [|done].
        destruct (Z.le_gt_cases (r + L * 0) len); lia.
      - rewrite (plain_tick_idle _ _ _ _ _ _ _ p L) in Hk by (done || lia).
        injection Hk as <-. simpl in *.
        exists r, lp. split. { exists c. rewrite Hh1. done. }
        split; [right; lia|]. subst r lp.
        split; [unfold mixed_bytes; simpl; lia|]. split; [lia|].
        intros _. split; [done|]. split; [lia|].
        rewrite Hr. by destruct (channel_done_callback s). }
    destruct Hstep as (r1 & lp1 & Hpl1 & Hr1 & Hb1 & Hsum1 & Hz1).
    destruct (IH s1 r1 lp1 Hwf1 Hpl1 Hr1 Hbufs)
      as (s' & r' & lp' & Hrun & Hwf' & Hg' & Hpl' & Hb' & Hr' & Hz').
    exists s', r', lp'.
    split. { simpl. munfold. by rewrite Hmix. }
    split; [done|]. split; [eapply same_globals_trans; done|].
    split; [done|].
    assert (Htot : 0 ≤ total_len bufs).
    { clear -Hbufs. induction Hbufs; simpl; lia. }
    split. { rewrite Hb', Hm1, Hb1, Hsum1. simpl. lia. }
    split. { rewrite Hsum1 in Hr'. simpl. lia. }
    intros E. destruct (Hz1 E) as (-> & -> & Hd).
    destruct (Hz' eq_refl) as (-> & Hd'). split; [done|].
    rewrite Hd', Hd1, Hd, Hcb1. simpl.
    destruct (channel_done_callback s); simpl; [|lia].
    destruct (Z.ltb_spec 0 r); destruct (Z.leb_spec r len);
      destruct (Z.ltb_spec 0 (r - Z.min len r));
      destruct (Z.leb_spec (r - Z.min len r) (total_len bufs));
      destruct (Z.leb_spec r (len + total_len bufs)); simpl; lia.
Qed.

Lemma total_len_nonneg (fuel : nat) (bufs : list (Z * Z)) :
  Forall (λ b, 0 ≤ b.2 < Z.of_nat fuel) bufs → 0 ≤ total_len bufs.
Proof. induction 1; simpl; lia. Qed.

Lemma mix_run_forever (fuel : nat) (i : Z) (p : positive) (L lp : Z)
    (bufs : list (Z * Z)) :
  lp < 0 →
  ∀ (s : mixer_state) (r : Z),
    wf s →
    plays_at s i p L r lp →
    0 < r ≤ L →
    Forall (λ b, 0 ≤ b.2 < Z.of_nat fuel) bufs →
    ∃ s' r',
      mix_run fuel bufs s = Ok tt s' ∧
      wf s' ∧
      same_globals s s' ∧
      plays_at s' i p L r' lp ∧
      0 < r' ≤ L ∧
      mixed_bytes i (trace s') = mixed_bytes i (trace s) + total_len bufs.
Proof.
  intros Hlp. induction bufs as [|[now len] bufs IH]; intros s r Hwf Hpl Hr Hbufs.
  - exists s, r. simpl.
    split; [done|]. split; [done|]. split; [apply same_globals_refl|].
    split; [done|]. split; [done|lia].
  - apply Forall_cons in Hbufs as [Hlen Hbufs]. simpl in Hlen.
    destruct (mix_channels_spec fuel now len s Hwf)
      as (s1 & Hmix & Hwf1 & Hg1 & _ & Hch); [lia|].
    destruct Hpl as (c & Hc & Hplain & Hpc & Hlc).
    destruct (Hch i c Hc) as (v & k & Hk & Hc1 & Hd1 & Hm1).
    pose proof Hg1 as (_ & _ & _ & _ & _ & _ & _ & Hh1).
    destruct (plain_tick_forever fuel (channel_done_callback s) (heap s)
                i now len v p L c)
      as (k' & Hk' & Hp' & Hb' & Hr' & Hl'); [done|lia|lia|lia|].
    rewrite Hk in Hk'. injection Hk' as <-.
    destruct (IH s1 (playing (cur_chan k)) Hwf1)
      as (s' & r' & Hrun & Hwf' & Hg' & Hpl' & Hrr' & Hbb'); [|done|done|].
    { exists (cur_chan k). rewrite Hh1. split; [done|]. split; [done|].
      split; [done|]. by rewrite Hl'. }
    exists s', r'.
    split. { simpl. munfold. by rewrite Hmix. }
    split; [done|]. split; [eapply same_globals_trans; done|].
    split; [done|]. split; [done|].
    rewrite Hbb', Hm1, Hb'. simpl. lia.
Qed.

(** ** Starting a chunk *)

Lemma chan_ok_trimmed (hp : gmap positive Mix_Chunk) (p : positive)
    (ck : Mix_Chunk) (L : Z) (c : Mix_Channel) :
  0 < L ≤ INT_MAX →
  chan_ok hp c → chan_ok (<[p := set_alen L ck]> hp) c.
Proof.
  intros HL [H1 H2]. split; [|exact H2].
  intros Hpl. destruct (H1 Hpl) as (q & cq & Hq & Hh & Hlen).
  destruct (decide (p = q)) as [->|Hne].
  - exists q, (set_alen L ck). by rewrite lookup_insert_eq.
  - exists q, cq. by rewrite lookup_insert_ne.
Qed.

(** The state Mix_PlayChannelTimed leaves when it is given a channel of the
    bank and a chunk whose truncated length is not zero as an [int]. *)
Lemma play_state (s : mixer_state) (arr : list Mix_Channel)
    (which loops ticks now : Z) (p : positive) (ck : Mix_Chunk)
    (c0 : Mix_Channel) :
  mix_channel s = Some arr →
  arr !! Z.to_nat which = Some c0 →
  0 ≤ which < num_channels s →
  heap s !! p = Some ck →
  0 ≤ alen ck →
  0 < frame_width_of (mixer_format s) (mixer_channels s) →
  let L := alen ck - alen ck mod frame_width_of (mixer_format s) (mixer_channels s) in
  to_int L ≠ 0 →
  Mix_PlayChannelTimed which (Some p) loops ticks now s =
  Ok which
    (with_mix_channel
       (Some (<[Z.to_nat which :=
                  play_fields p (set_alen L ck) loops ticks now c0]> arr))
       (with_trace
          ((if active c0 then done_events (channel_done_callback s) which
            else []) ++ trace s)
          (with_heap (<[p := set_alen L ck]> (heap s)) s))).
Proof.
  intros Hb Hl Hi Hp Hlen Hfw L HL.
  assert (Hc : channel_at s which = Some c0).
  { unfold channel_at. rewrite Hb. by destruct (Z.leb_spec 0 which); [|lia]. }
  assert (Hlt : which < Z.of_nat (length arr)).
  { apply lookup_lt_Some in Hl. lia. }
  set (ck' := set_alen L ck).
  set (hp1 := <[p := ck']> (heap s)).
  unfold Mix_PlayChannelTimed. munfold.
  rewrite (checkchunkintegral_spec p ck) by (done || lia).
  fold L. fold ck'. fold hp1.
  destruct (Z.eqb_spec (to_int L) 0); [lia|].
  destruct (Z.eqb_spec which (-1)); [lia|].
  replace (num_channels (with_heap hp1 s)) with (num_channels s) by reflexivity.
  destruct (Z.leb_spec 0 which); [|lia].
  destruct (Z.ltb_spec which (num_channels s)); [|lia]. simpl.
  rewrite (Mix_Playing_at _ which c0) by (done || lia).
  unfold _Mix_channel_done_playing, get_chunk. munfold. simpl.
  destruct (active c0); simpl in *;
    unfold hp1 at 1; rewrite lookup_insert_eq;
    rewrite get_channel_at;
    unfold channel_at; simpl; rewrite Hb;
    (destruct (Z.leb_spec 0 which); [|lia]); rewrite Hl;
    unfold put_channel; simpl; rewrite Hb;
    (destruct (Z.leb_spec 0 which); [|lia]);
    (destruct (Z.ltb_spec which (Z.of_nat (length arr))); [|lia]);
    simpl; by destruct s.
Qed.

(** The chunk's length is a [uint32_t]; what must fit an [int] is the
    length after truncation, which is what [playing] receives. *)
Lemma play_on_channel_gen (s : mixer_state) (which loops ticks now : Z)
    (p : positive) (ck : Mix_Chunk) (L : Z) (c0 : Mix_Channel) :
  wf s →
  channel_at s which = Some c0 →
  which < num_channels s →
  heap s !! p = Some ck →
  0 ≤ alen ck →
  0 < frame_width_of (mixer_format s) (mixer_channels s) →
  L = alen ck - alen ck mod frame_width_of (mixer_format s) (mixer_channels s) →
  0 < L ≤ INT_MAX →
  ∃ s1,
    Mix_PlayChannelTimed which (Some p) loops ticks now s = Ok which s1 ∧
    wf s1 ∧
    (ticks ≤ 0 → plays_at s1 which p L L loops) ∧
    num_channels s1 = num_channels s ∧
    channel_done_callback s1 = channel_done_callback s ∧
    trace s1 =
      (if active c0 then done_events (channel_done_callback s) which else [])
      ++ trace s.
Proof.
  intros (arr & Hb & Hn & Hok) Hc Hlt Hp Hlen Hfw HL HLr.
  destruct (channel_at_Some _ _ _ Hc) as (a & Ha & Hi & Hl). simplify_eq.
  set (fw := frame_width_of (mixer_format s) (mixer_channels s)) in *.
  set (L := alen ck - alen ck mod fw) in *.
  set (ck' := set_alen L ck).
  set (hp1 := <[p := ck']> (heap s)).
  set (c1 := play_fields p ck' loops ticks now c0).
  set (evs := if active c0 then done_events (channel_done_callback s) which else []).
  exists (with_mix_channel (Some (<[Z.to_nat which := c1]> arr))
            (with_trace (evs ++ trace s) (with_heap hp1 s))).
  split.
  { unfold Mix_PlayChannelTimed. munfold.
    rewrite (checkchunkintegral_spec p ck) by (done || lia).
    fold fw. fold L. fold ck'. fold hp1.
    rewrite to_int_id by (unfold INT_MAX in *; lia).
    destruct (Z.eqb_spec L 0); [lia|].
    destruct (Z.eqb_spec which (-1)); [lia|].
    replace (num_channels (with_heap hp1 s)) with (num_channels s) by reflexivity.
    destruct (Z.leb_spec 0 which); [|lia].
    destruct (Z.ltb_spec which (num_channels s)); [|lia]. simpl.
    rewrite (Mix_Playing_at _ which c0) by done.
    unfold _Mix_channel_done_playing, get_chunk. munfold. simpl.
    destruct (active c0); simpl in *;
      unfold hp1 at 1; rewrite lookup_insert_eq;
      rewrite get_channel_at;
      unfold channel_at; simpl; rewrite Hb;
      (destruct (Z.leb_spec 0 which); [|lia]); rewrite Hl;
      unfold put_channel; simpl; rewrite Hb;
      (destruct (Z.leb_spec 0 which); [|lia]);
      (destruct (Z.ltb_spec which (Z.of_nat (length arr))); [|lia]);
      simpl; unfold evs; simpl; by destruct s. }
  split.
  { exists (<[Z.to_nat which := c1]> arr). split; [done|].
    split; [simpl; rewrite length_insert; done|].
    simpl. apply Forall_insert.
    - eapply Forall_impl; [exact Hok|].
      intros c. by apply chan_ok_trimmed.
    - split; [|done]. intros _. exists p, ck'.
      unfold hp1. by rewrite lookup_insert_eq. }
  split.
  { intros Htick. exists c1. split.
    - unfold channel_at. simpl. destruct (Z.leb_spec 0 which); [|lia].
      apply list_lookup_insert_eq. lia.
    - split.
      + unfold plain. simpl.
        destruct (Z.ltb_spec 0 ticks); [lia|].
        repeat split. exists ck'. unfold hp1. by rewrite lookup_insert_eq.
      + simpl. split; [|done]. apply to_int_id. unfold INT_MAX in *. lia. }
  done.
Qed.

Lemma play_on_channel (s : mixer_state) (which loops ticks now : Z)
    (p : positive) (ck : Mix_Chunk) (L : Z) (c0 : Mix_Channel) :
  wf s →
  channel_at s which = Some c0 →
  which < num_channels s →
  heap s !! p = Some ck →
  0 ≤ alen ck ≤ INT_MAX →
  0 < frame_width_of (mixer_format s) (mixer_channels s) →
  L = alen ck - alen ck mod frame_width_of (mixer_format s) (mixer_channels s) →
  0 < L →
  ∃ s1,
    Mix_PlayChannelTimed which (Some p) loops ticks now s = Ok which s1 ∧
    wf s1 ∧
    (ticks ≤ 0 → plays_at s1 which p L L loops) ∧
    num_channels s1 = num_channels s ∧
    channel_done_callback s1 = channel_done_callback s ∧
    trace s1 =
      (if active c0 then done_events (channel_done_callback s) which else [])
      ++ trace s.
Proof.
  intros Hwf Hc Hlt Hp Hlen Hfw HL HLpos.
  apply (play_on_channel_gen s which loops ticks now p ck L c0); try done.
  - lia.
  - pose proof (Z.mod_pos_bound (alen ck) _ Hfw). lia.
Qed.

Lemma mixed_bytes_done_events (i j : Z) (cb : bool) :
  mixed_bytes i (done_events cb j) = 0.
Proof. by destruct cb. Qed.

(** ** One-shot playback *)

Lemma one_shot_run
    (s : mixer_state) (which now ticks : Z) (p : positive) (ck : Mix_Chunk)
    (L : Z) (c0 : Mix_Channel) (fuel : nat) :
  wf s →
  channel_done_callback s = true →
  channel_at s which = Some c0 →
  which < num_channels s →
  active c0 = false →
  heap s !! p = Some ck →
  0 ≤ alen ck ≤ UINT32_MAX →
  0 < frame_width_of (mixer_format s) (mixer_channels s) →
  L = alen ck - alen ck mod frame_width_of (mixer_format s) (mixer_channels s) →
  0 < L ≤ INT_MAX →
  ticks ≤ 0 →
  ∃ s1,
    Mix_PlayChannelTimed which (Some p) 0 ticks now s = Ok which s1 ∧
    ∀ bufs : list (Z * Z),
      Forall (λ b, 0 ≤ b.2 < Z.of_nat fuel) bufs →
      total_len bufs ≤ L →
      ∃ s2,
        mix_run fuel bufs s1 = Ok tt s2 ∧
        done_count which (trace s2) =
          (done_count which (trace s) +
           if (total_len bufs =? L)%Z then 1 else 0)%nat ∧
        Mix_Playing which s2 =
          Ok (if total_len bufs =? L then 0 else 1) s2.
Proof.
  intros Hwf Hcb Hc Hlt Hact Hp Hlen Hfw HL HLpos Htick.
  destruct (play_on_channel_gen s which 0 ticks now p ck L c0)
    as (s1 & Hplay & Hwf1 & Hpl1 & Hn1 & Hcb1 & Ht1); try (done || lia).
  specialize (Hpl1 Htick).
  exists s1. split; [exact Hplay|].
  intros bufs Hbufs Htot.
  destruct (mix_run_finite fuel which p L bufs s1 L 0 Hwf1 Hpl1)
    as (s2 & r' & lp' & Hrun & Hwf2 & Hg2 & Hpl2 & Hb2 & Hr2 & Hz2);
    [left; lia|done|].
  exists s2. split; [exact Hrun|].
  destruct (Hz2 eq_refl) as (-> & Hd).
  destruct Hpl2 as (c2 & Hc2 & Hplain2 & Hp2 & Hl2).
  pose proof Hg2 as (Hn2 & _).
  split.
  - rewrite Hd, Ht1, Hact, Hcb1, Hcb. simpl.
    destruct (Z.ltb_spec 0 L); [|lia].
    destruct (Z.leb_spec L (total_len bufs));
      destruct (Z.eqb_spec (total_len bufs) L); simpl; lia.
  - rewrite (Mix_Playing_at s2 which c2) by (done || lia).
    unfold active. rewrite Hp2, Hl2. simpl. rewrite orb_false_r.
    destruct (Z.eqb_spec (total_len bufs) L);
      destruct (Z.ltb_spec 0 r'); try done; lia.
Qed.

(** C1, amended.  A chunk whose frame-truncated length [L] is positive and
    fits an [int] ([L <= INT_MAX]: the length is stored in the [int] field
    [playing]) is played with loop count 0 on a channel that is not
    playing, without time limit; the callback then runs over buffers whose
    lengths total exactly [L].  The completion callback runs exactly once
    for that channel, Mix_Playing then answers 0, and after any shorter
    prefix of the buffers (total below [L]) the callback has not run yet and
    Mix_Playing still answers 1: the notification comes in the call that
    consumes the last byte. *)
Theorem one_shot_completes_once
    (s : mixer_state) (which now ticks : Z) (p : positive) (ck : Mix_Chunk)
    (L : Z) (c0 : Mix_Channel) (fuel : nat) (bufs : list (Z * Z)) :
  wf s →
  channel_done_callback s = true →
  channel_at s which = Some c0 →
  which < num_channels s →
  active c0 = false →
  heap s !! p = Some ck →
  0 ≤ alen ck ≤ UINT32_MAX →
  0 < frame_width_of (mixer_format s) (mixer_channels s) →
  L = alen ck - alen ck mod frame_width_of (mixer_format s) (mixer_channels s) →
  0 < L ≤ INT_MAX →
  ticks ≤ 0 →
  Forall (λ b, 0 ≤ b.2 < Z.of_nat fuel) bufs →
  total_len bufs = L →
  ∃ s1 s2,
    Mix_PlayChannelTimed which (Some p) 0 ticks now s = Ok which s1 ∧
    mix_run fuel bufs s1 = Ok tt s2 ∧
    done_count which (trace s2) = S (done_count which (trace s)) ∧
    Mix_Playing which s2 = Ok 0 s2 ∧
    ∀ pre post : list (Z * Z),
      bufs = pre ++ post →
      total_len pre < L →
      ∃ s',
        mix_run fuel pre s1 = Ok tt s' ∧
        done_count which (trace s') = done_count which (trace s) ∧
        Mix_Playing which s' = Ok 1 s'.
Proof.
  intros Hwf Hcb Hc Hlt Hact Hp Hlen Hfw HL HLpos Htick Hbufs Htot.
  destruct (one_shot_run s which now ticks p ck L c0 fuel)
    as (s1 & Hplay & Hrun); try done.
  destruct (Hrun bufs Hbufs) as (s2 & Hr2 & Hd2 & Hp2); [lia|].
  exists s1, s2. split; [exact Hplay|]. split; [exact Hr2|].
  rewrite Htot, Z.eqb_refl in *.
  split; [lia|]. split; [exact Hp2|].
  intros pre post -> Hpre.
  apply Forall_app in Hbufs as [Hpre' _].
  destruct (Hrun pre Hpre') as (s' & Hr' & Hd' & Hp'); [lia|].
  exists s'. split; [exact Hr'|].
  destruct (Z.eqb_spec (total_len pre) L); [lia|].
  split; [lia|exact Hp'].
Qed.

(** ** Looped playback *)

(** C2, amended.  A channel started with loop count [K >= 1] on a chunk
    whose frame-truncated length [L] is positive and fits an [int]
    ([L <= INT_MAX]) has mixed [min total (L * (K + 1))] bytes after buffers
    of [total] bytes, and it is inactive ([playing <= 0] and [looping = 0])
    exactly when [total] has reached [L * (K + 1)]: it mixes exactly
    [L * (K + 1)] bytes before becoming inactive.  Started with the sentinel
    -1 it mixes every byte of every buffer and is never inactive. *)
Theorem looped_chunk_byte_count
    (s : mixer_state) (which now ticks K : Z) (p : positive) (ck : Mix_Chunk)
    (L : Z) (c0 : Mix_Channel) (fuel : nat) :
  wf s →
  channel_at s which = Some c0 →
  which < num_channels s →
  heap s !! p = Some ck →
  0 ≤ alen ck ≤ UINT32_MAX →
  0 < frame_width_of (mixer_format s) (mixer_channels s) →
  L = alen ck - alen ck mod frame_width_of (mixer_format s) (mixer_channels s) →
  0 < L ≤ INT_MAX →
  ticks ≤ 0 →
  1 ≤ K →
  (∃ s1,
     Mix_PlayChannelTimed which (Some p) K ticks now s = Ok which s1 ∧
     ∀ bufs : list (Z * Z),
       Forall (λ b, 0 ≤ b.2 < Z.of_nat fuel) bufs →
       ∃ s2 c2,
         mix_run fuel bufs s1 = Ok tt s2 ∧
         channel_at s2 which = Some c2 ∧
         mixed_bytes which (trace s2) =
           mixed_bytes which (trace s) +
           Z.min (total_len bufs) (L * (K + 1)) ∧
         (playing c2 ≤ 0 ∧ looping c2 = 0 ↔ L * (K + 1) ≤ total_len bufs) ∧
         Mix_Playing which s2 =
           Ok (if L * (K + 1) <=? total_len bufs then 0 else 1) s2) ∧
  (∃ s1,
     Mix_PlayChannelTimed which (Some p) (-1) ticks now s = Ok which s1 ∧
     ∀ bufs : list (Z * Z),
       Forall (λ b, 0 ≤ b.2 < Z.of_nat fuel) bufs →
       ∃ s2 c2,
         mix_run fuel bufs s1 = Ok tt s2 ∧
         channel_at s2 which = Some c2 ∧
         mixed_bytes which (trace s2) =
           mixed_bytes which (trace s) + total_len bufs ∧
         ¬ (playing c2 ≤ 0 ∧ looping c2 = 0) ∧
         Mix_Playing which s2 = Ok 1 s2).
Proof.
  intros Hwf Hc Hlt Hp Hlen Hfw HL HLpos Htick HK.
  split.
  - destruct (play_on_channel_gen s which K ticks now p ck L c0)
      as (s1 & Hplay & Hwf1 & Hpl1 & Hn1 & Hcb1 & Ht1); try (done || lia).
  specialize (Hpl1 Htick).
    exists s1. split; [exact Hplay|].
    intros bufs Hbufs.
    destruct (mix_run_finite fuel which p L bufs s1 L K Hwf1 Hpl1)
      as (s2 & r' & lp' & Hrun & Hwf2 & Hg2 & Hpl2 & Hb2 & Hr2 & _);
      [left; lia|done|].
    destruct Hpl2 as (c2 & Hc2 & Hplain2 & Hp2 & Hl2).
    pose proof Hg2 as (Hn2 & _).
    exists s2, c2. split; [exact Hrun|]. split; [exact Hc2|].
    split.
    { rewrite Hb2, Ht1, mixed_bytes_app.
      replace (L + L * K) with (L * (K + 1)) by lia.
      destruct (active c0);
        [rewrite mixed_bytes_done_events|change (mixed_bytes which []) with 0];
        lia. }
    rewrite Hp2, Hl2. split.
    { split; [intros [? ?]|intros ?]; destruct Hr2 as [?|?]; nia. }
    rewrite (Mix_Playing_at s2 which c2) by (done || lia).
    unfold active. rewrite Hp2, Hl2.
    destruct (Z.leb_spec (L * (K + 1)) (total_len bufs));
      destruct (Z.ltb_spec 0 r'); destruct (Z.eqb_spec lp' 0);
      simpl; try done; destruct Hr2 as [?|?]; nia.
  - destruct (play_on_channel_gen s which (-1) ticks now p ck L c0)
      as (s1 & Hplay & Hwf1 & Hpl1 & Hn1 & Hcb1 & Ht1); try (done || lia).
  specialize (Hpl1 Htick).
    exists s1. split; [exact Hplay|].
    intros bufs Hbufs.
    destruct (mix_run_forever fuel which p L (-1) bufs) with (s := s1) (r := L)
      as (s2 & r' & Hrun & Hwf2 & Hg2 & Hpl2 & Hr2 & Hb2);
      [lia|done|done|lia|done|].
    destruct Hpl2 as (c2 & Hc2 & Hplain2 & Hp2 & Hl2).
    pose proof Hg2 as (Hn2 & _).
    exists s2, c2. split; [exact Hrun|]. split; [exact Hc2|].
    split.
    { rewrite Hb2, Ht1, mixed_bytes_app.
      destruct (active c0);
        [rewrite mixed_bytes_done_events|change (mixed_bytes which []) with 0];
        lia. }
    split; [lia|].
    rewrite (Mix_Playing_at s2 which c2) by (done || lia).
    unfold active. rewrite Hp2, Hl2.
    by destruct (Z.ltb_spec 0 r'); [|lia].
Qed.

(** ** Fades *)

Lemma mix_block_after_fade (fuel : nat) (cb : bool)
    (hp : gmap positive Mix_Chunk) (i now len vol : Z)
    (c c1 : Mix_Channel) (evs : list event) (k : cursor) :
  paused c = 0 →
  fade_step cb i now c = inl (c1, evs) →
  mix_block fuel cb hp i now len vol c = inl k →
  same_static c1 (cur_chan k) ∧
  (playing c1 ≤ 0 → cur_chan k = c1 ∧ cur_events k = evs).
Proof.
  intros Hpa Hfs. unfold mix_block. rewrite Hpa, Hfs. simpl.
  destruct (Z.ltb_spec 0 (playing c1)).
  - destruct (mix_pass _ _ _ _ _ _) as [k1|] eqn:H1; [|done].
    destruct (mix_wrap _ _ _ _ _) as [k2|] eqn:H2; [|done].
    intros H3.
    apply mix_pass_frame in H1 as (S1 & _).
    apply mix_wrap_frame in H2 as (S2 & _).
    apply mix_rewind_frame in H3 as (S3 & _).
    split; [|lia].
    exact (same_static_trans _ _ _ (same_static_trans _ _ _ S1 S2) S3).
  - intros [= <-]. split; [apply same_static_refl|done].
Qed.

(** The interpolated volume of a fade-out that has not overflowed 32 bits. *)
Lemma fade_out_volume (V D e : Z) :
  0 ≤ V ≤ SDL_MIX_MAXVOLUME →
  0 < D ≤ UINT32_MAX →
  V * D ≤ UINT32_MAX →
  0 ≤ e ≤ D →
  to_int (to_u32 (to_u32 V * to_u32 (D - e)) / D) = V * (D - e) / D ∧
  0 ≤ V * (D - e) / D ≤ SDL_MIX_MAXVOLUME.
Proof.
  intros HV HD HVD He. unfold SDL_MIX_MAXVOLUME, UINT32_MAX in *.
  rewrite (to_u32_id V) by (unfold UINT32_MAX; lia).
  rewrite (to_u32_id (D - e)) by (unfold UINT32_MAX; lia).
  assert (0 ≤ V * (D - e) ≤ V * D) by nia.
  rewrite to_u32_id by (unfold UINT32_MAX; lia).
  assert (0 ≤ V * (D - e) / D ≤ V).
  { split; [apply Z.div_pos; lia|].
    apply Z.div_le_upper_bound; nia. }
  split; [|lia]. apply to_int_id. unfold INT_MAX. lia.
Qed.

Lemma half_of_even (V D : Z) :
  0 < D → D mod 2 = 0 → V * (D - D / 2) / D = V / 2.
Proof.
  intros HD Hev.
  assert (Hh : ∃ h, D = 2 * h ∧ 0 < h).
  { exists (D / 2). pose proof (Z.div_mod D 2). lia. }
  destruct Hh as (h & -> & Hh).
  replace (2 * h / 2) with h by (rewrite Z.mul_comm, Z.div_mul; lia).
  replace (2 * h - h) with h by lia.
  apply Z.div_mul_cancel_r; lia.
Qed.

Lemma vf_fade_volume_reset (v : Z) (c : Mix_Channel) :
  fade_volume_reset (volume_fields v c) = fade_volume_reset c.
Proof. unfold volume_fields. by destruct (0 <=? v). Qed.

(** The fade branch of the callback, on a channel put in fading-out state
    (no operation of this mixer.c produces that state, see
    [reachable_channel]).  For an unpaused, unexpired channel fading out
    from volume [V] over [D > 0] ticks (values within 32 bits): as long as
    [elapsed <= D] the callback sets the volume to [V * (D - elapsed) / D]
    and leaves the fade in progress, which gives [V * (D - D / 2) / D] at
    [elapsed = D / 2] ([V / 2] for even [D]) and 0 at [elapsed = D]; once
    [elapsed > D] it restores the recorded reset volume, stops the channel
    ([playing = 0], [looping = 0], deadline cleared, callback run) and
    clears the fade. *)
Theorem fade_out_progress
    (s : mixer_state) (i now len : Z) (c : Mix_Channel) (fuel : nat) :
  wf s →
  len < Z.of_nat fuel →
  channel_at s i = Some c →
  paused c = 0 →
  ¬ (0 < expire c < now) →
  fading c = MIX_FADING_OUT →
  0 < fade_length c ≤ UINT32_MAX →
  0 ≤ fade_volume c ≤ SDL_MIX_MAXVOLUME →
  fade_volume c * fade_length c ≤ UINT32_MAX →
  0 ≤ fade_volume_reset c ≤ SDL_MIX_MAXVOLUME →
  let V := fade_volume c in
  let D := fade_length c in
  let elapsed := to_u32 (now - ticks_fade c) in
  ∃ s' c',
    mix_channels fuel now len s = Ok tt s' ∧
    channel_at s' i = Some c' ∧
    (elapsed ≤ D →
     volume c' = V * (D - elapsed) / D ∧
     fading c' = MIX_FADING_OUT ∧
     expire c' = expire c ∧
     fade_volume_reset c' = fade_volume_reset c) ∧
    (elapsed = D / 2 →
     volume c' = V * (D - D / 2) / D ∧
     (D mod 2 = 0 → volume c' = V / 2)) ∧
    (elapsed = D →
     volume c' = 0 ∧ fading c' = MIX_FADING_OUT) ∧
    (D < elapsed →
     volume c' = fade_volume_reset c ∧
     playing c' = 0 ∧ looping c' = 0 ∧ expire c' = 0 ∧
     fading c' = MIX_NO_FADING ∧
     done_count i (trace s') =
       (done_count i (trace s) +
        if channel_done_callback s then 1 else 0)%nat).
Proof.
  intros Hwf Hfuel Hc Hpa Hex Hfa HD HV HVD HR V D elapsed.
  destruct (mix_channels_spec fuel now len s Hwf Hfuel)
    as (s' & Hmix & _ & _ & _ & Hch).
  destruct (Hch i c Hc) as (v & k & Hk & Hc' & Hd' & _).
  exists s', (cur_chan k). split; [exact Hmix|]. split; [exact Hc'|].
  assert (Hne : ((0 <? expire c) && (expire c <? now)) = false).
  { destruct (Z.ltb_spec 0 (expire c)); destruct (Z.ltb_spec (expire c) now);
      simpl; try done; lia. }
  assert (Hpos : 0 ≤ elapsed).
  { unfold elapsed, to_u32. apply Z.mod_pos_bound. lia. }
  assert (Hmid : elapsed ≤ D →
    volume (cur_chan k) = V * (D - elapsed) / D ∧
    fading (cur_chan k) = MIX_FADING_OUT ∧
    expire (cur_chan k) = expire c ∧
    fade_volume_reset (cur_chan k) = fade_volume_reset c).
  { intros He.
    destruct (fade_out_volume V D elapsed) as [Hv Hvr]; try done.
    assert (Hfs : fade_step (channel_done_callback s) i now c =
                  inl (volume_fields (V * (D - elapsed) / D) c, [])).
    { unfold fade_step. rewrite Hne, Hfa. simpl.
      fold elapsed. fold D.
      destruct (Z.ltb_spec D elapsed); [lia|].
      destruct (Z.eqb_spec D 0); [lia|].
      fold V. by rewrite Hv. }
    destruct (mix_block_after_fade _ _ _ _ _ _ _ _ _ _ _ Hpa Hfs Hk)
      as ((_ & _ & Sv & _ & Se & _ & Sf & _ & Sr & _) & _).
    rewrite Sv, Sf, Se, Sr, vf_fading, vf_expire, vf_fade_volume_reset,
      vf_volume by done.
    done. }
  split; [exact Hmid|]. split; [|split].
  - intros He.
    assert (Hle : 0 ≤ D / 2 ≤ D).
    { split; [apply Z.div_pos; lia|]. apply Z.div_le_upper_bound; lia. }
    destruct Hmid as (Hv & _); [lia|]. rewrite Hv, He.
    split; [done|].
    intros Hev. apply half_of_even; [unfold D; lia|exact Hev].
  - intros He. destruct Hmid as (Hv & Hf & _); [lia|].
    rewrite Hv, He, Z.sub_diag, Z.mul_0_r. split; [|exact Hf].
    apply Z.div_0_l. lia.
  - intros Hgt.
    set (c1 := set_fading MIX_NO_FADING
                 (set_expire 0 (set_looping 0 (set_playing 0
                    (volume_fields (fade_volume_reset c) c))))).
    assert (Hfs : fade_step (channel_done_callback s) i now c =
                  inl (c1, done_events (channel_done_callback s) i)).
    { unfold fade_step. rewrite Hne, Hfa. simpl.
      fold elapsed. fold D.
      by destruct (Z.ltb_spec D elapsed); [|lia]. }
    destruct (mix_block_after_fade _ _ _ _ _ _ _ _ _ _ _ Hpa Hfs Hk)
      as (_ & Hstop).
    destruct Hstop as [-> Hev]; [simpl; lia|].
    rewrite Hd', Hev, done_count_done_events, Z.eqb_refl, andb_true_r.
    simpl. rewrite vf_volume by done.
    repeat split; try done.
    rewrite Nat.add_comm. done.
Qed.

(** ** Completion notification *)

(** The two outcomes of the expiration and fade step: the channel is
    stopped and the callback runs, or playback goes on untouched. *)
Lemma fade_step_cases (cb : bool) (hp : gmap positive Mix_Chunk)
    (i now : Z) (c : Mix_Channel) :
  chan_ok hp c →
  paused c = 0 →
  (∃ c1,
     fade_step cb i now c = inl (c1, done_events cb i) ∧
     playing c1 = 0 ∧ looping c1 = 0 ∧
     (expired now c ∨ fade_out_over now c)) ∨
  (∃ c1,
     fade_step cb i now c = inl (c1, []) ∧
     playing c1 = playing c ∧ looping c1 = looping c ∧ chunk c1 = chunk c ∧
     ¬ expired now c ∧ ¬ fade_out_over now c).
Proof.
  intros [_ Hf] Hpa. unfold fade_step, expired, fade_out_over.
  destruct (Z.ltb_spec 0 (expire c)); destruct (Z.ltb_spec (expire c) now);
    simpl.
  { left. eexists. split; [done|]. split; [done|]. split; [done|].
    left. split; [done|lia]. }
  all: destruct (decide (fading c = MIX_NO_FADING)) as [E|E];
    [right; eexists; split; [done|]; repeat split; try done;
       intros ?; intuition (congruence || lia)|].
  all: destruct (Z.ltb_spec (fade_length c) (to_u32 (now - ticks_fade c))).
  all: try (destruct (fading c) eqn:Ef; [done| |];
    [left; eexists; split; [done|]; split; [done|]; split; [done|];
       right; repeat split; (done || lia)
    |right; eexists; split; [done|]; vf_simpl; repeat split; try done;
       intros ?; intuition (congruence || lia)]).
  all: destruct (Z.eqb_spec (fade_length c) 0) as [E0|E0]; [by apply Hf in E0|].
  all: destruct (fading c) eqn:Ef; [done| |];
    right; eexists; (split; [done|]); vf_simpl; repeat split; try done;
    intros ?; intuition (congruence || lia).
Qed.

Lemma block_stop_notifies (fuel : nat) (cb : bool)
    (hp : gmap positive Mix_Chunk) (i now len vol : Z)
    (c : Mix_Channel) (k : cursor) :
  chan_ok hp c →
  len < Z.of_nat fuel →
  mix_block fuel cb hp i now len vol c = inl k →
  active c = true →
  active (cur_chan k) = false →
  looping c = 0 ∨ expired now c ∨ fade_out_over now c →
  done_count i (cur_events k) = if cb then 1%nat else 0%nat.
Proof.
  intros Hok Hfuel Hk Hact Hact' Hwhy.
  destruct (Z.eqb_spec (paused c) 0) as [Hpa|Hpa].
  2:{ unfold mix_block in Hk. destruct (Z.eqb_spec (paused c) 0); [done|].
      injection Hk as <-. simpl in Hact'. congruence. }
  destruct (fade_step_cases cb hp i now c Hok Hpa)
    as [(c1 & Hfs & Hp1 & Hl1 & _)|(c1 & Hfs & Hp1 & Hl1 & Hc1 & Hne & Hnf)].
  - destruct (mix_block_after_fade _ _ _ _ _ _ _ _ _ _ _ Hpa Hfs Hk)
      as (_ & Hstop).
    destruct Hstop as [_ ->]; [lia|].
    by rewrite done_count_done_events, Z.eqb_refl, andb_true_r.
  - assert (Hlo : looping c = 0) by (destruct Hwhy as [?|[?|?]]; done).
    assert (Hpl : 0 < playing c).
    { unfold active in Hact. rewrite Hlo in Hact. simpl in Hact.
      rewrite orb_false_r in Hact. lia. }
    destruct (chan_ok_chunk_of hp c Hok Hpl) as (ck & Hck & Hlen).
    assert (Hck1 : chunk_of hp c1 = inl ck).
    { unfold chunk_of in *. by rewrite Hc1. }
    unfold mix_block in Hk. rewrite Hpa, Hfs in Hk. simpl in Hk.
    destruct (Z.ltb_spec 0 (playing c1)); [|lia].
    rewrite (mix_pass_spec _ _ _ _ _ _ ck) in Hk by (simpl; done || lia).
    simpl in Hk.
    destruct (Z.ltb_spec 0 len).
    + rewrite mix_wrap_stop in Hk by (left; simpl; lia).
      unfold mix_rewind in Hk. simpl in Hk.
      rewrite Hl1, Hlo, andb_false_r in Hk. injection Hk as <-.
      unfold active in Hact'. simpl in *.
      rewrite Hl1, Hlo, Z.sub_0_r in *. simpl in Hact'.
      rewrite orb_false_r in Hact'.
      destruct (Z.eqb_spec (playing c1 - Z.min len (playing c1)) 0); [|lia].
      simpl. rewrite done_count_app, done_count_done_events, Z.eqb_refl.
      rewrite andb_true_r, done_count_cons. simpl.
      change (done_count i []) with 0%nat. destruct cb; lia.
    + rewrite mix_wrap_stop in Hk by (left; simpl; lia).
      unfold mix_rewind in Hk. simpl in Hk.
      rewrite Hl1, Hlo, andb_false_r in Hk. injection Hk as <-.
      unfold active in Hact'. simpl in *.
      rewrite Hl1, Hlo in Hact'. simpl in Hact'.
      rewrite orb_false_r in Hact'. lia.
Qed.

Lemma halt_on_channel (s : mixer_state) (which : Z) (c : Mix_Channel) :
  channel_at s which = Some c →
  which < num_channels s →
  ∃ s',
    Mix_HaltChannel which s = Ok 0 s' ∧
    channel_at s' which = Some (halt_fields c) ∧
    trace s' =
      (if playing c =? 0 then []
       else done_events (channel_done_callback s) which) ++ trace s.
Proof.
  intros Hc Hn. destruct (channel_at_Some _ _ _ Hc) as (arr & Hb & Hi & Hl).
  exists (apply_step which (halt_step (channel_done_callback s) which c) s).
  split.
  - unfold Mix_HaltChannel. munfold.
    destruct (Z.eqb_spec which (-1)); [lia|].
    by rewrite (Mix_HaltChannel_one_runs which s c Hc).
  - split; [|done]. unfold apply_step, channel_at. simpl. rewrite Hb. simpl.
    destruct (Z.leb_spec 0 which); [|lia].
    apply list_lookup_insert_eq. lia.
Qed.

Lemma to_int_pos_ne (z : Z) : 0 < z ≤ UINT32_MAX → to_int z ≠ 0.
Proof.
  unfold to_int, UINT32_MAX. intros Hz.
  destruct (Z.lt_ge_cases z (2 ^ 31)).
  - rewrite Z.mod_small by lia. lia.
  - replace (z + 2 ^ 31) with (z - 2 ^ 31 + 1 * 2 ^ 32) by lia.
    rewrite Z.mod_add, Z.mod_small by lia. lia.
Qed.

Lemma done_count_free_events (j : Z) (p : positive) (ck : Mix_Chunk) :
  done_count j (free_events p ck) = 0%nat.
Proof.
  unfold free_events. rewrite done_count_cons. simpl.
  destruct (allocated ck =? 0); [done|]. by rewrite done_count_cons.
Qed.

Lemma done_count_stop_events (j : Z) (p : positive) (arr : list Mix_Channel) :
  done_count j (stop_events p arr) = 0%nat.
Proof.
  unfold stop_events. induction (reverse (holders p 0 arr)) as [|i l IH];
    [done|].
  rewrite fmap_cons, done_count_cons. simpl. exact IH.
Qed.

(** C6, amended.  An active channel that stops is notified through the
    registered callback, in the same call, when the callback stops it by
    expiration, at the end of a fade-out or by running a channel without
    remaining repeats out of data, and when Mix_HaltChannel stops it;
    Mix_PlayChannelTimed on an active channel runs the callback for that
    channel and leaves it with the new chunk.  Mix_FreeChunk stops the
    channels that hold the chunk without any notification. *)
Theorem stop_notification
    (s : mixer_state) (i : Z) (c : Mix_Channel) :
  wf s →
  channel_done_callback s = true →
  channel_at s i = Some c →
  i < num_channels s →
  active c = true →
  (∀ (fuel : nat) (now len : Z),
     len < Z.of_nat fuel →
     looping c = 0 ∨ expired now c ∨ fade_out_over now c →
     ∃ s' c',
       mix_channels fuel now len s = Ok tt s' ∧
       channel_at s' i = Some c' ∧
       (active c' = false →
        done_count i (trace s') = S (done_count i (trace s)))) ∧
  (∃ s' c',
     Mix_HaltChannel i s = Ok 0 s' ∧
     channel_at s' i = Some c' ∧
     (active c' = false →
      done_count i (trace s') = S (done_count i (trace s)))) ∧
  (∀ (p : positive) (ck : Mix_Chunk) (loops ticks now : Z),
     heap s !! p = Some ck →
     0 ≤ alen ck ≤ UINT32_MAX →
     0 < frame_width_of (mixer_format s) (mixer_channels s) →
     0 < alen ck - alen ck mod frame_width_of (mixer_format s) (mixer_channels s) →
     ∃ s' c',
       Mix_PlayChannelTimed i (Some p) loops ticks now s = Ok i s' ∧
       channel_at s' i = Some c' ∧
       chunk c' = Some p ∧
       done_count i (trace s') = S (done_count i (trace s))) ∧
  (∀ (p : positive) (ck : Mix_Chunk),
     heap s !! p = Some ck →
     ∃ s',
       Mix_FreeChunk (Some p) s = Ok tt s' ∧
       (∀ j, done_count j (trace s') = done_count j (trace s)) ∧
       (chunk c = Some p →
        ∃ c', channel_at s' i = Some c' ∧ active c' = false)).
Proof.
  intros Hwf Hcb Hc Hn Hact.
  split; [|split; [|split]].
  - intros fuel now len Hfuel Hwhy.
    destruct (mix_channels_spec fuel now len s Hwf Hfuel)
      as (s' & Hmix & _ & _ & _ & Hch).
    destruct (Hch i c Hc) as (v & k & Hk & Hc' & Hd' & _).
    exists s', (cur_chan k). split; [exact Hmix|]. split; [exact Hc'|].
    intros Hact'. rewrite Hd'.
    assert (Hok : chan_ok (heap s) c).
    { destruct Hwf as (arr & Hb & _ & Hok).
      destruct (channel_at_Some _ _ _ Hc) as (a & Ha & _ & Hl). simplify_eq.
      eapply Forall_lookup_1; [exact Hok|exact Hl]. }
    rewrite (block_stop_notifies _ _ _ _ _ _ _ _ _ Hok Hfuel Hk Hact Hact' Hwhy).
    rewrite Hcb. lia.
  - destruct (halt_on_channel s i c Hc Hn) as (s' & Hh & Hc' & Ht).
    exists s', (halt_fields c). split; [exact Hh|]. split; [exact Hc'|].
    intros Hact'. rewrite Ht, Hcb.
    unfold active, halt_fields in *.
    destruct (Z.eqb_spec (playing c) 0) as [E|E].
    + exfalso. rewrite E in Hact. simpl in *.
      destruct (decide (fading c = MIX_NO_FADING)); simpl in *;
        rewrite E in Hact'; simpl in Hact'; congruence.
    + rewrite done_count_app, done_count_done_events, Z.eqb_refl. simpl. lia.
  - intros p ck loops ticks now Hp Hlen Hfw HL.
    destruct Hwf as (arr & Hb & Hnn & _).
    destruct (channel_at_Some _ _ _ Hc) as (a & Ha & Hi & Hl). simplify_eq.
    eexists _, _. split.
    { apply (play_state s arr i loops ticks now p ck c); try (done || lia).
      apply to_int_pos_ne.
      pose proof (Z.mod_pos_bound (alen ck) _ Hfw). lia. }
    split; [apply channel_at_put_eq; lia|]. split; [reflexivity|].
    simpl. rewrite Hact, Hcb, done_count_app. simpl.
    rewrite done_count_cons. simpl. rewrite Z.eqb_refl.
    change (done_count i []) with 0%nat. lia.
  - intros p ck Hp.
    destruct (free_chunk_phases s p ck Hp)
      as (s1 & s2 & _ & _ & Hfree & _ & Ht1 & Hch & _ & Hb2 & _ & Ht).
    { right. destruct Hwf as (arr & Hb & Hnn & _). by exists arr. }
    exists s2. split; [exact Hfree|]. split.
    + intros j. rewrite Ht, Ht1, !done_count_app.
      rewrite (done_count_free_events j p ck), (done_count_stop_events j p).
      done.
    + intros Hck. eexists. split.
      * unfold channel_at in *. rewrite Hb2. apply Hch. exact Hc.
      * rewrite bool_decide_eq_true_2 by done. reflexivity.
Qed.

(** The loop-wrap path is the one place where the callback moves a channel
    to not-playing without notifying: a chunk of 4 bytes played with one
    repeat into a buffer of 8 bytes ends inside the second loop. *)
Example wrap_exhaustion_is_silent :
  let c := {| chunk := Some 1%positive; playing := 4; paused := 0;
              samples := 1000; volume := 128; looping := 1; tag := -1;
              expire := 0; start_time := 0; fading := MIX_NO_FADING;
              fade_volume := 128; fade_volume_reset := 128;
              fade_length := 0; ticks_fade := 0; effects := [] |} in
  let hp : gmap positive Mix_Chunk := {[ 1%positive := mkChunk 1 1000 4 128 ]} in
  ∃ k,
    mix_block 9 true hp 0 0 8 128 c = inl k ∧
    active c = true ∧
    active (cur_chan k) = false ∧
    done_count 0 (cur_events k) = 0%nat ∧
    mixed_bytes 0 (cur_events k) = 8.
Proof. eexists. vm_compute. repeat split. Qed.

(** ** Instances and counterexamples *)

(** An instance of C1: a chunk of 10 bytes (8 after truncation) mixed into
    buffers of 3 and 5 bytes. *)
Lemma one_shot_completes_once_witness :
  ∃ s1 s2,
    Mix_PlayChannelTimed 0 (Some 1%positive) 0 (-1) 0
      (sample_state [idle_channel; idle_channel] 10) = Ok 0 s1 ∧
    mix_run 6 [(1, 3); (2, 5)] s1 = Ok tt s2 ∧
    done_count 0 (trace s2) = 1%nat ∧
    Mix_Playing 0 s2 = Ok 0 s2.
Proof.
  destruct (one_shot_completes_once
              (sample_state [idle_channel; idle_channel] 10) 0 0 (-1)
              1%positive (mkChunk 1 4096 10 128) 8 idle_channel 6
              [(1, 3); (2, 5)])
    as (s1 & s2 & H1 & H2 & H3 & H4 & _).
  - solve_wf.
  - reflexivity.
  - reflexivity.
  - vm_compute. reflexivity.
  - reflexivity.
  - reflexivity.
  - solve_range.
  - vm_compute. reflexivity.
  - reflexivity.
  - solve_range.
  - lia.
  - repeat constructor; simpl; lia.
  - reflexivity.
  - exists s1, s2. auto.
Defined.

(** An instance of C2: 8 bytes with one repeat put 16 bytes into a buffer of
    20. *)
Lemma looped_chunk_byte_count_witness :
  ∃ s1 s2,
    Mix_PlayChannelTimed 0 (Some 1%positive) 1 (-1) 0
      (sample_state [idle_channel; idle_channel] 10) = Ok 0 s1 ∧
    mix_run 21 [(1, 20)] s1 = Ok tt s2 ∧
    mixed_bytes 0 (trace s2) = 16 ∧
    Mix_Playing 0 s2 = Ok 0 s2.
Proof.
  destruct (looped_chunk_byte_count
              (sample_state [idle_channel; idle_channel] 10) 0 0 (-1) 1
              1%positive (mkChunk 1 4096 10 128) 8 idle_channel 21)
    as [(s1 & H1 & Hrun) _].
  - solve_wf.
  - reflexivity.
  - reflexivity.
  - reflexivity.
  - solve_range.
  - vm_compute. reflexivity.
  - reflexivity.
  - solve_range.
  - lia.
  - lia.
  - destruct (Hrun [(1, 20)]) as (s2 & c2 & H2 & _ & H3 & _ & H4).
    + repeat constructor; simpl; lia.
    + exists s1, s2. auto.
Defined.

(** Half-way through a fade from 128 the volume is 64. *)
Lemma fade_out_progress_witness :
  ∃ s' c',
    mix_channels 5 50 4 (sample_state [fading_channel 128 100 128 0] 100)
      = Ok tt s' ∧
    channel_at s' 0 = Some c' ∧
    volume c' = 64.
Proof.
  destruct (fade_out_progress
              (sample_state [fading_channel 128 100 128 0] 100) 0 50 4
              (fading_channel 128 100 128 0) 5)
    as (s' & c' & H1 & H2 & _ & H3 & _).
  - solve_wf.
  - lia.
  - reflexivity.
  - reflexivity.
  - solve_range.
  - reflexivity.
  - solve_range.
  - solve_range.
  - solve_range.
  - solve_range.
  - exists s', c'. split; [exact H1|]. split; [exact H2|].
    destruct H3 as (Hv & _); [reflexivity|]. exact Hv.
Defined.

(** The same branch at [elapsed = D], with [D = 100]: the callback at tick
    100 leaves the channel fading and playing, at volume 0, and does not run
    the completion callback. *)
Lemma fade_not_final_at_deadline :
  ∃ s' c',
    mix_channels 5 100 4 (sample_state [fading_channel 128 100 128 0] 100)
      = Ok tt s' ∧
    channel_at s' 0 = Some c' ∧
    fading c' = MIX_FADING_OUT ∧
    playing c' = 96 ∧
    volume c' = 0 ∧
    fade_volume_reset c' = 128 ∧
    done_count 0 (trace s') = 0%nat.
Proof.
  eexists _, _. split; [vm_compute; reflexivity|].
  split; [vm_compute; reflexivity|]. vm_compute. repeat split.
Qed.

(** An instance of C4: paused at 1000 with deadline 1500, resumed at 1300,
    the deadline is 1800. *)
Lemma pause_resume_shifts_deadline_witness :
  ∃ s1 s2 c2,
    Mix_Pause 0 1000 (sample_state [set_expire 1500 (busy_channel 50 0)] 100)
      = Ok tt s1 ∧
    Mix_Resume 0 1300 s1 = Ok tt s2 ∧
    channel_at s2 0 = Some c2 ∧
    paused c2 = 0 ∧
    expire c2 = 1800.
Proof.
  destruct (pause_resume_shifts_deadline
              (sample_state [set_expire 1500 (busy_channel 50 0)] 100)
              0 1000 1300 (set_expire 1500 (busy_channel 50 0)))
    as [Hmain _].
  - reflexivity.
  - reflexivity.
  - solve_range.
  - solve_range.
  - destruct Hmain as (s1 & s2 & c1 & c2 & H1 & _ & _ & _ & _ & H2 & H3 & H4 & _ & _ & H5).
    + solve_range.
    + solve_range.
    + exists s1, s2, c2. split; [exact H1|]. split; [exact H2|].
      split; [exact H3|]. split; [exact H4|].
      apply H5; [reflexivity|unfold UINT32_MAX; lia].
Defined.

(** An instance of C6: halting a playing channel runs the callback once. *)
Lemma stop_notification_witness :
  ∃ s',
    Mix_HaltChannel 0 (sample_state [busy_channel 4 0] 8) = Ok 0 s' ∧
    done_count 0 (trace s') = 1%nat.
Proof.
  destruct (stop_notification (sample_state [busy_channel 4 0] 8) 0
              (busy_channel 4 0))
    as (_ & (s' & c' & Hh & Hc' & Hcount) & _).
  - solve_wf.
  - reflexivity.
  - reflexivity.
  - reflexivity.
  - reflexivity.
  - exists s'. split; [exact Hh|].
    vm_compute in Hh. injection Hh as <-.
    vm_compute in Hc'. injection Hc' as <-.
    exact (Hcount eq_refl).
Defined.

(** C6 as stated fails for chunk destruction: freeing the chunk an active
    channel plays makes the channel inactive and the registered callback is
    not run. *)
Lemma destroy_is_silent :
  ∃ s' c',
    Mix_FreeChunk (Some 1%positive) (sample_state [busy_channel 4 0] 8)
      = Ok tt s' ∧
    channel_done_callback (sample_state [busy_channel 4 0] 8) = true ∧
    channel_at (sample_state [busy_channel 4 0] 8) 0 = Some (busy_channel 4 0) ∧
    active (busy_channel 4 0) = true ∧
    channel_at s' 0 = Some c' ∧
    active c' = false ∧
    done_count 0 (trace s') = 0%nat.
Proof.
  eexists _, _. split; [vm_compute; reflexivity|].
  vm_compute. repeat split.
Qed.

(** An instance of C7 on a bank where channels 0 and 2 play the chunk. *)
Lemma free_chunk_stops_before_release_witness :
  ∃ s1 s2,
    stop_chunk_channels 1%positive
      (sample_state [busy_channel 4 0; idle_channel; busy_channel 2 1] 8)
      = Ok tt s1 ∧
    release_chunk 1%positive s1 = Ok tt s2 ∧
    Mix_FreeChunk (Some 1%positive)
      (sample_state [busy_channel 4 0; idle_channel; busy_channel 2 1] 8)
      = Ok tt s2 ∧
    trace s1 = [EvStop 2; EvStop 0] ∧
    trace s2 = [EvFreeChunk 1%positive; EvFreeBuf 4096; EvStop 2; EvStop 0].
Proof.
  destruct (free_chunk_stops_before_release
              (sample_state [busy_channel 4 0; idle_channel; busy_channel 2 1] 8)
              1%positive (mkChunk 1 4096 8 128))
    as (s1 & s2 & H1 & H2 & H3 & _ & H4 & H5 & _).
  - reflexivity.
  - right. eexists. split; reflexivity.
  - exists s1, s2. auto.
Defined.

(** An instance of C8: two resizes and a query, then a resize to 2
    channels. *)
Lemma allocate_channels_resizes_witness :
  ∃ s0 s',
    allocate_many (2 ^ 64 - 1) 96
      [(5, Some (λ _, idle_channel)); (-3, None); (1, Some (λ _, idle_channel))]
      (sample_state [busy_channel 4 0; idle_channel; busy_channel 2 0] 8)
      = Ok tt s0 ∧
    Mix_AllocateChannels (2 ^ 64 - 1) 96 2 (Some (λ _, idle_channel)) s0
      = Ok 2 s' ∧
    bank_ok s' ∧
    num_channels s' = 2.
Proof.
  destruct (allocate_channels_resizes (2 ^ 64 - 1) 96
              (sample_state [busy_channel 4 0; idle_channel; busy_channel 2 0] 8)
              [(5, Some (λ _, idle_channel)); (-3, None);
               (1, Some (λ _, idle_channel))]
              2 (Some (λ _, idle_channel)))
    as (s0 & H1 & _ & _ & H2).
  - eexists. split; reflexivity.
  - lia.
  - repeat (constructor;
      [unfold served; simpl;
       first [left; lia | right; split; [lia|by eexists]]|]).
    constructor.
  - destruct H2 as (s_h & s' & _ & H2 & H3 & H4 & _); [lia|lia|by eexists|].
    exists s0, s'. auto.
Defined.

(** C8 as stated fails for negative [N]: the call is a query that returns
    the current count and leaves the bank as it is. *)
Lemma allocate_negative_is_a_query :
  Mix_AllocateChannels (2 ^ 64 - 1) 96 (-1) (Some (λ _, idle_channel))
    (sample_state [idle_channel; idle_channel] 8)
  = Ok 2 (sample_state [idle_channel; idle_channel] 8) ∧
  num_channels (sample_state [idle_channel; idle_channel] 8) ≠ -1.
Proof. split; [reflexivity|discriminate]. Qed.

(** An instance of C9: a chunk of 3 bytes cannot be played with 4-byte
    frames. *)
Lemma play_rejects_unplayable_chunk_witness :
  ∃ s',
    Mix_PlayChannelTimed 0 (Some 1%positive) 0 0 0
      (sample_state [idle_channel] 3) = Ok (-1) s' ∧
    mix_channel s' = mix_channel (sample_state [idle_channel] 3) ∧
    trace s' = [].
Proof.
  destruct (proj2 (play_rejects_unplayable_chunk
                     (sample_state [idle_channel] 3) 0 0 0 0)
              1%positive (mkChunk 1 4096 3 128))
    as (s' & H1 & H2 & _ & H3 & _).
  - reflexivity.
  - solve_range.
  - vm_compute. reflexivity.
  - reflexivity.
  - exists s'. auto.
Defined.

(** C9 as stated fails on a chunk of 3 bytes in a mixer with 4-byte frames:
    the call fails with -1 and the chunk's length is 0 afterwards. *)
Lemma failed_play_truncates_chunk :
  ∃ s',
    Mix_PlayChannelTimed 0 (Some 1%positive) 0 0 0
      (sample_state [idle_channel] 3) = Ok (-1) s' ∧
    alen <$> heap (sample_state [idle_channel] 3) !! 1%positive = Some 3 ∧
    alen <$> heap s' !! 1%positive = Some 0.
Proof.
  eexists. split; [vm_compute; reflexivity|].
  vm_compute. split; reflexivity.
Qed.

(** An instance of C10 on a bank of two channels. *)
Lemma out_of_range_index_reaches_array_witness :
  Mix_Volume (-2) 64 (sample_state [idle_channel; idle_channel] 8)
    = Crash (OutOfBounds (-2)) ∧
  Mix_GroupChannel 2 7 (sample_state [idle_channel; idle_channel] 8)
    = Crash (OutOfBounds 2).
Proof.
  destruct (out_of_range_index_reaches_array
              (sample_state [idle_channel; idle_channel] 8)
              [idle_channel; idle_channel] (-2) 64 7)
    as (H1 & H2).
  - reflexivity.
  - reflexivity.
  - destruct H1 as (Hv & _); [lia|]. split; [exact Hv|exact H2].
Defined.

(** * Further properties of the channel interface *)

(** ** Volume *)

Lemma channel_at_in_range (s : mixer_state) (i : Z) :
  bank_ok s → 0 ≤ i < num_channels s → ∃ c, channel_at s i = Some c.
Proof.
  intros (arr & Hb & Hn) Hi.
  destruct (lookup_lt_is_Some_2 arr (Z.to_nat i)) as [c Hc]; [lia|].
  exists c. unfold channel_at. rewrite Hb.
  by destruct (Z.leb_spec 0 i); [|lia].
Qed.

Lemma channel_at_bank (s : mixer_state) (arr : list Mix_Channel) (i : nat) :
  mix_channel s = Some arr → channel_at s (Z.of_nat i) = arr !! i.
Proof.
  intros Hb. unfold channel_at. rewrite Hb.
  destruct (Z.leb_spec 0 (Z.of_nat i)); [|lia]. by rewrite Nat2Z.id.
Qed.

Lemma channel_at_lookup (s : mixer_state) (arr : list Mix_Channel) (i : Z) :
  mix_channel s = Some arr → 0 ≤ i → channel_at s i = arr !! Z.to_nat i.
Proof.
  intros Hb Hi. unfold channel_at. rewrite Hb.
  by destruct (Z.leb_spec 0 i); [|lia].
Qed.

Lemma Mix_Volume_one_spec (s : mixer_state) (which vol : Z) (c : Mix_Channel)
    (arr : list Mix_Channel) :
  mix_channel s = Some arr →
  channel_at s which = Some c →
  which < num_channels s →
  Mix_Volume_one which vol s =
  Ok (volume c)
     (if 0 <=? vol
      then with_mix_channel
             (Some (<[Z.to_nat which := volume_fields vol c]> arr)) s
      else s).
Proof.
  intros Hb Hc Hn. unfold Mix_Volume_one. munfold.
  destruct (Z.ltb_spec which (num_channels s)); [|lia].
  rewrite get_channel_at, Hc.
  destruct (0 <=? vol); [|done].
  by rewrite (put_channel_at _ _ c s arr).
Qed.

(** X1.  Mix_Volume on a channel inside the bank returns the volume the
    channel had; a negative argument is a pure query that leaves the state
    as it is, any other argument is stored clamped to SDL_MIX_MAXVOLUME, so
    a query made right after answers [min vol 128].  No other channel, the
    trace and the heap are left alone. *)
Theorem volume_set_then_query
    (s : mixer_state) (which vol : Z) (c : Mix_Channel) :
  channel_at s which = Some c →
  which < num_channels s →
  ∃ s',
    Mix_Volume which vol s = Ok (volume c) s' ∧
    (vol < 0 → s' = s) ∧
    (∀ j, j ≠ which → channel_at s' j = channel_at s j) ∧
    trace s' = trace s ∧
    heap s' = heap s ∧
    Mix_Volume which (-1) s' =
      Ok (if vol <? 0 then volume c else Z.min vol SDL_MIX_MAXVOLUME) s'.
Proof.
  intros Hc Hn. destruct (channel_at_Some _ _ _ Hc) as (arr & Hb & Hi & Hl).
  assert (Hw : (which =? -1) = false) by lia.
  unfold Mix_Volume. rewrite Hw.
  rewrite (Mix_Volume_one_spec s which vol c arr) by done.
  destruct (Z.leb_spec 0 vol) as [Hv|Hv].
  - eexists. split; [reflexivity|]. split; [lia|]. split.
    { intros j Hj. by apply channel_at_put_ne; [|lia|]. }
    split; [done|]. split; [done|].
    erewrite Mix_Volume_one_spec; [| reflexivity | by apply channel_at_put_eq | done].
    simpl. destruct (Z.ltb_spec vol 0); [lia|]. f_equal.
    unfold volume_fields. destruct (Z.leb_spec 0 vol); [|lia]. simpl.
    unfold SDL_MIX_MAXVOLUME.
    destruct (Z.ltb_spec 128 vol); lia.
  - exists s. split; [reflexivity|]. split; [done|]. split; [done|].
    split; [done|]. split; [done|].
    rewrite (Mix_Volume_one_spec s which (-1) c arr) by done. simpl.
    by destruct (Z.ltb_spec vol 0); [|lia].
Qed.

Lemma sum_volumes_app (l1 l2 : list Mix_Channel) :
  sum_volumes (l1 ++ l2) = sum_volumes l1 + sum_volumes l2.
Proof. unfold sum_volumes. induction l1; simpl; lia. Qed.

Lemma Mix_Volume_all_spec (vol : Z) :
  ∀ (n : nat) (i prev : Z) (s : mixer_state) (arr : list Mix_Channel),
    mix_channel s = Some arr →
    0 ≤ i →
    i + Z.of_nat n ≤ Z.of_nat (length arr) →
    i + Z.of_nat n ≤ num_channels s →
    ∃ arr',
      Mix_Volume_all n i vol prev s =
        Ok (prev + sum_volumes (take n (drop (Z.to_nat i) arr)))
           (with_mix_channel (Some arr') s) ∧
      length arr' = length arr ∧
      ∀ j : nat,
        arr' !! j =
        if bool_decide (i ≤ Z.of_nat j < i + Z.of_nat n)
        then volume_fields vol <$> arr !! j
        else arr !! j.
Proof.
  induction n as [|n IH]; intros i prev s arr Hb Hi Hlen Hnum.
  - exists arr. split; [|split; [done|]].
    + simpl. munfold. rewrite Z.add_0_r. f_equal. by rewrite with_mix_channel_id.
    + intros j. case_bool_decide; [lia|done].
  - destruct (lookup_lt_is_Some_2 arr (Z.to_nat i)) as [c Hc]; [lia|].
    assert (Hat : channel_at s i = Some c).
    { unfold channel_at. rewrite Hb. by destruct (Z.leb_spec 0 i); [|lia]. }
    set (arr1 := if 0 <=? vol then <[Z.to_nat i := volume_fields vol c]> arr else arr).
    assert (Hfix : volume_fields vol <$> arr !! Z.to_nat i = arr1 !! Z.to_nat i).
    { unfold arr1. destruct (Z.leb_spec 0 vol).
      - rewrite list_lookup_insert_eq by lia. by rewrite Hc.
      - rewrite Hc. simpl. unfold volume_fields.
        by destruct (Z.leb_spec 0 vol); [lia|]. }
    assert (Hlen1 : length arr1 = length arr).
    { unfold arr1. destruct (0 <=? vol); [apply length_insert|done]. }
    assert (Hother : ∀ j : nat, j ≠ Z.to_nat i → arr1 !! j = arr !! j).
    { intros j Hj. unfold arr1. destruct (0 <=? vol); [|done].
      by apply list_lookup_insert_ne. }
    destruct (IH (i + 1) (prev + volume c) (with_mix_channel (Some arr1) s) arr1)
      as (arr' & Hall & Hlen' & Hlk); [done|lia|lia|simpl; lia|].
    exists arr'. split; [|split].
    + simpl. munfold. rewrite (Mix_Volume_one_spec s i vol c arr) by (done || lia).
      assert (Hs1 : (if 0 <=? vol
                     then with_mix_channel
                            (Some (<[Z.to_nat i := volume_fields vol c]> arr)) s
                     else s) = with_mix_channel (Some arr1) s).
      { unfold arr1. destruct (0 <=? vol); [done|].
        by rewrite with_mix_channel_id. }
      rewrite Hs1, Hall. f_equal.
      rewrite (drop_S arr c (Z.to_nat i)) by done. simpl.
      replace (Z.to_nat (i + 1)) with (S (Z.to_nat i)) by lia.
      assert (Hdrop : drop (S (Z.to_nat i)) arr1 = drop (S (Z.to_nat i)) arr).
      { apply list_eq. intros j. rewrite !lookup_drop. apply Hother. lia. }
      rewrite Hdrop. lia.
    + lia.
    + intros j. rewrite Hlk.
      destruct (decide (j = Z.to_nat i)) as [->|Hne].
      * rewrite (bool_decide_eq_false_2 (i + 1 ≤ _ < _)) by lia.
        rewrite bool_decide_eq_true_2 by lia. by rewrite Hfix.
      * rewrite Hother by done.
        repeat case_bool_decide; (done || lia).
Qed.

(** X2.  Mix_Volume(-1, vol) applies the single-channel form to every
    channel and returns the sum of the previous volumes divided by the
    channel count, with C's truncating division.  On a bank of zero channels
    the final division is a division by zero. *)
Theorem volume_broadcast_average
    (s : mixer_state) (arr : list Mix_Channel) (vol : Z) :
  mix_channel s = Some arr →
  num_channels s = Z.of_nat (length arr) →
  (arr = [] → Mix_Volume (-1) vol s = Crash DivByZero) ∧
  (arr ≠ [] →
   ∃ s',
     Mix_Volume (-1) vol s = Ok (sum_volumes arr ÷ num_channels s) s' ∧
     mix_channel s' = Some (volume_fields vol <$> arr) ∧
     trace s' = trace s ∧ heap s' = heap s).
Proof.
  intros Hb Hn.
  destruct (Mix_Volume_all_spec vol (length arr) 0 0 s arr Hb)
    as (arr' & Hall & Hlen & Hlk); [lia|lia|lia|].
  rewrite Z2Nat.inj_0, drop_0, firstn_all in Hall. simpl in Hall.
  unfold Mix_Volume. munfold. simpl. rewrite Hn, Nat2Z.id, Hall.
  split.
  - intros ->. reflexivity.
  - intros Hne. destruct (Z.eqb_spec (Z.of_nat (length arr)) 0) as [E|E].
    { destruct arr; [done|simpl in E; lia]. }
    eexists. split; [reflexivity|]. split; [|done].
    simpl. f_equal. apply list_eq. intros j.
    rewrite Hlk, list_lookup_fmap.
    case_bool_decide; [done|].
    rewrite (lookup_ge_None_2 arr j) by lia. done.
Qed.

(** ** Halting *)

Lemma halt_fields_idem (c : Mix_Channel) :
  halt_fields (halt_fields c) = halt_fields c.
Proof.
  destruct c as [ch pl pa sa vo lo ta ex st fa fv fr fl tf ef].
  unfold halt_fields. simpl.
  destruct (Z.eqb_spec pl 0) as [->|Hpl]; simpl;
    destruct (decide (fa = MIX_NO_FADING)) as [->|Hfa]; simpl; reflexivity.
Qed.

Lemma halt_fields_quiet (c : Mix_Channel) :
  playing (halt_fields c) = 0 ∧ expire (halt_fields c) = 0 ∧
  fading (halt_fields c) = MIX_NO_FADING ∧
  chunk (halt_fields c) = chunk c ∧
  (playing c ≠ 0 → looping (halt_fields c) = 0).
Proof.
  unfold halt_fields.
  destruct (Z.eqb_spec (playing c) 0) as [E|E]; simpl;
    destruct (decide (fading c = MIX_NO_FADING)); simpl; repeat split;
    done || lia.
Qed.

Lemma range_events_nil (F : chan_step) (cb : bool) (arr : list Mix_Channel)
    (n : nat) (lo : Z) :
  0 ≤ lo →
  (∀ (j : nat) c, arr !! j = Some c → (F cb (Z.of_nat j) c).2 = []) →
  range_events F cb arr n lo = [].
Proof.
  intros Hlo Hs. revert lo Hlo. induction n as [|n IH]; intros lo Hlo; [done|].
  simpl. rewrite IH by lia. simpl.
  destruct (arr !! Z.to_nat lo) as [c|] eqn:Hc; [|done].
  specialize (Hs _ _ Hc). by rewrite Z2Nat.id in Hs by lia.
Qed.

Lemma done_count_range_events (F : chan_step) (cb : bool)
    (arr : list Mix_Channel) :
  (∀ i c, Forall (on_channel i) (F cb i c).2) →
  ∀ (n : nat) (lo j : Z),
    0 ≤ lo →
    done_count j (range_events F cb arr n lo) =
    if bool_decide (lo ≤ j < lo + Z.of_nat n)
    then match arr !! Z.to_nat j with
         | Some c => done_count j (F cb j c).2
         | None => 0%nat
         end
    else 0%nat.
Proof.
  intros Hown. induction n as [|n IH]; intros lo j Hlo.
  - simpl. by case_bool_decide; [lia|].
  - simpl. rewrite done_count_app, IH by lia.
    destruct (decide (j = lo)) as [->|Hne].
    + rewrite bool_decide_eq_false_2 by lia.
      rewrite bool_decide_eq_true_2 by lia.
      by destruct (arr !! Z.to_nat lo).
    + assert (Hz : done_count j
                (match arr !! Z.to_nat lo with
                 | Some c => (F cb lo c).2
                 | None => []
                 end) = 0%nat).
      { destruct (arr !! Z.to_nat lo); [|done].
        by apply (on_channel_counts lo j). }
      rewrite Hz.
      repeat case_bool_decide; (lia || done).
Qed.

Lemma halt_step_own (cb : bool) (i : Z) (c : Mix_Channel) :
  Forall (on_channel i) (halt_step cb i c).2.
Proof.
  unfold halt_step. simpl.
  destruct (playing c =? 0); [constructor|apply on_channel_done_events].
Qed.

Lemma halt_all_spec (s : mixer_state) (arr : list Mix_Channel) :
  mix_channel s = Some arr →
  num_channels s = Z.of_nat (length arr) →
  ∃ s',
    Mix_HaltChannel (-1) s = Ok 0 s' ∧
    mix_channel s' = Some (halt_fields <$> arr) ∧
    num_channels s' = num_channels s ∧
    heap s' = heap s ∧
    (∀ i c, channel_at s i = Some c →
       done_count i (trace s') =
       (done_count i (trace s) +
        if (channel_done_callback s && negb (playing c =? 0))%Z
        then 1 else 0)%nat) ∧
    (∀ i c', channel_at s' i = Some c' →
       playing c' = 0 ∧ expire c' = 0 ∧ fading c' = MIX_NO_FADING) ∧
    Mix_HaltChannel (-1) s' = Ok 0 s'.
Proof.
  intros Hb Hn.
  destruct (for_range_runs true _ _ Mix_HaltChannel_one_runs
              (Z.to_nat (num_channels s)) 0 s arr Hb)
    as (arr' & Hfor & Hlen & Hlk); [lia|lia|lia|].
  assert (Harr : arr' = halt_fields <$> arr).
  { apply list_eq. intros j. rewrite Hlk, list_lookup_fmap.
    case_bool_decide; [done|].
    rewrite (lookup_ge_None_2 arr j) by lia. done. }
  subst arr'.
  set (evs := range_events halt_step (channel_done_callback s) arr
                (Z.to_nat (num_channels s)) 0) in *.
  set (s' := with_trace (evs ++ trace s)
               (with_mix_channel (Some (halt_fields <$> arr)) s)) in *.
  exists s'. split.
  { unfold Mix_HaltChannel, for_loop. munfold. simpl.
    rewrite Z.sub_0_r, Hfor. reflexivity. }
  split; [done|]. split; [done|]. split; [done|]. split.
  { intros i c Hc. destruct (channel_at_Some _ _ _ Hc) as (a & Ha & Hi & Hl).
    simplify_eq. simpl. rewrite done_count_app. unfold evs.
    rewrite (done_count_range_events halt_step _ arr (halt_step_own _))
      by lia.
    rewrite bool_decide_eq_true_2 by lia. rewrite Hl.
    unfold halt_step. simpl.
    destruct (playing c =? 0); simpl.
    - rewrite andb_false_r. change (done_count i []) with 0%nat. lia.
    - rewrite done_count_done_events, Z.eqb_refl, !andb_true_r. lia. }
  split.
  { intros i c' Hc'. unfold channel_at in Hc'. simpl in Hc'.
    destruct (0 <=? i); [|done].
    rewrite list_lookup_fmap in Hc'.
    destruct (arr !! Z.to_nat i) as [c|]; [|done]. simpl in Hc'.
    injection Hc' as <-.
    pose proof (halt_fields_quiet c) as (? & ? & ? & _). done. }
  destruct (for_range_runs true _ _ Mix_HaltChannel_one_runs
              (Z.to_nat (num_channels s')) 0 s' (halt_fields <$> arr))
    as (arr2 & Hfor2 & Hlen2 & Hlk2);
    [done|lia|simpl; rewrite length_fmap; lia|simpl; lia|].
  unfold Mix_HaltChannel, for_loop. munfold. simpl.
  rewrite Z.sub_0_r.
  change (num_channels s) with (num_channels s').
  rewrite Hfor2. f_equal.
  rewrite range_events_nil.
  - assert (Harr2 : arr2 = halt_fields <$> arr).
    { apply list_eq. intros j. rewrite Hlk2, list_lookup_fmap.
      case_bool_decide; [|done].
      destruct (arr !! j); [|done]. simpl. by rewrite halt_fields_idem. }
    rewrite Harr2. unfold s', with_trace, with_mix_channel. simpl. done.
  - lia.
  - intros j c. rewrite list_lookup_fmap.
    destruct (arr !! j) as [c0|]; [|done]. simpl. intros [= <-].
    pose proof (halt_fields_quiet c0) as (E & _).
    unfold halt_step. cbn [snd]. by rewrite E.
Qed.

(** X3.  Mix_HaltChannel(-1) returns 0 and halts every channel: the
    completion callback runs once for each channel whose [playing] was not
    zero and for no other, every channel ends with [playing = 0], no
    deadline and no fade, the channel count and the heap are kept, and a
    second call changes nothing at all. *)
Theorem halt_all_then_quiet (s : mixer_state) (arr : list Mix_Channel) :
  mix_channel s = Some arr →
  num_channels s = Z.of_nat (length arr) →
  ∃ s',
    Mix_HaltChannel (-1) s = Ok 0 s' ∧
    mix_channel s' = Some (halt_fields <$> arr) ∧
    num_channels s' = num_channels s ∧
    heap s' = heap s ∧
    (∀ i c, channel_at s i = Some c →
       done_count i (trace s') =
       (done_count i (trace s) +
        if (channel_done_callback s && negb (playing c =? 0))%Z
        then 1 else 0)%nat) ∧
    (∀ i c', channel_at s' i = Some c' →
       playing c' = 0 ∧ expire c' = 0 ∧ fading c' = MIX_NO_FADING) ∧
    Mix_HaltChannel (-1) s' = Ok 0 s'.
Proof. apply halt_all_spec. Qed.

(** ** Status queries *)

Lemma count_if_bounds (f : Mix_Channel → bool) (l : list Mix_Channel) :
  0 ≤ count_if f l ≤ Z.of_nat (length l).
Proof.
  unfold count_if. induction l as [|c l IH]; simpl; [lia|].
  destruct (f c); lia.
Qed.

Lemma count_if_zero (f : Mix_Channel → bool) (l : list Mix_Channel) :
  count_if f l = 0 ↔ ∀ (j : nat) c, l !! j = Some c → f c = false.
Proof.
  induction l as [|c l IH].
  - split; [intros _ j c; by rewrite lookup_nil|done].
  - pose proof (count_if_bounds f l). unfold count_if in *. simpl. split.
    + intros Hz j cj Hj. destruct (f c) eqn:E; [lia|].
      destruct j as [|j]; simpl in Hj; [by simplify_eq|].
      by apply (proj1 IH Hz j).
    + intros Hall. rewrite (Hall 0%nat c) by done.
      apply IH. intros j cj Hj. by apply (Hall (S j)).
Qed.

Lemma Mix_Playing_all_spec :
  ∀ (n : nat) (i status : Z) (s : mixer_state) (arr : list Mix_Channel),
    mix_channel s = Some arr →
    0 ≤ i →
    i + Z.of_nat n ≤ Z.of_nat (length arr) →
    Mix_Playing_all n i status s =
    Ok (status + count_if active (take n (drop (Z.to_nat i) arr))) s.
Proof.
  induction n as [|n IH]; intros i status s arr Hb Hi Hlen.
  - simpl. munfold. by rewrite Z.add_0_r.
  - destruct (lookup_lt_is_Some_2 arr (Z.to_nat i)) as [c Hc]; [lia|].
    simpl. munfold. rewrite get_channel_at.
    unfold channel_at. rewrite Hb.
    destruct (Z.leb_spec 0 i); [|lia]. rewrite Hc.
    rewrite (IH (i + 1) _ s arr) by (done || lia).
    rewrite (drop_S arr c (Z.to_nat i)) by done.
    replace (Z.to_nat (i + 1)) with (S (Z.to_nat i)) by lia.
    unfold count_if. simpl. f_equal. destruct (active c); lia.
Qed.

Lemma Mix_Paused_all_spec :
  ∀ (n : nat) (i status : Z) (s : mixer_state) (arr : list Mix_Channel),
    mix_channel s = Some arr →
    0 ≤ i →
    i + Z.of_nat n ≤ Z.of_nat (length arr) →
    Mix_Paused_all n i status s =
    Ok (status + count_if is_paused (take n (drop (Z.to_nat i) arr))) s.
Proof.
  induction n as [|n IH]; intros i status s arr Hb Hi Hlen.
  - simpl. munfold. by rewrite Z.add_0_r.
  - destruct (lookup_lt_is_Some_2 arr (Z.to_nat i)) as [c Hc]; [lia|].
    simpl. munfold. rewrite get_channel_at.
    unfold channel_at. rewrite Hb.
    destruct (Z.leb_spec 0 i); [|lia]. rewrite Hc.
    rewrite (IH (i + 1) _ s arr) by (done || lia).
    rewrite (drop_S arr c (Z.to_nat i)) by done.
    replace (Z.to_nat (i + 1)) with (S (Z.to_nat i)) by lia.
    unfold count_if, is_paused. simpl. f_equal.
    destruct (paused c =? 0); simpl; lia.
Qed.

Lemma Mix_Playing_broadcast (s : mixer_state) (arr : list Mix_Channel) :
  mix_channel s = Some arr →
  num_channels s = Z.of_nat (length arr) →
  Mix_Playing (-1) s = Ok (count_if active arr) s.
Proof.
  intros Hb Hn. unfold Mix_Playing. munfold. simpl.
  rewrite (Mix_Playing_all_spec _ 0 0 s arr) by (done || lia).
  rewrite Hn, Nat2Z.id, Z2Nat.inj_0, drop_0, firstn_all. reflexivity.
Qed.

(** X4.  Mix_Playing(-1) counts the channels on which the single-channel
    form answers 1: the count lies between 0 and the channel count, the
    state is not changed, and the count is 0 exactly when Mix_Playing
    answers 0 on every channel. *)
Theorem playing_broadcast_counts (s : mixer_state) (arr : list Mix_Channel) :
  mix_channel s = Some arr →
  num_channels s = Z.of_nat (length arr) →
  Mix_Playing (-1) s = Ok (count_if active arr) s ∧
  0 ≤ count_if active arr ≤ num_channels s ∧
  (count_if active arr = 0 ↔
   ∀ i, 0 ≤ i < num_channels s → Mix_Playing i s = Ok 0 s).
Proof.
  intros Hb Hn. split; [|split].
  - unfold Mix_Playing. munfold. simpl.
    rewrite (Mix_Playing_all_spec _ 0 0 s arr) by (done || lia).
    rewrite Hn, Nat2Z.id, Z2Nat.inj_0, drop_0, firstn_all. reflexivity.
  - rewrite Hn. apply count_if_bounds.
  - rewrite count_if_zero. split.
    + intros Hall i Hi.
      destruct (lookup_lt_is_Some_2 arr (Z.to_nat i)) as [c Hc]; [lia|].
      rewrite (Mix_Playing_at s i c);
        [|by rewrite (channel_at_lookup s arr) by (done || lia)|lia].
      by rewrite (Hall _ _ Hc).
    + intros Hall j c Hc.
      pose proof (lookup_lt_Some _ _ _ Hc) as Hj.
      specialize (Hall (Z.of_nat j)).
      rewrite (Mix_Playing_at s (Z.of_nat j) c) in Hall;
        [|by rewrite (channel_at_bank s arr)|lia].
      destruct (active c); [|done].
      assert (Ok (A:=Z) 1 s = Ok 0 s) as [=] by (apply Hall; lia).
Qed.

(** X5.  Mix_GetChunk, Mix_FadingChannel and Mix_Paused accept every
    integer: outside the bank they answer NULL, MIX_NO_FADING and 0 (a
    negative argument of Mix_Paused counts the paused channels), inside it
    they read the channel, and none of them changes the state. *)
Theorem guarded_queries_never_fault
    (s : mixer_state) (arr : list Mix_Channel) (which : Z) :
  mix_channel s = Some arr →
  num_channels s = Z.of_nat (length arr) →
  (∃ r, Mix_GetChunk which s = Ok r s ∧
        r = (channel_at s which ≫= chunk)) ∧
  (∃ r, Mix_FadingChannel which s = Ok r s ∧
        r = default MIX_NO_FADING (fading <$> channel_at s which)) ∧
  (∃ r, Mix_Paused which s = Ok r s ∧
        r = if which <? 0 then count_if is_paused arr
            else default 0 ((λ c, if is_paused c then 1 else 0)
                              <$> channel_at s which)).
Proof.
  intros Hb Hn.
  assert (Hout : which < 0 ∨ num_channels s ≤ which → channel_at s which = None).
  { intros H. unfold channel_at. rewrite Hb.
    destruct (Z.leb_spec 0 which); [|done].
    apply lookup_ge_None_2. lia. }
  assert (Hin : 0 ≤ which < num_channels s → ∃ c, channel_at s which = Some c).
  { intros H. apply channel_at_in_range; [by exists arr|done]. }
  split; [|split].
  - unfold Mix_GetChunk. munfold.
    destruct (Z.leb_spec 0 which); destruct (Z.ltb_spec which (num_channels s));
      simpl; try (rewrite Hout by lia; by eexists).
    destruct Hin as [c Hc]; [lia|]. rewrite get_channel_at, Hc. by eexists.
  - unfold Mix_FadingChannel. munfold.
    destruct (Z.ltb_spec which 0); destruct (Z.leb_spec (num_channels s) which);
      simpl; try (rewrite Hout by lia; by eexists).
    destruct Hin as [c Hc]; [lia|]. rewrite get_channel_at, Hc. by eexists.
  - unfold Mix_Paused. munfold.
    destruct (Z.ltb_spec which 0).
    + rewrite (Mix_Paused_all_spec _ 0 0 s arr) by (done || lia).
      rewrite Hn, Nat2Z.id, Z2Nat.inj_0, drop_0, firstn_all. by eexists.
    + destruct (Z.ltb_spec which (num_channels s)).
      * destruct Hin as [c Hc]; [lia|]. rewrite get_channel_at, Hc.
        eexists. split; [reflexivity|]. simpl. unfold is_paused.
        by destruct (paused c =? 0).
      * rewrite Hout by lia. by eexists.
Qed.

(** ** Pausing *)

Lemma to_int_zero (z : Z) : 0 ≤ z ≤ UINT32_MAX → (to_int z = 0 ↔ z = 0).
Proof.
  intros Hz. unfold UINT32_MAX in Hz.
  destruct (Z.lt_ge_cases z (2 ^ 31)).
  - rewrite to_int_id by (unfold INT_MAX; lia). done.
  - unfold to_int.
    replace (z + 2 ^ 31) with (z - 2 ^ 31 + 1 * 2 ^ 32) by lia.
    rewrite Z.mod_add, Z.mod_small by lia. lia.
Qed.

Lemma Mix_Paused_at (s : mixer_state) (i : Z) (c : Mix_Channel) :
  channel_at s i = Some c →
  i < num_channels s →
  Mix_Paused i s = Ok (if paused c =? 0 then 0 else 1) s.
Proof.
  intros Hc Hn. destruct (channel_at_Some _ _ _ Hc) as (arr & Hb & Hi & Hl).
  unfold Mix_Paused. munfold.
  destruct (Z.ltb_spec i 0); [lia|].
  destruct (Z.ltb_spec i (num_channels s)); [|lia].
  by rewrite get_channel_at, Hc.
Qed.

(** X6.  Mix_Pause stores the tick count itself in [paused], and
    Mix_Paused tests that field against zero: a playing channel paused at
    tick [now] is reported paused exactly when [now] is not 0.  Mix_Resume
    then always leaves it reported as not paused. *)
Theorem pause_stamp_decides_paused
    (s : mixer_state) (which now now' : Z) (c : Mix_Channel) :
  channel_at s which = Some c →
  which < num_channels s →
  0 < playing c →
  0 ≤ now ≤ UINT32_MAX →
  ∃ s1 s2,
    Mix_Pause which now s = Ok tt s1 ∧
    Mix_Paused which s1 = Ok (if now =? 0 then 0 else 1) s1 ∧
    Mix_Resume which now' s1 = Ok tt s2 ∧
    Mix_Paused which s2 = Ok 0 s2.
Proof.
  intros Hc Hn Hpl Hnow.
  destruct (channel_at_Some _ _ _ Hc) as (arr & Hb & Hi & Hl).
  assert (Hw : (which =? -1) = false) by lia.
  assert (Hlt : (which <? num_channels s) = true) by lia.
  set (c1 := set_paused (to_int now) c).
  set (s1 := with_mix_channel (Some (<[Z.to_nat which := c1]> arr)) s).
  assert (H1 : channel_at s1 which = Some c1)
    by (apply channel_at_put_eq; lia).
  set (c2 := resume_fields now' c1).
  set (s2 := with_mix_channel
               (Some (<[Z.to_nat which := c2]> (<[Z.to_nat which := c1]> arr))) s1).
  exists s1, s2. split.
  { unfold Mix_Pause, pause_channel. munfold. rewrite Hw, Hlt.
    rewrite get_channel_at, Hc.
    destruct (Z.ltb_spec 0 (playing c)); [|lia].
    by apply (put_channel_at _ _ c). }
  split.
  { rewrite (Mix_Paused_at s1 which c1) by done. simpl.
    pose proof (to_int_zero now Hnow).
    destruct (Z.eqb_spec (to_int now) 0); destruct (Z.eqb_spec now 0);
      try done; intuition lia. }
  split.
  { unfold Mix_Resume, resume_channel. munfold.
    replace (num_channels s1) with (num_channels s) by reflexivity.
    rewrite Hw, Hlt, get_channel_at, H1.
    replace (playing c1) with (playing c) by reflexivity.
    destruct (Z.ltb_spec 0 (playing c)); [|lia].
    by apply (put_channel_at _ _ c1). }
  rewrite (Mix_Paused_at s2 which c2); [|apply channel_at_put_eq|done].
  - unfold c2, resume_fields. by destruct (0 <? expire c1).
  - rewrite length_insert. lia.
Qed.

(** X7.  The callback skips a paused channel altogether: whatever the tick
    count, its deadline and its fade, the channel is bit for bit the same
    afterwards, nothing of it is mixed and no completion is notified. *)
Theorem paused_channel_is_frozen
    (s : mixer_state) (i now len : Z) (c : Mix_Channel) (fuel : nat) :
  wf s →
  len < Z.of_nat fuel →
  channel_at s i = Some c →
  paused c ≠ 0 →
  ∃ s',
    mix_channels fuel now len s = Ok tt s' ∧
    channel_at s' i = Some c ∧
    done_count i (trace s') = done_count i (trace s) ∧
    mixed_bytes i (trace s') = mixed_bytes i (trace s).
Proof.
  intros Hwf Hfuel Hc Hpa.
  destruct (mix_channels_spec fuel now len s Hwf Hfuel)
    as (s' & Hmix & _ & _ & _ & Hch).
  destruct (Hch i c Hc) as (v & k & Hk & Hc' & Hd & Hm).
  exists s'. split; [exact Hmix|].
  unfold mix_block in Hk. destruct (Z.eqb_spec (paused c) 0); [done|].
  injection Hk as <-. simpl in *.
  split; [exact Hc'|]. rewrite Hd, Hm. split; [done|].
  change (mixed_bytes i []) with 0. lia.
Qed.

(** ** Deadlines *)

Lemma chan_ok_set_expire (hp : gmap positive Mix_Chunk) (d : Z)
    (c : Mix_Channel) :
  chan_ok hp c → chan_ok hp (set_expire d c).
Proof. intros [H1 H2]. split; [exact H1|exact H2]. Qed.

Lemma expire_on_channel (s : mixer_state) (which ticks now : Z)
    (c : Mix_Channel) :
  wf s →
  channel_at s which = Some c →
  which < num_channels s →
  let d := if 0 <? ticks then to_u32 (now + ticks) else 0 in
  ∃ s1,
    Mix_ExpireChannel which ticks now s = Ok 1 s1 ∧
    wf s1 ∧
    channel_at s1 which = Some (set_expire d c) ∧
    (∀ j, j ≠ which → channel_at s1 j = channel_at s j) ∧
    trace s1 = trace s ∧
    channel_done_callback s1 = channel_done_callback s.
Proof.
  intros (arr & Hb & Hnn & Hok) Hc Hn d.
  destruct (channel_at_Some _ _ _ Hc) as (a & Ha & Hi & Hl). simplify_eq.
  exists (with_mix_channel (Some (<[Z.to_nat which := set_expire d c]> arr)) s).
  split.
  { unfold Mix_ExpireChannel, Mix_ExpireChannel_one. munfold.
    destruct (Z.eqb_spec which (-1)); [lia|].
    destruct (Z.ltb_spec which (num_channels s)); [|lia].
    rewrite get_channel_at, Hc.
    by rewrite (put_channel_at _ _ c s arr). }
  split.
  { eexists. split; [reflexivity|]. split; [simpl; by rewrite length_insert|].
    simpl. apply Forall_insert; [done|].
    apply chan_ok_set_expire. eapply Forall_lookup_1; done. }
  split; [apply channel_at_put_eq; lia|].
  split; [|done].
  intros j Hj. by apply channel_at_put_ne; [|lia|].
Qed.

(** X8.  Mix_ExpireChannel on a channel inside the bank returns 1 and
    stores the deadline, leaving the other channels alone: 0 for a tick
    count of zero or less, [(now + ticks) mod 2^32] for a positive one,
    which is [now + ticks] when that fits 32 bits.  The first callback that
    runs strictly after a nonzero deadline on the unpaused channel stops it
    without mixing a byte and notifies its completion, whether or not the
    channel was playing. *)
Theorem deadline_stops_channel
    (s : mixer_state) (which ticks now now' len : Z) (c : Mix_Channel)
    (fuel : nat) :
  wf s →
  len < Z.of_nat fuel →
  channel_at s which = Some c →
  which < num_channels s →
  let deadline := if 0 <? ticks then to_u32 (now + ticks) else 0 in
  ∃ s1,
    Mix_ExpireChannel which ticks now s = Ok 1 s1 ∧
    channel_at s1 which = Some (set_expire deadline c) ∧
    (∀ j, j ≠ which → channel_at s1 j = channel_at s j) ∧
    (ticks ≤ 0 → deadline = 0) ∧
    (0 < ticks → deadline = (now + ticks) mod 2 ^ 32) ∧
    (0 < ticks → 0 ≤ now + ticks ≤ UINT32_MAX → deadline = now + ticks) ∧
    (paused c = 0 →
     0 < deadline < now' →
     ∃ s2 c2,
       mix_channels fuel now' len s1 = Ok tt s2 ∧
       channel_at s2 which = Some c2 ∧
       c2 = expire_fields c ∧
       active c2 = false ∧
       done_count which (trace s2) =
         (done_count which (trace s) +
          if channel_done_callback s then 1 else 0)%nat ∧
       mixed_bytes which (trace s2) = mixed_bytes which (trace s)).
Proof.
  intros Hwf Hfuel Hc Hn deadline.
  destruct (expire_on_channel s which ticks now c Hwf Hc Hn)
    as (s1 & Hexp & Hwf1 & Hc1 & Hothers & Ht1 & Hcb1).
  fold deadline in Hc1.
  exists s1. split; [exact Hexp|]. split; [exact Hc1|].
  split; [exact Hothers|]. split.
  { intros Ht. unfold deadline. by destruct (Z.ltb_spec 0 ticks); [lia|]. }
  split.
  { intros Ht. unfold deadline. by destruct (Z.ltb_spec 0 ticks); [|lia]. }
  split.
  { intros Ht Hfit. unfold deadline. destruct (Z.ltb_spec 0 ticks); [|lia].
    by apply to_u32_id. }
  intros Hpa Hlate.
  destruct (mix_channels_spec fuel now' len s1 Hwf1 Hfuel)
    as (s2 & Hmix & _ & _ & _ & Hch).
  destruct (Hch which _ Hc1) as (v & k & Hk & Hc2 & Hd & Hm).
  rewrite (expired_block fuel (channel_done_callback s1) (heap s1) which
             now' len v (set_expire deadline c)) in Hk by done.
  injection Hk as <-. simpl in *.
  exists s2, (expire_fields c). split; [exact Hmix|]. split; [exact Hc2|].
  split; [done|]. split; [done|].
  rewrite Hd, Hm, Ht1, Hcb1, done_count_done_events, Z.eqb_refl, andb_true_r.
  rewrite mixed_bytes_done_events. split; lia.
Qed.

(** ** Choosing a channel *)

Lemma first_free_spec (s : mixer_state) (arr : list Mix_Channel) (n : nat)
    (r : Z) :
  mix_channel s = Some arr →
  0 ≤ r →
  r + Z.of_nat n ≤ Z.of_nat (length arr) →
  ∃ w,
    first_free n r s = Ok w s ∧
    r ≤ w ≤ r + Z.of_nat n ∧
    (∀ j c, r ≤ j < w → channel_at s j = Some c → 0 < playing c) ∧
    (w < r + Z.of_nat n → ∃ c, channel_at s w = Some c ∧ playing c ≤ 0).
Proof.
  intros Hb. revert r. induction n as [|n IH]; intros r Hr Hlen.
  - exists r. split; [done|]. split; [lia|]. split; intros; lia.
  - assert (∃ c, channel_at s r = Some c) as [c Hc].
    { rewrite (channel_at_lookup s arr) by done.
      apply lookup_lt_is_Some_2. lia. }
    simpl. munfold. rewrite get_channel_at, Hc.
    destruct (Z.leb_spec (playing c) 0).
    + exists r. split; [done|]. split; [lia|]. split; [intros; lia|].
      intros _. by exists c.
    + destruct (IH (r + 1)) as (w & Hw & Hrange & Hbusy & Hfree); [lia..|].
      exists w. split; [done|]. split; [lia|]. split.
      * intros j cj Hj Hcj. destruct (decide (j = r)) as [->|].
        -- by simplify_eq.
        -- apply (Hbusy j cj); [lia|done].
      * intros Hlt. apply Hfree. lia.
Qed.

Lemma play_on_channel_fields (s : mixer_state) (which loops ticks now : Z)
    (p : positive) (ck : Mix_Chunk) (c0 : Mix_Channel) :
  wf s →
  channel_at s which = Some c0 →
  which < num_channels s →
  heap s !! p = Some ck →
  0 ≤ alen ck ≤ INT_MAX →
  0 < frame_width_of (mixer_format s) (mixer_channels s) →
  let L := alen ck - alen ck mod frame_width_of (mixer_format s) (mixer_channels s) in
  0 < L →
  ∃ s1,
    Mix_PlayChannelTimed which (Some p) loops ticks now s = Ok which s1 ∧
    wf s1 ∧
    channel_at s1 which =
      Some (play_fields p (set_alen L ck) loops ticks now c0) ∧
    (∀ j, j ≠ which → channel_at s1 j = channel_at s j) ∧
    heap s1 = <[p := set_alen L ck]> (heap s) ∧
    num_channels s1 = num_channels s.
Proof.
  intros Hwf Hc Hlt Hp Hlen Hfw L HL.
  destruct (play_on_channel s which loops ticks now p ck L c0)
    as (s1 & Hplay & Hwf1 & _); try done.
  exists s1. split; [exact Hplay|]. split; [exact Hwf1|].
  destruct Hwf as (arr & Hb & Hn & Hok).
  destruct (channel_at_Some _ _ _ Hc) as (a & Ha & Hi & Hl). simplify_eq.
  assert (HLr : 0 < L ≤ INT_MAX).
  { pose proof (Z.mod_pos_bound (alen ck) _ Hfw). unfold L. lia. }
  set (ck' := set_alen L ck) in *.
  set (hp1 := <[p := ck']> (heap s)).
  set (c1 := play_fields p ck' loops ticks now c0).
  set (evs := if active c0 then done_events (channel_done_callback s) which else []).
  assert (E : Mix_PlayChannelTimed which (Some p) loops ticks now s =
              Ok which (with_mix_channel (Some (<[Z.to_nat which := c1]> arr))
                          (with_trace (evs ++ trace s) (with_heap hp1 s)))).
  { unfold Mix_PlayChannelTimed. munfold.
    rewrite (checkchunkintegral_spec p ck) by (done || lia).
    fold L. fold ck'. fold hp1.
    rewrite to_int_id by (unfold INT_MAX in *; lia).
    destruct (Z.eqb_spec L 0); [lia|].
    destruct (Z.eqb_spec which (-1)); [lia|].
    replace (num_channels (with_heap hp1 s)) with (num_channels s) by reflexivity.
    destruct (Z.leb_spec 0 which); [|lia].
    destruct (Z.ltb_spec which (num_channels s)); [|lia]. simpl.
    rewrite (Mix_Playing_at _ which c0) by done.
    unfold _Mix_channel_done_playing, get_chunk. munfold. simpl.
    destruct (active c0); simpl in *;
      unfold hp1 at 1; rewrite lookup_insert_eq;
      rewrite get_channel_at;
      unfold channel_at; simpl; rewrite Hb;
      (destruct (Z.leb_spec 0 which); [|lia]); rewrite Hl;
      unfold put_channel; simpl; rewrite Hb;
      (destruct (Z.leb_spec 0 which); [|lia]);
      (destruct (Z.ltb_spec which (Z.of_nat (length arr))); [|lia]);
      simpl; unfold evs; simpl; by destruct s. }
  rewrite E in Hplay. injection Hplay as <-.
  split; [apply channel_at_put_eq; lia|].
  split; [|done].
  intros j Hj. unfold channel_at. simpl. rewrite Hb.
  destruct (Z.leb_spec 0 j); [|done].
  apply list_lookup_insert_ne. lia.
Qed.

Lemma auto_pick_spec (s : mixer_state) (loops ticks now : Z)
    (p : positive) (ck : Mix_Chunk) :
  wf s →
  heap s !! p = Some ck →
  0 ≤ alen ck ≤ INT_MAX →
  0 < frame_width_of (mixer_format s) (mixer_channels s) →
  let L := alen ck - alen ck mod frame_width_of (mixer_format s) (mixer_channels s) in
  0 < L →
  0 ≤ reserved_channels s ≤ num_channels s →
  ∃ w s1,
    Mix_PlayChannelTimed (-1) (Some p) loops ticks now s = Ok w s1 ∧
    (∀ j c, reserved_channels s ≤ j → j < w ∨ w = -1 →
            channel_at s j = Some c → 0 < playing c) ∧
    (w = -1 → s1 = with_heap (<[p := set_alen L ck]> (heap s)) s) ∧
    (w ≠ -1 →
     reserved_channels s ≤ w < num_channels s ∧
     ∃ c, channel_at s w = Some c ∧ playing c ≤ 0 ∧
          channel_at s1 w =
            Some (play_fields p (set_alen L ck) loops ticks now c) ∧
          (∀ j, j ≠ w → channel_at s1 j = channel_at s j) ∧
          num_channels s1 = num_channels s).
Proof.
  intros Hwf Hp Hlen Hfw L HL Hres.
  pose proof Hwf as (arr & Hb & Hn & Hok).
  assert (HLr : 0 < L ≤ INT_MAX).
  { pose proof (Z.mod_pos_bound (alen ck) _ Hfw). unfold L. lia. }
  set (s0 := with_heap (<[p := set_alen L ck]> (heap s)) s).
  destruct (first_free_spec s0 arr
              (Z.to_nat (num_channels s - reserved_channels s))
              (reserved_channels s))
    as (w0 & Hff & Hrange & Hbusy & Hfree); [done|lia|lia|].
  rewrite Z2Nat.id in Hrange, Hfree by lia.
  assert (Hpre : ∀ w' : Z,
            Mix_PlayChannelTimed (-1) (Some p) loops ticks now s =
            (which' ← mret (if w0 =? num_channels s then -1 else w0);
             when ((0 <=? which') && (which' <? num_channels s))
               (st ← Mix_Playing which';
                when (negb (st =? 0)) (_Mix_channel_done_playing which');;
                ck ← get_chunk p;
                c ← get_channel which';
                put_channel which' (play_fields p ck loops ticks now c));;
             mret which') s0).
  { intros _. unfold Mix_PlayChannelTimed. munfold.
    rewrite (checkchunkintegral_spec p ck) by (done || lia).
    fold L. fold s0.
    rewrite to_int_id by (unfold INT_MAX in *; lia).
    destruct (Z.eqb_spec L 0); [lia|].
    replace (num_channels s0) with (num_channels s) by reflexivity.
    replace (reserved_channels s0) with (reserved_channels s) by reflexivity.
    simpl. by rewrite Hff. }
  specialize (Hpre 0).
  destruct (Z.eqb_spec w0 (num_channels s)) as [->|Hne].
  - exists (-1), s0. split.
    { rewrite Hpre. munfold. reflexivity. }
    split.
    { intros j c Hj _ Hc. destruct (channel_at_Some _ _ _ Hc) as (a & Ha & Hi & _).
      simplify_eq. apply (Hbusy j c); [lia|done]. }
    split; [done|]. done.
  - destruct (Hfree ltac:(lia)) as (c & Hc & Hpl).
    change (channel_at s0 w0) with (channel_at s w0) in Hc.
    destruct (play_on_channel_fields s w0 loops ticks now p ck c)
      as (s1 & Hplay & _ & Hc1 & Hoth & _ & Hn1); try done; [lia|].
    exists w0, s1. split.
    { rewrite Hpre, <- Hplay. unfold Mix_PlayChannelTimed. munfold.
      rewrite (checkchunkintegral_spec p ck) by (done || lia).
      fold L. fold s0.
      rewrite to_int_id by (unfold INT_MAX in *; lia).
      destruct (Z.eqb_spec L 0); [lia|].
      destruct (Z.eqb_spec w0 (-1)); [lia|].
      reflexivity. }
    split.
    { intros j cj Hj [Hlt|Hm1] Hcj; [|lia]. apply (Hbusy j cj); [lia|done]. }
    split; [lia|]. intros _. split; [lia|]. by exists c.
Qed.

(** X9.  Mix_ReserveChannels stores its argument, lowered to the channel
    count, and returns it.  With a reservation [r >= 0] in place,
    Mix_PlayChannelTimed(-1, ...) takes the first channel at or after [r]
    that is not playing, which then holds the chunk, and answers -1 without
    touching a channel when all of them play.  A negative reservation is
    stored unchanged, and the next such call reads in front of the array. *)
Theorem reserve_then_auto_pick
    (s : mixer_state) (num loops ticks now : Z) (p : positive)
    (ck : Mix_Chunk) :
  wf s →
  heap s !! p = Some ck →
  0 ≤ alen ck ≤ INT_MAX →
  0 < frame_width_of (mixer_format s) (mixer_channels s) →
  let L := alen ck - alen ck mod frame_width_of (mixer_format s) (mixer_channels s) in
  0 < L →
  let r := Z.min num (num_channels s) in
  ∃ sr,
    Mix_ReserveChannels num s = Ok r sr ∧
    reserved_channels sr = r ∧
    (num < 0 →
     Mix_PlayChannelTimed (-1) (Some p) loops ticks now sr =
       Crash (OutOfBounds num)) ∧
    (0 ≤ num →
     ∃ w s1,
       Mix_PlayChannelTimed (-1) (Some p) loops ticks now sr = Ok w s1 ∧
       (∀ j c, r ≤ j → j < w ∨ w = -1 →
               channel_at s j = Some c → 0 < playing c) ∧
       (w = -1 → ∀ j, channel_at s1 j = channel_at s j) ∧
       (w ≠ -1 →
        r ≤ w < num_channels s ∧
        (∃ c, channel_at s w = Some c ∧ playing c ≤ 0) ∧
        Mix_GetChunk w s1 = Ok (Some p) s1 ∧
        (∀ j, j ≠ w → channel_at s1 j = channel_at s j))).
Proof.
  intros Hwf Hp Hlen Hfw L HL r.
  pose proof Hwf as (arr & Hb & Hn & Hok).
  set (sr := with_reserved_channels r s).
  assert (Hwfr : wf sr) by (exists arr; done).
  exists sr. split.
  { unfold Mix_ReserveChannels. munfold. unfold sr, r.
    destruct (Z.ltb_spec (num_channels s) num).
    - by rewrite Z.min_r by lia.
    - by rewrite Z.min_l by lia. }
  split; [done|]. split.
  - intros Hneg.
    assert (HLr : 0 < L ≤ INT_MAX).
    { pose proof (Z.mod_pos_bound (alen ck) _ Hfw). unfold L. lia. }
    unfold Mix_PlayChannelTimed. munfold.
    rewrite (checkchunkintegral_spec p ck) by (done || lia).
    change (frame_width_of (mixer_format sr) (mixer_channels sr))
      with (frame_width_of (mixer_format s) (mixer_channels s)).
    fold L. rewrite to_int_id by (unfold INT_MAX in *; lia).
    destruct (Z.eqb_spec L 0); [lia|]. simpl.
    assert (r = num) as -> by (unfold r; lia).
    destruct (Z.to_nat (num_channels s - num)) as [|k] eqn:Hk; [lia|].
    simpl. munfold. unfold get_channel. simpl. rewrite Hb.
    by destruct (Z.leb_spec 0 num); [lia|].
  - intros Hnum.
    destruct (auto_pick_spec sr loops ticks now p ck)
      as (w & s1 & Hplay & Hbusy & Hnone & Hsome); try done.
    { simpl. unfold r. lia. }
    exists w, s1. split; [exact Hplay|].
    split; [exact Hbusy|]. split.
    { intros Hw j. by rewrite (Hnone Hw). }
    intros Hw.
    destruct (Hsome Hw) as (Hrange & c & Hc & Hpl & Hc1 & Hoth & Hn1).
    split; [exact Hrange|]. split; [by exists c|]. split; [|exact Hoth].
    unfold Mix_GetChunk. munfold. rewrite Hn1.
    change (num_channels sr) with (num_channels s) in *.
    change (reserved_channels sr) with r in *.
    destruct (Z.leb_spec 0 w); [|lia].
    destruct (Z.ltb_spec w (num_channels s)); [|lia]. simpl.
    by rewrite get_channel_at, Hc1.
Qed.

(** ** Groups *)

Lemma Mix_GroupChannels_loop_spec (tg : Z) :
  ∀ (n : nat) (from status : Z) (s : mixer_state) (arr : list Mix_Channel),
    mix_channel s = Some arr →
    num_channels s = Z.of_nat (length arr) →
    from + Z.of_nat n ≤ num_channels s →
    ∃ arr',
      Mix_GroupChannels_loop n from tg status s =
        Ok (status + Z.max 0 (from + Z.of_nat n - Z.max from 0))
           (with_mix_channel (Some arr') s) ∧
      length arr' = length arr ∧
      ∀ j c, arr !! j = Some c →
             arr' !! j =
               Some (if (from <=? Z.of_nat j) && (Z.of_nat j <? from + Z.of_nat n)
                     then set_tag tg c else c).
Proof.
  induction n as [|n IH]; intros from status s arr Hb Hn Hto.
  - exists arr. split.
    { simpl. munfold. rewrite with_mix_channel_id by done.
      do 2 f_equal. lia. }
    split; [done|]. intros j c Hj.
    zcases.
  - simpl. munfold. unfold Mix_GroupChannel at 1. munfold.
    destruct (Z.ltb_spec from 0) as [Hneg|Hpos]; simpl.
    + destruct (IH (from + 1) (status + 0) s arr) as (arr' & Hrun & Hl & Hat);
        [done|done|lia|].
      exists arr'. split; [rewrite Hrun; do 2 f_equal; lia|].
      split; [done|]. intros j c Hj. rewrite (Hat j c Hj).
      f_equal.
      zcases.
    + destruct (Z.ltb_spec (num_channels s) from); [lia|].
      assert (∃ c0, arr !! Z.to_nat from = Some c0) as [c0 Hc0]
        by (apply lookup_lt_is_Some_2; lia).
      assert (Hc : channel_at s from = Some c0)
        by (by rewrite (channel_at_lookup s arr)).
      rewrite get_channel_at, Hc.
      rewrite (put_channel_at _ _ c0 s arr) by done.
      set (arr1 := <[Z.to_nat from := set_tag tg c0]> arr).
      destruct (IH (from + 1) (status + 1)
                  (with_mix_channel (Some arr1) s) arr1)
        as (arr' & Hrun & Hl & Hat).
      { done. }
      { simpl. unfold arr1. by rewrite length_insert. }
      { simpl. lia. }
      exists arr'. split; [rewrite Hrun; f_equal; lia|].
      split; [by rewrite Hl; unfold arr1; rewrite length_insert|].
      intros j c Hj.
      destruct (decide (j = Z.to_nat from)) as [->|Hne].
      * rewrite (Hat (Z.to_nat from) (set_tag tg c0)).
        2:{ unfold arr1. apply list_lookup_insert_eq.
            by apply lookup_lt_Some in Hj. }
        simplify_eq.
        zcases.
      * rewrite (Hat j c).
        2:{ unfold arr1. by rewrite list_lookup_insert_ne. }
        zcases.
Qed.

Lemma Mix_GroupChannels_loop_overrun (tg : Z) :
  ∀ (n : nat) (from status : Z) (s : mixer_state) (arr : list Mix_Channel),
    mix_channel s = Some arr →
    num_channels s = Z.of_nat (length arr) →
    from ≤ num_channels s < from + Z.of_nat n →
    Mix_GroupChannels_loop n from tg status s =
      Crash (OutOfBounds (num_channels s)).
Proof.
  induction n as [|n IH]; intros from status s arr Hb Hn Hto; [lia|].
  simpl. munfold. unfold Mix_GroupChannel at 1. munfold.
  destruct (Z.ltb_spec from 0) as [Hneg|Hpos]; simpl.
  - apply (IH _ _ s arr); [done|done|lia].
  - destruct (Z.ltb_spec (num_channels s) from); [lia|].
    destruct (decide (from = num_channels s)) as [->|Hne].
    + rewrite get_channel_at.
      rewrite (channel_at_lookup s arr) by (done || lia).
      rewrite lookup_ge_None_2 by lia. done.
    + assert (∃ c0, arr !! Z.to_nat from = Some c0) as [c0 Hc0]
        by (apply lookup_lt_is_Some_2; lia).
      assert (Hc : channel_at s from = Some c0)
        by (by rewrite (channel_at_lookup s arr)).
      rewrite get_channel_at, Hc.
      rewrite (put_channel_at _ _ c0 s arr) by done.
      set (arr1 := <[Z.to_nat from := set_tag tg c0]> arr).
      rewrite (IH (from + 1) (status + 1)
                 (with_mix_channel (Some arr1) s) arr1); first done.
      * done.
      * simpl. unfold arr1. by rewrite length_insert.
      * simpl. lia.
Qed.

(** X10.  Mix_GroupChannels(from, to, tag) with [to] below the channel
    count tags exactly the channels [max from 0 .. to] and returns how many
    they are; nothing else changes.  When the range reaches the channel
    count, the guard of Mix_GroupChannel lets the index one past the array
    through, and the call writes outside the array. *)
Theorem group_range_retags
    (s : mixer_state) (arr : list Mix_Channel) (from to tg : Z) :
  mix_channel s = Some arr →
  num_channels s = Z.of_nat (length arr) →
  (to < num_channels s →
   ∃ s',
     Mix_GroupChannels from to tg s =
       Ok (Z.max 0 (to + 1 - Z.max from 0)) s' ∧
     num_channels s' = num_channels s ∧
     trace s' = trace s ∧
     heap s' = heap s ∧
     ∀ j c, channel_at s j = Some c →
            channel_at s' j =
              Some (if (from <=? j) && (j <=? to) then set_tag tg c else c)) ∧
  (from ≤ num_channels s ≤ to →
   Mix_GroupChannels from to tg s = Crash (OutOfBounds (num_channels s))).
Proof.
  intros Hb Hn. split.
  - intros Hto. unfold Mix_GroupChannels.
    destruct (Z.lt_ge_cases to from) as [Hempty|Hsome].
    { exists s. replace (Z.to_nat (to - from + 1)) with 0%nat by lia.
      split; [simpl; munfold; do 2 f_equal; lia|].
      split; [done|]. split; [done|]. split; [done|].
      intros j c ->. zcases. }
    destruct (Mix_GroupChannels_loop_spec tg (Z.to_nat (to - from + 1)) from 0 s arr)
      as (arr' & Hrun & Hl & Hat); [done|done|lia|].
    exists (with_mix_channel (Some arr') s). split.
    { rewrite Hrun. f_equal. lia. }
    split; [done|]. split; [done|]. split; [done|].
    intros j c Hc.
    destruct (channel_at_Some _ _ _ Hc) as (a & Ha & Hj & Hl'). simplify_eq.
    rewrite (channel_at_lookup _ arr') by (done || lia).
    rewrite (Hat _ c Hl'). f_equal. rewrite Z2Nat.id by lia.
    zcases.
  - intros Hto. unfold Mix_GroupChannels.
    apply (Mix_GroupChannels_loop_overrun tg _ from 0 s arr); [done|done|lia].
Qed.

Lemma Mix_GroupAvailable_loop_spec (s : mixer_state) (arr : list Mix_Channel)
    (tg : Z) (n : nat) (i : Z) :
  mix_channel s = Some arr →
  0 ≤ i →
  i + Z.of_nat n ≤ Z.of_nat (length arr) →
  ∃ w,
    Mix_GroupAvailable_loop n i tg s = Ok w s ∧
    (w = -1 ∨ i ≤ w < i + Z.of_nat n) ∧
    (∀ j c, i ≤ j < i + Z.of_nat n → j < w ∨ w = -1 →
            channel_at s j = Some c → available tg c = false) ∧
    (w ≠ -1 → ∃ c, channel_at s w = Some c ∧ available tg c = true).
Proof.
  intros Hb. revert i. induction n as [|n IH]; intros i Hi Hlen.
  - exists (-1). split; [done|]. split; [lia|]. split; [intros; lia|done].
  - assert (∃ c, channel_at s i = Some c) as [c Hc].
    { rewrite (channel_at_lookup s arr) by done.
      apply lookup_lt_is_Some_2. lia. }
    simpl. munfold. rewrite get_channel_at, Hc.
    destruct (available tg c) eqn:Hav.
    + exists i. split; [done|]. split; [lia|]. split; [intros; lia|].
      intros _. by exists c.
    + destruct (IH (i + 1)) as (w & Hw & Hrange & Hbusy & Hfree); [lia..|].
      exists w. split; [done|]. split; [lia|]. split; [|done].
      intros j cj Hj Hjw Hcj. destruct (decide (j = i)) as [->|].
      * by simplify_eq.
      * apply (Hbusy j cj); [lia|lia|done].
Qed.

(** X11.  Mix_GroupAvailable(tag) returns the lowest channel that is not
    playing and carries the tag (any channel when the tag is -1), or -1
    when there is none; it does not change the state. *)
Theorem group_available_is_first
    (s : mixer_state) (arr : list Mix_Channel) (tg : Z) :
  mix_channel s = Some arr →
  num_channels s = Z.of_nat (length arr) →
  ∃ w,
    Mix_GroupAvailable tg s = Ok w s ∧
    (w = -1 ∨ 0 ≤ w < num_channels s) ∧
    (∀ j c, j < w ∨ w = -1 → channel_at s j = Some c →
            playing c ≤ 0 → tg ≠ -1 ∧ tag c ≠ tg) ∧
    (w ≠ -1 →
     ∃ c, channel_at s w = Some c ∧ playing c ≤ 0 ∧ (tg = -1 ∨ tag c = tg)).
Proof.
  intros Hb Hn.
  destruct (Mix_GroupAvailable_loop_spec s arr tg (Z.to_nat (num_channels s)) 0)
    as (w & Hw & Hrange & Hbusy & Hfree); [done|lia|lia|].
  exists w. split; [unfold Mix_GroupAvailable; munfold; exact Hw|].
  split; [lia|]. split.
  - intros j c Hj Hc Hpl.
    destruct (channel_at_Some _ _ _ Hc) as (a & Ha & Hjr & _). simplify_eq.
    specialize (Hbusy j c ltac:(lia) Hj Hc). unfold available in Hbusy. lia.
  - intros Hne. destruct (Hfree Hne) as (c & Hc & Hav).
    exists c. unfold available in Hav. split; [done|]. lia.
Qed.

Lemma Mix_GroupOldest_loop_spec (s : mixer_state) (arr : list Mix_Channel)
    (tg now : Z) (n : nat) :
  mix_channel s = Some arr →
  ∀ i mintime chan,
    0 ≤ i →
    i + Z.of_nat n ≤ Z.of_nat (length arr) →
    oldest_upto s tg now i mintime chan →
    ∃ w m,
      Mix_GroupOldest_loop n i tg mintime chan s = Ok w s ∧
      oldest_upto s tg now (i + Z.of_nat n) m w.
Proof.
  intros Hb. induction n as [|n IH]; intros i mintime chan Hi Hlen Hinv.
  - exists chan, mintime. split; [done|]. by rewrite Z.add_0_r.
  - assert (∃ c, channel_at s i = Some c) as [c Hc].
    { rewrite (channel_at_lookup s arr) by done.
      apply lookup_lt_is_Some_2. lia. }
    simpl. munfold. rewrite get_channel_at, Hc.
    destruct Hinv as (Hle & Hall & Hnone & Hsome).
    replace (i + Z.of_nat (S n)) with (i + 1 + Z.of_nat n) by lia.
    destruct (in_group_playing tg c) eqn:Hg; simpl;
      [destruct (Z.leb_spec (start_time c) mintime) as [Hs|Hs]|].
    + apply IH; [lia|lia|]. split; [lia|]. split; [|split; [lia|]].
      * intros j cj Hj Hcj Hgj Hsj.
        destruct (decide (j = i)) as [->|Hne]; [simplify_eq; lia|].
        destruct (Hall j cj ltac:(lia) Hcj Hgj Hsj) as (? & ? & ?). lia.
      * intros _. split; [lia|]. by exists c.
    + apply IH; [lia|lia|]. split; [lia|]. split; [|split; [done|]].
      * intros j cj Hj Hcj Hgj Hsj.
        destruct (decide (j = i)) as [->|Hne].
        -- simplify_eq. destruct (decide (chan = -1)) as [E|E]; [|lia].
           specialize (Hnone E). lia.
        -- apply Hall; [lia|done..].
      * intros E. destruct (Hsome E) as (? & ?). split; [lia|done].
    + apply IH; [lia|lia|]. split; [lia|]. split; [|split; [done|]].
      * intros j cj Hj Hcj Hgj Hsj.
        destruct (decide (j = i)) as [->|Hne]; [simplify_eq; congruence|].
        apply Hall; [lia|done..].
      * intros E. destruct (Hsome E) as (? & ?). split; [lia|done].
Qed.

(** X12.  Mix_GroupOldest(tag) returns a playing channel of the group whose
    start time is the earliest, the highest such channel when several
    started together.  Only channels that started at or before the current
    tick count compete; it answers -1 exactly when there is none. *)
Theorem group_oldest_is_earliest
    (s : mixer_state) (arr : list Mix_Channel) (tg now : Z) :
  mix_channel s = Some arr →
  num_channels s = Z.of_nat (length arr) →
  ∃ w,
    Mix_GroupOldest tg now s = Ok w s ∧
    (w = -1 →
     ∀ j c, channel_at s j = Some c → 0 < playing c →
            tag c = tg ∨ tg = -1 → now < start_time c) ∧
    (w ≠ -1 →
     0 ≤ w < num_channels s ∧
     ∃ c, channel_at s w = Some c ∧ 0 < playing c ∧
          (tag c = tg ∨ tg = -1) ∧ start_time c ≤ now ∧
          ∀ j cj, channel_at s j = Some cj → 0 < playing cj →
                  tag cj = tg ∨ tg = -1 →
                  start_time c ≤ start_time cj ∧
                  (start_time cj = start_time c → j ≤ w)).
Proof.
  intros Hb Hn.
  destruct (Mix_GroupOldest_loop_spec s arr tg now (Z.to_nat (num_channels s))
              Hb 0 now (-1))
    as (w & m & Hw & Hle & Hall & Hnone & Hsome); [lia|lia| |].
  { split; [lia|]. split; [intros; lia|]. done. }
  rewrite Z.add_0_l, Z2Nat.id in Hall, Hsome by lia.
  assert (Hin : ∀ c, 0 < playing c → tag c = tg ∨ tg = -1 →
                     in_group_playing tg c = true).
  { intros c. unfold in_group_playing. lia. }
  exists w. split; [unfold Mix_GroupOldest; munfold; exact Hw|]. split.
  - intros E j c Hc Hpl Htg.
    destruct (channel_at_Some _ _ _ Hc) as (a & Ha & Hjr & _). simplify_eq.
    destruct (Z.lt_ge_cases now (start_time c)); [done|].
    destruct (Hall j c) as (? & _); [lia|done|by apply Hin|lia|done].
  - intros E. destruct (Hsome E) as (Hr & c & Hc & Hg & Hm).
    split; [lia|]. exists c. split; [done|].
    unfold in_group_playing in Hg.
    split; [lia|]. split; [lia|]. split; [lia|].
    intros j cj Hcj Hpl Htg.
    destruct (channel_at_Some _ _ _ Hcj) as (a & Ha & Hjr & _). simplify_eq.
    destruct (Z.lt_ge_cases now (start_time cj)); [lia|].
    destruct (Hall j cj) as (_ & ? & ?); [lia|done|by apply Hin|lia|].
    split; [lia|]. intros Heq. apply H1. lia.
Qed.

(** ** The callback stays inside the buffers *)

Lemma vf_samples (v : Z) (c : Mix_Channel) :
  samples (volume_fields v c) = samples c.
Proof. unfold volume_fields. by destruct (0 <=? v). Qed.

Lemma reads_within_done_events (hp : gmap positive Mix_Chunk)
    (p : option positive) (len : Z) (cb : bool) (i : Z) :
  Forall (reads_within hp p len) (done_events cb i).
Proof. destruct cb; simpl; repeat constructor. Qed.

Lemma fade_step_keeps (cb : bool) (hp : gmap positive Mix_Chunk)
    (i now len : Z) (c c1 : Mix_Channel) (evs : list event) :
  fade_step cb i now c = inl (c1, evs) →
  samples c1 = samples c ∧ chunk c1 = chunk c ∧
  (playing c1 = playing c ∨ playing c1 = 0) ∧
  Forall (reads_within hp (chunk c) len) evs.
Proof.
  unfold fade_step.
  destruct (_ && _).
  { intros [= <- <-]. simpl.
    repeat split; auto using reads_within_done_events. }
  destruct (decide (fading c = MIX_NO_FADING)) as [E|E].
  { intros [= <- <-]. repeat split; auto. }
  destruct (fade_length c <? to_u32 (now - ticks_fade c)).
  { destruct (fading c) eqn:Ef; intros [= <- <-]; vf_simpl;
      rewrite ?vf_samples;
      repeat split; auto using reads_within_done_events. }
  destruct (fade_length c =? 0); [done|].
  destruct (fading c) eqn:Ef; intros [= <- <-]; vf_simpl;
    rewrite ?vf_samples; repeat split; auto.
Qed.

Lemma chunk_of_lookup (hp : gmap positive Mix_Chunk) (c : Mix_Channel)
    (ck : Mix_Chunk) :
  chunk_of hp c = inl ck ↔ ∃ q, chunk c = Some q ∧ hp !! q = Some ck.
Proof.
  unfold chunk_of. split.
  - destruct (chunk c) as [q|]; [|done].
    destruct (hp !! q) as [ck'|] eqn:E; [|done].
    intros [= ->]. by exists q.
  - intros (q & -> & ->). done.
Qed.

Lemma mix_pass_bounds (cb : bool) (hp : gmap positive Mix_Chunk)
    (i len : Z) (p : option positive) (ck : Mix_Chunk) (fuel : nat) :
  ∀ k k',
    chunk (cur_chan k) = p →
    chunk_of hp (cur_chan k) = inl ck →
    0 ≤ cur_index k →
    ptr_ok ck (cur_chan k) →
    Forall (reads_within hp p len) (cur_events k) →
    mix_pass fuel cb hp i len k = inl k' →
    chunk (cur_chan k') = p ∧ 0 ≤ cur_index k' ∧ ptr_ok ck (cur_chan k') ∧
    Forall (reads_within hp p len) (cur_events k').
Proof.
  induction fuel as [|fuel IH]; intros k k' Hp Hck Hidx Hptr Hev; simpl.
  - destruct (_ && _); [done|]. by intros [= <-].
  - destruct (Z.ltb_spec 0 (playing (cur_chan k))); simpl;
      [|by intros [= <-]].
    destruct (Z.ltb_spec (cur_index k) len); [|by intros [= <-]].
    rewrite Hck.
    set (mixable := if len - cur_index k <? playing (cur_chan k)
                    then len - cur_index k else playing (cur_chan k)).
    assert (Hm : 0 < mixable ∧ mixable ≤ len - cur_index k ∧
                 mixable ≤ playing (cur_chan k)).
    { unfold mixable.
      destruct (Z.ltb_spec (len - cur_index k) (playing (cur_chan k))); lia. }
    destruct Hptr as (Hal & Hpl & Hsum).
    apply IH; simpl.
    + done.
    + unfold chunk_of in *. simpl. done.
    + lia.
    + split; [done|]. simpl. split; lia.
    + apply Forall_app. split.
      * destruct (_ && _); [apply reads_within_done_events|constructor].
      * constructor; [|done]. simpl.
        split; [lia|]. split; [lia|]. split; [lia|].
        apply chunk_of_lookup in Hck as (q & Hq & Hh).
        exists q, ck. split; [congruence|]. split; [done|]. lia.
Qed.

Lemma mix_wrap_bounds (hp : gmap positive Mix_Chunk)
    (i len : Z) (p : option positive) (ck : Mix_Chunk) (fuel : nat) :
  ∀ k k',
    chunk (cur_chan k) = p →
    chunk_of hp (cur_chan k) = inl ck →
    0 ≤ cur_index k →
    ptr_ok ck (cur_chan k) →
    Forall (reads_within hp p len) (cur_events k) →
    mix_wrap fuel hp i len k = inl k' →
    chunk (cur_chan k') = p ∧ 0 ≤ cur_index k' ∧ ptr_ok ck (cur_chan k') ∧
    Forall (reads_within hp p len) (cur_events k').
Proof.
  induction fuel as [|fuel IH]; intros k k' Hp Hck Hidx Hptr Hev; simpl.
  - destruct (_ && _); [done|]. by intros [= <-].
  - destruct (negb _); simpl; [|by intros [= <-]].
    destruct (Z.ltb_spec (cur_index k) len); [|by intros [= <-]].
    rewrite Hck.
    destruct Hptr as (Hal & Hpl & Hsum).
    rewrite !(to_int_id (alen ck)) by (unfold INT_MAX in *; lia).
    set (remaining := if alen ck <? len - cur_index k
                      then alen ck else len - cur_index k).
    assert (Hm : 0 < remaining ∧ remaining ≤ len - cur_index k ∧
                 remaining ≤ alen ck).
    { unfold remaining.
      destruct (Z.ltb_spec (alen ck) (len - cur_index k)); lia. }
    rewrite (to_int_id (alen ck - remaining)) by (unfold INT_MAX in *; lia).
    apply IH; simpl.
    + by destruct (0 <? looping (cur_chan k)).
    + unfold chunk_of in *. simpl. by destruct (0 <? looping (cur_chan k)).
    + lia.
    + split; [done|]. simpl. split; lia.
    + constructor; [|done]. simpl.
      split; [lia|]. split; [lia|]. split; [lia|].
      apply chunk_of_lookup in Hck as (q & Hq & Hh).
      exists q, ck. split; [congruence|]. split; [done|]. lia.
Qed.

Lemma mix_rewind_bounds (hp : gmap positive Mix_Chunk) (ck : Mix_Chunk)
    (k k' : cursor) :
  chunk_of hp (cur_chan k) = inl ck →
  ptr_ok ck (cur_chan k) →
  mix_rewind hp k = inl k' →
  chunk (cur_chan k') = chunk (cur_chan k) ∧ ptr_ok ck (cur_chan k') ∧
  cur_events k' = cur_events k.
Proof.
  intros Hck Hptr. unfold mix_rewind.
  destruct (_ && _); [|by intros [= <-]].
  rewrite Hck. intros [= <-]. simpl.
  destruct Hptr as (Hal & Hpl & Hsum).
  rewrite to_int_id by (unfold INT_MAX in *; lia).
  split; [by destruct (0 <? looping (cur_chan k))|].
  split; [|done]. split; [done|]. simpl. split; lia.
Qed.

Lemma mix_block_bounds (fuel : nat) (cb : bool) (hp : gmap positive Mix_Chunk)
    (i now len vol : Z) (c : Mix_Channel) (k : cursor) :
  in_chunk hp c →
  mix_block fuel cb hp i now len vol c = inl k →
  in_chunk hp (cur_chan k) ∧ chunk (cur_chan k) = chunk c ∧
  Forall (reads_within hp (chunk c) len) (cur_events k).
Proof.
  intros Hin. unfold mix_block.
  destruct (paused c =? 0); [|by intros [= <-]].
  destruct (fade_step cb i now c) as [[c1 evs]|] eqn:Hf; [|done].
  destruct (fade_step_keeps cb hp i now len c c1 evs Hf)
    as (Hs & Hc & Hpl & Hev).
  destruct (Z.ltb_spec 0 (playing c1)) as [Hpos|Hzero].
  - destruct Hpl as [Hpl|Hpl]; [|lia].
    destruct (Hin ltac:(lia)) as (q & ck & Hq & Hh & Hal & Hr & Hsum).
    assert (Hck : chunk_of hp c1 = inl ck).
    { apply chunk_of_lookup. exists q. split; [congruence|done]. }
    destruct (mix_pass _ _ _ _ _ _) as [k1|] eqn:H1; [|done].
    destruct (mix_wrap _ _ _ _ _) as [k2|] eqn:H2; [|done].
    intros H3.
    apply (mix_pass_bounds cb hp i len (chunk c) ck) in H1
      as (C1 & I1 & P1 & E1); simpl; try done.
    2:{ split; [done|]. split; lia. }
    assert (Hck1 : chunk_of hp (cur_chan k1) = inl ck).
    { apply chunk_of_lookup. exists q. split; [congruence|done]. }
    apply (mix_wrap_bounds hp i len (chunk c) ck) in H2
      as (C2 & I2 & P2 & E2); try done.
    assert (Hck2 : chunk_of hp (cur_chan k2) = inl ck).
    { apply chunk_of_lookup. exists q. split; [congruence|done]. }
    apply (mix_rewind_bounds hp ck) in H3 as (C3 & P3 & E3); try done.
    split; [|split; [congruence|by rewrite E3]].
    intros _. exists q, ck. split; [congruence|done].
  - intros [= <-]. simpl. split; [|done]. intros ?. lia.
Qed.

Lemma mix_in_bounds_block (s : mixer_state) (i len : Z) (c : Mix_Channel)
    (evs : list event) :
  channel_at s i = Some c →
  Forall (on_channel i) evs →
  Forall (reads_within (heap s) (chunk c) len) evs →
  Forall (mix_in_bounds s len) evs.
Proof.
  intros Hc Hon Hev. induction evs as [|e evs IH]; [constructor|].
  inversion Hon; inversion Hev; subst. constructor; [|by apply IH].
  destruct e; try done. simpl in *. subst. by rewrite Hc.
Qed.

Lemma mix_in_bounds_same (s s1 : mixer_state) (len : Z) (evs : list event) :
  heap s1 = heap s →
  (∀ j, channel_at s1 j ≫= chunk = channel_at s j ≫= chunk) →
  Forall (mix_in_bounds s1 len) evs →
  Forall (mix_in_bounds s len) evs.
Proof.
  intros Hh Hc Hev. eapply Forall_impl; [exact Hev|].
  intros e. destruct e; try done.
  simpl. by rewrite Hh, Hc.
Qed.

Lemma mix_loop_bounds (fuel : nat) (now len : Z) :
  ∀ (n : nat) (lo vol vol' : Z) (s s' : mixer_state) (arr : list Mix_Channel),
    mix_channel s = Some arr →
    0 ≤ lo →
    Forall (in_chunk (heap s)) arr →
    mix_loop n fuel now len lo vol s = Ok vol' s' →
    ∃ arr' evs,
      s' = with_trace (evs ++ trace s) (with_mix_channel (Some arr') s) ∧
      Forall (in_chunk (heap s)) arr' ∧
      (∀ j, channel_at s' j ≫= chunk = channel_at s j ≫= chunk) ∧
      Forall (mix_in_bounds s len) evs.
Proof.
  induction n as [|n IH]; intros lo vol vol' s s' arr Hb Hlo Hin.
  - simpl. munfold. intros [= <- <-]. exists arr, []. split.
    { destruct s; simpl in *. by subst. }
    split; [done|]. split; [done|constructor].
  - simpl. munfold. rewrite get_channel_at.
    destruct (channel_at s lo) as [c|] eqn:Hc; [|done].
    destruct (channel_at_Some _ _ _ Hc) as (a & Ha & Hi & Hl). simplify_eq.
    destruct (mix_block _ _ _ _ _ _ _ _) as [k|] eqn:Hk; [|done].
    assert (Hinc : in_chunk (heap s) c)
      by (eapply Forall_lookup_1; [exact Hin|exact Hl]).
    destruct (mix_block_bounds _ _ _ _ _ _ _ _ _ Hinc Hk) as (Hink & Hch & Hev).
    assert (Hon : Forall (on_channel lo) (cur_events k)).
    { revert Hk. unfold mix_block.
      destruct (paused c =? 0); [|by intros [= <-]; constructor].
      destruct (fade_step _ _ _ _) as [[c1 evs1]|] eqn:Hf; [|done].
      assert (Hon1 : Forall (on_channel lo) evs1).
      { revert Hf. unfold fade_step.
        repeat (case_match; try done);
          intros [= <- <-]; auto using on_channel_done_events. }
      destruct (0 <? playing c1); [|by intros [= <-]].
      destruct (mix_pass _ _ _ _ _ _) as [k1|] eqn:H1; [|done].
      destruct (mix_wrap _ _ _ _ _) as [k2|] eqn:H2; [|done].
      intros H3.
      apply mix_pass_frame in H1 as (_ & E1 & _).
      apply mix_wrap_frame in H2 as (_ & E2).
      apply mix_rewind_frame in H3 as (_ & E3 & _).
      rewrite E3. auto. }
    rewrite (put_channel_at _ _ c s arr) by done.
    set (arr1 := <[Z.to_nat lo := cur_chan k]> arr).
    simpl.
    set (s1 := with_trace (cur_events k ++ trace s)
                 (with_mix_channel (Some arr1) s)).
    intros Hloop.
    destruct (IH (lo + 1) (cur_volume k) vol' s1 s' arr1)
      as (arr' & evs & -> & Hin' & Hch' & Hev'); [done|lia| |exact Hloop|].
    { simpl. unfold arr1. by apply Forall_insert. }
    assert (Hsame : ∀ j, channel_at s1 j ≫= chunk = channel_at s j ≫= chunk).
    { intros j. unfold channel_at. simpl. rewrite Hb.
      destruct (Z.leb_spec 0 j); [|done]. unfold arr1.
      destruct (decide (Z.to_nat lo = Z.to_nat j)) as [E|E].
      - rewrite <- E, list_lookup_insert_eq, Hl
          by (apply lookup_lt_Some in Hl; lia).
        simpl. by rewrite Hch.
      - by rewrite list_lookup_insert_ne. }
    exists arr', (evs ++ cur_events k). split.
    { unfold s1, with_trace, with_mix_channel. simpl. f_equal.
      by rewrite app_assoc. }
    split; [exact Hin'|]. split.
    { intros j. rewrite <- Hsame, <- Hch'. done. }
    apply Forall_app. split.
    + by apply (mix_in_bounds_same s s1).
    + by apply (mix_in_bounds_block s lo len c).
Qed.

Lemma mix_channels_bounds
    (s : mixer_state) (now len : Z) (fuel : nat) :
  wf s →
  (∀ i c, channel_at s i = Some c → in_chunk (heap s) c) →
  len < Z.of_nat fuel →
  ∃ s' evs,
    mix_channels fuel now len s = Ok tt s' ∧
    trace s' = evs ++ trace s ∧
    Forall (mix_in_bounds s len) evs ∧
    (∀ i c, channel_at s' i = Some c → in_chunk (heap s') c) ∧
    (∀ i, channel_at s' i ≫= chunk = channel_at s i ≫= chunk).
Proof.
  intros Hwf Hin Hfuel.
  pose proof Hwf as (arr & Hb & Hn & Hok).
  assert (Hbus : ∃ pre,
    Forall (mix_in_bounds s len) pre ∧
    mix_music_bus len s = Ok tt (with_trace (pre ++ trace s) s)).
  { unfold mix_music_bus. munfold. simpl. destruct (music_on s).
    - exists [EvMusic len; EvSilence len]. split; [|reflexivity].
      repeat constructor.
    - exists [EvSilence len]. split; [|reflexivity].
      repeat constructor. }
  destruct Hbus as (pre & Hpre & Hbus).
  set (s0 := with_trace (pre ++ trace s) s).
  destruct (mix_loop_spec fuel now len (Z.to_nat (num_channels s)) 0
              SDL_MIX_MAXVOLUME s0 arr)
    as (vol' & arr0 & evs0 & Hloop & _); [done|lia|lia|done|done|].
  pose proof Hloop as Hloop'.
  apply (mix_loop_bounds fuel now len _ _ _ _ _ _ arr) in Hloop'
    as (arr' & evs & Hs' & Hin' & Hch & Hev); [|done|lia|].
  2:{ apply Forall_lookup. intros j c Hj.
      apply (Hin (Z.of_nat j)). by rewrite (channel_at_bank _ arr). }
  rewrite Hs' in Hloop, Hch.
  set (post := if bool_decide (posteffects s ≠ [])
               then [EvPost len (posteffects s)] else []).
  exists (with_trace (post ++ evs ++ pre ++ trace s)
            (with_mix_channel (Some arr') s)),
         (post ++ evs ++ pre).
  split.
  { unfold mix_channels. munfold. rewrite Hbus. fold s0.
    replace (num_channels s0) with (num_channels s) by reflexivity.
    rewrite Hloop. simpl.
    unfold post. case_bool_decide; simpl; f_equal. }
  split; [simpl; by rewrite <- !app_assoc|].
  split.
  { apply Forall_app. split.
    - unfold post. case_bool_decide; repeat constructor.
    - apply Forall_app. split; [|done].
      by apply (mix_in_bounds_same s s0). }
  split.
  { intros i c Hc. simpl.
    destruct (channel_at_Some _ _ _ Hc) as (a & Ha & Hi & Hl).
    simpl in Ha. simplify_eq.
    eapply Forall_lookup_1; [exact Hin'|exact Hl]. }
  intros i. exact (Hch i).
Qed.

(** X13.  When every playing channel's read position lies inside its chunk
    ([samples + playing] is the end of the chunk's buffer), one call of the
    callback returns, every call of SDL_MixAudio it makes writes inside the
    stream of [len] bytes and reads inside the buffer of the chunk the
    channel holds, and the read positions are inside their chunks again
    afterwards; the channels keep their chunks. *)
Theorem callback_stays_in_bounds
    (s : mixer_state) (now len : Z) (fuel : nat) :
  wf s →
  (∀ i c, channel_at s i = Some c → in_chunk (heap s) c) →
  len < Z.of_nat fuel →
  ∃ s' evs,
    mix_channels fuel now len s = Ok tt s' ∧
    trace s' = evs ++ trace s ∧
    Forall (mix_in_bounds s len) evs ∧
    (∀ i c, channel_at s' i = Some c → in_chunk (heap s') c) ∧
    (∀ i, channel_at s' i ≫= chunk = channel_at s i ≫= chunk).
Proof. apply mix_channels_bounds. Qed.


(** ** Freeing a chunk *)

Lemma free_chunk_state (s : mixer_state) (p : positive) (ck : Mix_Chunk)
    (arr : list Mix_Channel) :
  heap s !! p = Some ck →
  mix_channel s = Some arr →
  num_channels s = Z.of_nat (length arr) →
  ∃ arr',
    Mix_FreeChunk (Some p) s =
      Ok tt (with_trace
               (free_events p ck ++ stop_events p arr ++ trace s)
               (with_heap (delete p (heap s))
                  (with_mix_channel (Some arr') s))) ∧
    length arr' = length arr ∧
    ∀ j c, arr !! j = Some c →
           arr' !! j =
             Some (if bool_decide (chunk c = Some p)
                   then set_looping 0 (set_playing 0 c) else c).
Proof.
  intros Hp Hb Hn.
  destruct (for_range_runs false _ _ (stop_if_chunk_runs p)
              (Z.to_nat (num_channels s)) 0 s arr Hb)
    as (arr' & Hfor & Hlen & Hlk); [lia|lia|done|].
  rewrite Hn, Nat2Z.id, stop_events_spec in Hfor.
  exists arr'. split; [|split; [done|]].
  - unfold Mix_FreeChunk, stop_chunk_channels, for_loop. munfold. rewrite Hb.
    rewrite bool_decide_eq_true_2 by done.
    rewrite Z.sub_0_r, Hn, Nat2Z.id, Hfor.
    unfold release_chunk, get_chunk, free_events. munfold. simpl. rewrite Hp.
    destruct (allocated ck =? 0); simpl; reflexivity.
  - intros j c Hj. rewrite Hlk, bool_decide_eq_true_2, Hj.
    + simpl. by rewrite stop_step_fst.
    + apply lookup_lt_Some in Hj. lia.
Qed.

(** X15.  After Mix_FreeChunk the chunk is gone from the heap, the state is
    still one the callback can run on, and the next callback reads only
    inside chunks that are still alive: no call of SDL_MixAudio is made for
    a channel that held the freed chunk. *)
Theorem freed_chunk_is_never_mixed
    (s : mixer_state) (p : positive) (ck : Mix_Chunk) (now len : Z)
    (fuel : nat) :
  wf s →
  (∀ i c, channel_at s i = Some c → in_chunk (heap s) c) →
  heap s !! p = Some ck →
  len < Z.of_nat fuel →
  ∃ s1 s2 evs,
    Mix_FreeChunk (Some p) s = Ok tt s1 ∧
    heap s1 !! p = None ∧
    wf s1 ∧
    mix_channels fuel now len s1 = Ok tt s2 ∧
    trace s2 = evs ++ trace s1 ∧
    Forall (mix_in_bounds s1 len) evs ∧
    Forall (λ e, ¬ mixes_chunk s p e) evs.
Proof.
  intros (arr & Hb & Hn & Hok) Hin Hp Hfuel.
  destruct (free_chunk_state s p ck arr Hp Hb Hn) as (arr' & Hfree & Hlen & Hat).
  set (s1 := with_trace _ _) in Hfree.
  assert (Hstep : ∀ j c', arr' !! j = Some c' →
            ∃ c, arr !! j = Some c ∧
                 c' = if bool_decide (chunk c = Some p)
                      then set_looping 0 (set_playing 0 c) else c).
  { intros j c' Hj.
    destruct (lookup_lt_is_Some_2 arr j) as [c Hc].
    { apply lookup_lt_Some in Hj. lia. }
    exists c. split; [done|]. rewrite (Hat j c Hc) in Hj. by simplify_eq. }
  assert (Hwf1 : wf s1).
  { exists arr'. split; [done|]. split; [simpl; lia|].
    apply Forall_lookup. intros j c' Hj.
    destruct (Hstep j c' Hj) as (c & Hc & ->).
    pose proof (Forall_lookup_1 _ _ _ _ Hok Hc) as [Hc1 Hc2].
    case_bool_decide as Hd.
    - split; [simpl; lia|exact Hc2].
    - split; [|exact Hc2]. intros Hpl.
      destruct (Hc1 Hpl) as (q & ckq & Hq & Hh & Hl).
      exists q, ckq. split; [done|]. split; [|done].
      simpl. rewrite lookup_delete_ne; [done|congruence]. }
  assert (Hin1 : ∀ i c, channel_at s1 i = Some c → in_chunk (heap s1) c).
  { intros i c' Hc'.
    destruct (channel_at_Some _ _ _ Hc') as (a & Ha & Hi & Hl).
    simpl in Ha. simplify_eq.
    destruct (Hstep _ _ Hl) as (c & Hc & ->).
    assert (Hcs : channel_at s i = Some c)
      by (rewrite (channel_at_lookup s arr) by (done || lia); done).
    case_bool_decide as Hd; [intros ?; simpl in *; lia|].
    intros Hpl. destruct (Hin i c Hcs Hpl) as (q & ckq & Hq & Hh & Hptr).
    exists q, ckq. split; [done|]. split; [|done].
    simpl. rewrite lookup_delete_ne; [done|congruence]. }
  destruct (mix_channels_bounds s1 now len fuel Hwf1 Hin1 Hfuel)
    as (s2 & evs & Hmix & Htr & Hev & _ & _).
  exists s1, s2, evs.
  split; [exact Hfree|]. split; [simpl; apply lookup_delete_eq|].
  split; [exact Hwf1|]. split; [exact Hmix|]. split; [exact Htr|].
  split; [exact Hev|].
  eapply Forall_impl; [exact Hev|].
  intros e. destruct e; try (by intros _ []).
  simpl. intros (_ & _ & _ & q & ckq & Hq & Hh & _) Hmixes.
  assert (Hsame : channel_at s1 channel ≫= chunk = channel_at s channel ≫= chunk).
  { unfold channel_at. simpl. rewrite Hb.
    destruct (Z.leb_spec 0 channel); [|done].
    destruct (arr !! Z.to_nat channel) as [c|] eqn:Hc.
    - rewrite (Hat _ c Hc). simpl. by case_bool_decide.
    - rewrite (lookup_ge_None_2 arr'); [done|].
      apply lookup_ge_None in Hc. lia. }
  rewrite Hsame, Hmixes in Hq. simplify_eq.
  by rewrite lookup_delete_eq in Hh.
Qed.

(** ** Pausing every channel *)

Lemma pause_channel_runs (now : Z) :
  runs_as false (pause_channel now) (pause_step now).
Proof.
  intros i s c Hc _. unfold pause_channel, pause_step, pause_fields. munfold.
  rewrite get_channel_at, Hc.
  destruct (channel_at_Some _ _ _ Hc) as (arr & Hb & Hi & Hl).
  destruct (0 <? playing c); simpl.
  - rewrite (put_channel_at _ _ c s arr) by done.
    unfold apply_step. simpl. rewrite Hb. simpl.
    unfold with_trace, with_mix_channel. simpl. by destruct s.
  - by rewrite apply_step_id.
Qed.

Lemma resume_channel_runs (now : Z) :
  runs_as false (resume_channel now) (resume_step now).
Proof.
  intros i s c Hc _. unfold resume_channel, resume_step, unpause_fields. munfold.
  rewrite get_channel_at, Hc.
  destruct (channel_at_Some _ _ _ Hc) as (arr & Hb & Hi & Hl).
  destruct (0 <? playing c); simpl.
  - rewrite (put_channel_at _ _ c s arr) by done.
    unfold apply_step. simpl. rewrite Hb. simpl.
    unfold with_trace, with_mix_channel. simpl. by destruct s.
  - by rewrite apply_step_id.
Qed.

Lemma silent_loop_maps (body : Z → M unit) (F : chan_step)
    (g : Mix_Channel → Mix_Channel) (s : mixer_state) (arr : list Mix_Channel) :
  runs_as false body F →
  (∀ cb i c, F cb i c = (g c, [])) →
  mix_channel s = Some arr →
  num_channels s = Z.of_nat (length arr) →
  for_loop 0 (num_channels s) body s =
    Ok tt (with_mix_channel (Some (g <$> arr)) s).
Proof.
  intros Hrun HF Hb Hn.
  destruct (for_range_runs false _ _ Hrun
              (Z.to_nat (num_channels s)) 0 s arr Hb)
    as (arr' & Hfor & Hlen & Hlk); [lia|lia|done|].
  rewrite range_events_silent in Hfor by (intros; by rewrite HF).
  assert (Harr : arr' = g <$> arr).
  { apply list_eq. intros j. rewrite Hlk, list_lookup_fmap.
    case_bool_decide.
    - destruct (arr !! j); [|done]. simpl. by rewrite HF.
    - rewrite (lookup_ge_None_2 arr j) by lia. done. }
  subst arr'. unfold for_loop. rewrite Z.sub_0_r, Hfor.
  reflexivity.
Qed.

Lemma count_if_fmap (f : Mix_Channel → bool) (g : Mix_Channel → Mix_Channel)
    (l : list Mix_Channel) :
  count_if f (g <$> l) = count_if (λ c, f (g c)) l.
Proof.
  unfold count_if. induction l as [|c l IH]; [done|].
  rewrite fmap_cons. simpl. by rewrite IH.
Qed.

Lemma count_if_ext (f f' : Mix_Channel → bool) (l : list Mix_Channel) :
  (∀ c, f c = f' c) → count_if f l = count_if f' l.
Proof.
  intros H. unfold count_if. induction l as [|c l IH]; simpl; [done|].
  by rewrite IH, H.
Qed.

Lemma Mix_Paused_broadcast (s : mixer_state) (arr : list Mix_Channel) :
  mix_channel s = Some arr →
  num_channels s = Z.of_nat (length arr) →
  Mix_Paused (-1) s = Ok (count_if is_paused arr) s.
Proof.
  intros Hb Hn. unfold Mix_Paused. munfold. simpl.
  rewrite (Mix_Paused_all_spec _ 0 0 s arr) by (done || lia).
  rewrite Hn, Nat2Z.id, Z2Nat.inj_0, drop_0, firstn_all. reflexivity.
Qed.

(** X16.  Mix_Pause(-1) at a tick other than 0 stamps every playing channel
    and no other, without any notification; Mix_Paused(-1) then counts the
    playing channels together with the idle ones that already carried a
    stamp.  Mix_Resume(-1) clears the stamp of the playing channels only:
    idle channels with a stamp are still counted as paused. *)
Theorem pause_all_resume_all
    (s : mixer_state) (arr : list Mix_Channel) (now now' : Z) :
  mix_channel s = Some arr →
  num_channels s = Z.of_nat (length arr) →
  0 < now ≤ UINT32_MAX →
  ∃ s1 s2,
    Mix_Pause (-1) now s = Ok tt s1 ∧
    mix_channel s1 = Some (pause_fields now <$> arr) ∧
    trace s1 = trace s ∧
    Mix_Paused (-1) s1 =
      Ok (count_if (λ c, (0 <? playing c) || is_paused c) arr) s1 ∧
    Mix_Resume (-1) now' s1 = Ok tt s2 ∧
    trace s2 = trace s ∧
    Mix_Paused (-1) s2 =
      Ok (count_if (λ c, (playing c <=? 0) && is_paused c) arr) s2.
Proof.
  intros Hb Hn Hnow.
  set (s1 := with_mix_channel (Some (pause_fields now <$> arr)) s).
  set (arr2 := unpause_fields now' <$> (pause_fields now <$> arr)).
  set (s2 := with_mix_channel (Some arr2) s1).
  assert (Hz : to_int now ≠ 0).
  { intros E. apply (proj1 (to_int_zero now ltac:(lia))) in E. lia. }
  exists s1, s2. split.
  { unfold Mix_Pause. munfold. simpl.
    apply (silent_loop_maps _ (pause_step now)); try done.
    apply pause_channel_runs. }
  split; [done|]. split; [done|]. split.
  { rewrite (Mix_Paused_broadcast s1 (pause_fields now <$> arr));
      [|done|simpl; by rewrite length_fmap].
    f_equal. rewrite count_if_fmap. apply count_if_ext. intros c.
    unfold pause_fields, is_paused.
    destruct (0 <? playing c); simpl; [|done].
    by destruct (Z.eqb_spec (to_int now) 0). }
  split.
  { unfold Mix_Resume. munfold. simpl.
    change (num_channels s) with (num_channels s1).
    apply (silent_loop_maps _ (resume_step now')); try done.
    - apply resume_channel_runs.
    - simpl. by rewrite length_fmap. }
  split; [done|].
  rewrite (Mix_Paused_broadcast s2 arr2);
    [|done|simpl; unfold arr2; by rewrite !length_fmap].
  f_equal. unfold arr2. rewrite !count_if_fmap. apply count_if_ext. intros c.
  unfold unpause_fields, pause_fields, is_paused, resume_fields.
  destruct (Z.ltb_spec 0 (playing c)); simpl.
  - destruct (Z.ltb_spec 0 (playing c)); [|lia].
    destruct (Z.leb_spec (playing c) 0); [lia|].
    by destruct (0 <? expire c).
  - destruct (Z.ltb_spec 0 (playing c)); [lia|].
    destruct (Z.leb_spec (playing c) 0); [|lia]. done.
Qed.

(** ** Halting a paused channel *)

(** X17.  Mix_HaltChannel does not clear [paused]: a channel halted while
    paused is still reported as paused, and Mix_Resume does nothing on it
    because it no longer plays. *)
Theorem halt_keeps_pause_stamp
    (s : mixer_state) (which now : Z) (c : Mix_Channel) :
  channel_at s which = Some c →
  which < num_channels s →
  paused c ≠ 0 →
  ∃ s1,
    Mix_HaltChannel which s = Ok 0 s1 ∧
    Mix_Paused which s1 = Ok 1 s1 ∧
    Mix_Resume which now s1 = Ok tt s1.
Proof.
  intros Hc Hn Hpa.
  destruct (halt_on_channel s which c Hc Hn) as (s1 & Hhalt & Hc1 & Ht).
  destruct (channel_at_Some _ _ _ Hc) as (arr & Hb & Hi & Hl).
  assert (Hn1 : num_channels s1 = num_channels s).
  { revert Hhalt. unfold Mix_HaltChannel. munfold.
    destruct (Z.eqb_spec which (-1)); [lia|].
    rewrite (Mix_HaltChannel_one_runs which s c Hc) by done.
    by intros [= <-]. }
  assert (Hp1 : paused (halt_fields c) = paused c).
  { unfold halt_fields.
    destruct (playing c =? 0); simpl;
      destruct (decide (_ = MIX_NO_FADING)); done. }
  exists s1. split; [exact Hhalt|]. split.
  - rewrite (Mix_Paused_at s1 which (halt_fields c)) by (done || lia).
    rewrite Hp1. by destruct (Z.eqb_spec (paused c) 0).
  - unfold Mix_Resume, resume_channel. munfold. rewrite Hn1.
    destruct (Z.eqb_spec which (-1)); [lia|].
    destruct (Z.ltb_spec which (num_channels s)); [|lia].
    rewrite get_channel_at, Hc1.
    pose proof (halt_fields_quiet c) as (E & _). rewrite E. done.
Qed.

(** ** Loading a chunk from memory *)

Lemma lor_low (a k low : Z) :
  0 ≤ k → 0 ≤ low < 2 ^ k → Z.lor (a * 2 ^ k) low = a * 2 ^ k + low.
Proof.
  intros Hk Hlow. symmetry. apply Z.add_nocarry_lor.
  apply Z.bits_inj'. intros n Hn.
  rewrite Z.land_spec, Z.bits_0.
  destruct (Z.lt_ge_cases n k).
  - by rewrite Z.mul_pow2_bits_low.
  - destruct (decide (low = 0)) as [->|Hne].
    + by rewrite Z.bits_0, andb_false_r.
    + rewrite (Z.bits_above_log2 low n), andb_false_r; [done|lia|].
      apply Z.log2_lt_pow2; [lia|].
      assert (2 ^ k ≤ 2 ^ n) by (apply Z.pow_le_mono_r; lia). lia.
Qed.

Lemma le32_of_bytes (b0 b1 b2 b3 : Z) :
  0 ≤ b0 < 256 → 0 ≤ b1 < 256 → 0 ≤ b2 < 256 → 0 ≤ b3 < 256 →
  le32_of b0 b1 b2 b3 = b0 + 256 * b1 + 65536 * b2 + 16777216 * b3.
Proof.
  intros H0 H1 H2 H3. unfold le32_of.
  rewrite !Z.shiftl_mul_pow2 by lia.
  assert (Ht : ∃ a3, to_int (b3 * 2 ^ 24) = a3 * 2 ^ 24 ∧
                     (a3 = b3 ∨ a3 = b3 - 256)).
  { destruct (Z.lt_ge_cases b3 128).
    - exists b3. split; [|by left]. apply to_int_id. unfold INT_MAX. lia.
    - exists (b3 - 256). split; [|by right]. unfold to_int.
      replace (b3 * 2 ^ 24 + 2 ^ 31)
        with (b3 * 2 ^ 24 - 2 ^ 31 + 1 * 2 ^ 32) by lia.
      rewrite Z.mod_add, Z.mod_small by lia. lia. }
  destruct Ht as (a3 & -> & Ha3).
  rewrite (lor_low a3 24) by lia.
  replace (a3 * 2 ^ 24 + b2 * 2 ^ 16) with ((a3 * 256 + b2) * 2 ^ 16) by lia.
  rewrite (lor_low _ 16) by lia.
  replace ((a3 * 256 + b2) * 2 ^ 16 + b1 * 2 ^ 8)
    with (((a3 * 256 + b2) * 256 + b1) * 2 ^ 8) by lia.
  rewrite (lor_low _ 8) by lia.
  unfold to_u32. destruct Ha3 as [->| ->].
  - rewrite Z.mod_small by lia. lia.
  - replace ((((b3 - 256) * 256 + b2) * 256 + b1) * 2 ^ 8 + b0)
      with (b0 + 256 * b1 + 65536 * b2 + 16777216 * b3 + (-1) * 2 ^ 32)
      by lia.
    rewrite Z.mod_add by lia. apply Z.mod_small. lia.
Qed.

Lemma le32_round_trip (n : Z) :
  0 ≤ n < 2 ^ 32 →
  le32_of (n mod 256) (n / 256 mod 256) (n / 65536 mod 256)
    (n / 16777216 mod 256) = n.
Proof.
  intros Hn.
  rewrite le32_of_bytes by (apply Z.mod_pos_bound; lia).
  pose proof (Z.div_mod n 256 ltac:(lia)).
  pose proof (Z.div_mod (n / 256) 256 ltac:(lia)).
  pose proof (Z.div_mod (n / 256 / 256) 256 ltac:(lia)).
  rewrite !Z.div_div in * by lia.
  change (256 * 256) with 65536 in *.
  change (65536 * 256) with 16777216 in *.
  assert (n / 16777216 < 256).
  { apply Z.div_lt_upper_bound; lia. }
  assert (0 ≤ n / 16777216) by (apply Z.div_pos; lia).
  rewrite (Z.mod_small (n / 16777216)) by lia. lia.
Qed.

Lemma read_u8_app (pre l : list Z) (k : nat) :
  read_u8 (pre ++ l) (Z.of_nat (length pre) + Z.of_nat k) =
  match l !! k with
  | Some b => inl b
  | None => inr (ReadOutside (Z.of_nat (length pre) + Z.of_nat k))
  end.
Proof.
  unfold read_u8.
  destruct (Z.leb_spec 0 (Z.of_nat (length pre) + Z.of_nat k)); [|lia].
  replace (Z.to_nat (Z.of_nat (length pre) + Z.of_nat k))
    with (length pre + k)%nat by lia.
  by rewrite lookup_app_r, Nat.add_comm, Nat.add_sub by lia.
Qed.

Lemma read_u8_end (bytes : list Z) :
  read_u8 bytes (Z.of_nat (length bytes)) =
  inr (ReadOutside (Z.of_nat (length bytes))).
Proof.
  unfold read_u8.
  destruct (Z.leb_spec 0 (Z.of_nat (length bytes))); [|lia].
  by rewrite Nat2Z.id, lookup_ge_None_2 by lia.
Qed.

(** One turn of the loop on a chunk that starts at the position. *)
Lemma quickload_scan_step (fuel : nat) (pre id pl rest : list Z) :
  length id = 4%nat →
  Z.of_nat (length pl) < 2 ^ 32 →
  quickload_scan (S fuel) (pre ++ wav_chunk (id, pl) ++ rest)
    (Z.of_nat (length pre)) =
  if bool_decide (id = data_magic)
  then inl (Z.of_nat (length pre) + 8, Z.of_nat (length pl))
  else quickload_scan fuel (pre ++ wav_chunk (id, pl) ++ rest)
         (Z.of_nat (length (pre ++ wav_chunk (id, pl)))).
Proof.
  intros Hid Hpl.
  destruct id as [|m0 [|m1 [|m2 [|m3 [|]]]]]; try done.
  set (n := Z.of_nat (length pl)).
  assert (Hr : ∀ k : nat,
            read_u8 (pre ++ wav_chunk ([m0; m1; m2; m3], pl) ++ rest)
              (Z.of_nat (length pre) + Z.of_nat k) =
            match (wav_chunk ([m0; m1; m2; m3], pl) ++ rest) !! k with
            | Some b => inl b
            | None => inr (ReadOutside (Z.of_nat (length pre) + Z.of_nat k))
            end) by (intros k; apply read_u8_app).
  cbn [quickload_scan].
  pose proof (Hr 0%nat) as R0. rewrite Z.add_0_r in R0.
  pose proof (Hr 1%nat) as R1. pose proof (Hr 2%nat) as R2.
  pose proof (Hr 3%nat) as R3. pose proof (Hr 4%nat) as R4.
  pose proof (Hr 5%nat) as R5. pose proof (Hr 6%nat) as R6.
  pose proof (Hr 7%nat) as R7.
  change (Z.of_nat 1) with 1 in R1. change (Z.of_nat 2) with 2 in R2.
  change (Z.of_nat 3) with 3 in R3. change (Z.of_nat 4) with 4 in R4.
  replace (Z.of_nat (length pre) + Z.of_nat 5)
    with (Z.of_nat (length pre) + 4 + 1) in R5 by lia.
  replace (Z.of_nat (length pre) + Z.of_nat 6)
    with (Z.of_nat (length pre) + 4 + 2) in R6 by lia.
  replace (Z.of_nat (length pre) + Z.of_nat 7)
    with (Z.of_nat (length pre) + 4 + 3) in R7 by lia.
  rewrite R0, R1, R2, R3, R4, R5, R6, R7.
  unfold wav_chunk, le32. cbn [fst snd app lookup list_lookup mbind scan_bind].
  fold n. rewrite le32_round_trip by lia.
  case_bool_decide; [unfold mret, scan_ret; do 2 f_equal; lia|].
  f_equal. rewrite length_app. unfold wav_chunk, le32. simpl.
  unfold n. lia.
Qed.

Lemma wav_chunks_cons (c : list Z * list Z) (cs : list (list Z * list Z)) :
  wav_chunks (c :: cs) = wav_chunk c ++ wav_chunks cs.
Proof. reflexivity. Qed.

Lemma wav_chunk_length (c : list Z * list Z) :
  length (wav_chunk c) = (length c.1 + 4 + length c.2)%nat.
Proof. unfold wav_chunk, le32. rewrite !length_app. simpl. lia. Qed.

Lemma quickload_scan_finds (payload rest : list Z) :
  Z.of_nat (length payload) < 2 ^ 32 →
  ∀ (cs : list (list Z * list Z)) (pre : list Z) (fuel : nat),
    Forall skipped cs →
    (length cs < fuel)%nat →
    quickload_scan fuel
      (pre ++ wav_chunks cs ++ wav_chunk (data_magic, payload) ++ rest)
      (Z.of_nat (length pre)) =
    inl (Z.of_nat (length pre) + Z.of_nat (length (wav_chunks cs)) + 8,
         Z.of_nat (length payload)).
Proof.
  intros Hp. induction cs as [|[id pl] cs IH]; intros pre fuel Hcs Hfuel.
  - destruct fuel as [|fuel]; [simpl in Hfuel; lia|].
    change (wav_chunks []) with (@nil Z). rewrite app_nil_l.
    rewrite quickload_scan_step by done.
    rewrite bool_decide_eq_true_2 by done. do 2 f_equal.
    change (length (@nil Z)) with 0%nat. lia.
  - destruct fuel as [|fuel]; [simpl in Hfuel; lia|].
    inversion Hcs as [|? ? (Hid & Hne & Hlen) Hcs']; subst.
    cbn [fst snd] in Hid, Hne, Hlen.
    rewrite wav_chunks_cons, <- !app_assoc.
    rewrite quickload_scan_step by done.
    rewrite bool_decide_eq_false_2 by done.
    rewrite (app_assoc pre).
    rewrite IH by (done || (simpl in Hfuel; lia)).
    f_equal. rewrite !length_app. f_equal. lia.
Qed.

Lemma quickload_scan_overruns :
  ∀ (cs : list (list Z * list Z)) (pre : list Z) (fuel : nat),
    Forall skipped cs →
    (length cs < fuel)%nat →
    quickload_scan fuel (pre ++ wav_chunks cs) (Z.of_nat (length pre)) =
    inr (ReadOutside (Z.of_nat (length (pre ++ wav_chunks cs)))).
Proof.
  induction cs as [|[id pl] cs IH]; intros pre fuel Hcs Hfuel.
  - destruct fuel as [|fuel]; [simpl in Hfuel; lia|].
    change (wav_chunks []) with (@nil Z). rewrite app_nil_r.
    cbn [quickload_scan]. by rewrite read_u8_end.
  - destruct fuel as [|fuel]; [simpl in Hfuel; lia|].
    inversion Hcs as [|? ? (Hid & Hne & Hlen) Hcs']; subst.
    cbn [fst snd] in Hid, Hne, Hlen.
    rewrite wav_chunks_cons.
    rewrite quickload_scan_step by done.
    rewrite bool_decide_eq_false_2 by done.
    rewrite (app_assoc pre).
    rewrite IH by (done || (simpl in Hfuel; lia)). done.
Qed.

Lemma wav_chunks_length (cs : list (list Z * list Z)) :
  Forall skipped cs → (8 * length cs ≤ length (wav_chunks cs))%nat.
Proof.
  induction 1 as [|c cs (Hid & _) _ IH]; [simpl; lia|].
  rewrite wav_chunks_cons, length_app, wav_chunk_length. simpl. lia.
Qed.

(** X18.  On a block made of a header of 12 bytes, any number of chunks
    whose identifier is not ["data"], laid out back to back without padding,
    and a ["data"] chunk, Mix_QuickLoad_WAV returns a chunk that is not
    owned ([allocated = 0]), at full volume, whose buffer starts right
    after the length field of the ["data"] chunk and whose length is the
    value of that field: the bytes it delimits are the payload. *)
Theorem quickload_finds_data
    (opened mem : Z) (p : positive) (hdr payload rest : list Z)
    (cs : list (list Z * list Z)) (s : mixer_state) :
  opened ≠ 0 →
  length hdr = 12%nat →
  Forall skipped cs →
  Z.of_nat (length payload) < 2 ^ 32 →
  let bytes := hdr ++ wav_chunks cs ++ wav_chunk (data_magic, payload) ++ rest in
  let off := 12 + Z.of_nat (length (wav_chunks cs)) + 8 in
  Mix_QuickLoad_WAV opened (Some p) mem bytes s =
    inl (Some p,
         with_heap
           (<[p := {| allocated := 0; abuf := mem + off;
                      alen := Z.of_nat (length payload);
                      chunk_volume := MIX_MAX_VOLUME |}]> (heap s)) s) ∧
  take (length payload) (drop (Z.to_nat off) bytes) = payload.
Proof.
  intros Hop Hhdr Hcs Hp bytes off. split.
  - unfold Mix_QuickLoad_WAV.
    destruct (Z.eqb_spec opened 0); [done|].
    replace 12 with (Z.of_nat (length hdr)) at 1 by lia.
    unfold bytes. rewrite quickload_scan_finds; [|done|done|].
    + cbn [mbind scan_bind]. unfold off. rewrite Hhdr. reflexivity.
    + pose proof (wav_chunks_length cs Hcs). rewrite !length_app. lia.
  - unfold bytes, off.
    replace (Z.to_nat (12 + Z.of_nat (length (wav_chunks cs)) + 8))
      with (length hdr + (length (wav_chunks cs) + 8))%nat by lia.
    rewrite drop_app_add, drop_app_add.
    unfold wav_chunk, le32. simpl.
    by rewrite drop_0, take_app_length.
Qed.

(** X19.  On a block that ends after chunks none of which is a ["data"]
    chunk, Mix_QuickLoad_WAV does not return: its loop reads the first byte
    past the end of the block. *)
Theorem quickload_without_data_overruns
    (opened mem : Z) (p : positive) (hdr : list Z)
    (cs : list (list Z * list Z)) (s : mixer_state) :
  opened ≠ 0 →
  length hdr = 12%nat →
  Forall skipped cs →
  Mix_QuickLoad_WAV opened (Some p) mem (hdr ++ wav_chunks cs) s =
    inr (ReadOutside (Z.of_nat (length (hdr ++ wav_chunks cs)))).
Proof.
  intros Hop Hhdr Hcs. unfold Mix_QuickLoad_WAV.
  destruct (Z.eqb_spec opened 0); [done|].
  replace 12 with (Z.of_nat (length hdr)) at 1 by lia.
  rewrite quickload_scan_overruns; [done|done|].
  pose proof (wav_chunks_length cs Hcs). rewrite !length_app. lia.
Qed.

(** ** Opening and closing the device *)

Lemma with_audio_opened_id (d : audio) (k : Z) :
  audio_opened d = k → with_audio_opened k d = d.
Proof. destruct d; simpl; intros ->; reflexivity. Qed.

(** The close that drops the last reference. *)
Lemma close_last_spec (d : audio) (arr : list Mix_Channel) :
  audio_opened d = 1 →
  mix_channel (chan_state d) = Some arr →
  num_channels (chan_state d) = Z.of_nat (length arr) →
  ∃ s',
    Mix_HaltChannel (-1) (chan_state d) = Ok 0 s' ∧
    Mix_CloseAudio d =
      inl (tt,
           {| audio_opened := 0; mixer_freq := mixer_freq d;
              chunk_decoders := []; num_decoders := 0;
              chan_state := with_mix_channel None s';
              calls := SDL_CloseAudio :: close_music :: calls d |}).
Proof.
  intros Hop Hb Hn.
  destruct (halt_all_spec (chan_state d) arr Hb Hn) as (s' & Hhalt & _).
  exists s'. split; [exact Hhalt|].
  unfold Mix_CloseAudio. dunfold. rewrite Hop. simpl.
  rewrite Hhalt. simpl. unfold modify. simpl. rewrite Hop. reflexivity.
Qed.

(** A close that leaves other references. *)
Lemma close_counted_spec (d : audio) :
  1 < audio_opened d ≤ INT_MAX →
  Mix_CloseAudio d = inl (tt, with_audio_opened (audio_opened d - 1) d).
Proof.
  intros Hop. unfold Mix_CloseAudio. dunfold.
  destruct (Z.eqb_spec (audio_opened d) 0); [lia|].
  destruct (Z.eqb_spec (audio_opened d) 1); [lia|]. simpl.
  rewrite to_int_id by (unfold INT_MAX in *; lia). reflexivity.
Qed.

Lemma close_all_closed (fuel : nat) (d : audio) :
  audio_opened d = 0 → close_all fuel d = inl (tt, d).
Proof. intros Hop. destruct fuel; simpl; dunfold; by rewrite Hop. Qed.

Lemma close_all_spec (arr : list Mix_Channel) :
  ∀ (k : nat) (d : audio) (fuel : nat),
    audio_opened d = Z.of_nat (S k) →
    Z.of_nat (S k) ≤ INT_MAX →
    mix_channel (chan_state d) = Some arr →
    num_channels (chan_state d) = Z.of_nat (length arr) →
    (k < fuel)%nat →
    close_all fuel d = Mix_CloseAudio (with_audio_opened 1 d).
Proof.
  induction k as [|k IH]; intros d fuel Hop Hmax Hb Hn Hfuel;
    (destruct fuel as [|fuel]; [lia|]).
  - rewrite with_audio_opened_id by done.
    destruct (close_last_spec d arr Hop Hb Hn) as (s' & _ & Hclose).
    simpl. dunfold. rewrite Hop. simpl. fold (D_bind unit unit).
    rewrite Hclose. by rewrite close_all_closed.
  - cbn [close_all]. dunfold.
    destruct (Z.eqb_spec (audio_opened d) 0); [lia|].
    rewrite close_counted_spec by lia.
    rewrite (IH (with_audio_opened (audio_opened d - 1) d)); try done.
    + simpl. lia.
    + lia.
    + lia.
Qed.

(** X20.  Mix_OpenAudio on a device that is already open with the format
    and the channel count asked for only adds one to the open count: it
    returns 0, asks nothing of the device, and leaves the channels and the
    registry as they are.  The matching Mix_CloseAudio only takes the count
    back: the statics are exactly what they were before. *)
Theorem reopen_is_counted
    (MIX_CHANNELS frequency format nchannels chunksize : Z)
    (obtained : option (Z * Z * Z)) (music_ok : bool)
    (memory : option (Z → Mix_Channel)) (room : bool) (d : audio) :
  0 < audio_opened d < INT_MAX →
  format = mixer_format (chan_state d) →
  nchannels = mixer_channels (chan_state d) →
  ∃ d1,
    Mix_OpenAudio MIX_CHANNELS frequency format nchannels chunksize
      obtained music_ok memory room d = inl (0, d1) ∧
    d1 = with_audio_opened (audio_opened d + 1) d ∧
    Mix_QuerySpec d1 =
      inl ((audio_opened d + 1,
            Some (mixer_freq d, mixer_format (chan_state d),
                  mixer_channels (chan_state d))), d1) ∧
    Mix_CloseAudio d1 = inl (tt, d).
Proof.
  intros Hop -> ->.
  exists (with_audio_opened (audio_opened d + 1) d). split.
  { unfold Mix_OpenAudio. dunfold. unfold id.
    destruct (Z.eqb_spec (audio_opened d) 0); [lia|].
    rewrite !Z.eqb_refl. simpl.
    rewrite to_int_id by (unfold INT_MAX in *; lia). reflexivity. }
  split; [done|]. split.
  { unfold Mix_QuerySpec. dunfold. unfold id. simpl.
    destruct (Z.eqb_spec (audio_opened d + 1) 0); [lia|]. reflexivity. }
  rewrite close_counted_spec by (simpl; unfold INT_MAX in *; lia).
  destruct d as [k f ds n s c]. unfold with_audio_opened. simpl.
  by replace (k + 1 - 1) with k by lia.
Qed.

(** X21.  The Mix_CloseAudio that drops the last reference closes the music
    player, halts every channel (the completion callback runs for each
    channel that was playing), closes the device, frees the bank and empties
    the decoder registry.  Mix_QuerySpec then answers 0 and a further
    Mix_CloseAudio does nothing.  The channel count is not reset: a channel
    function called with an index below it reads the freed bank. *)
Theorem last_close_frees_the_bank (d : audio) (arr : list Mix_Channel) :
  audio_opened d = 1 →
  mix_channel (chan_state d) = Some arr →
  num_channels (chan_state d) = Z.of_nat (length arr) →
  ∃ d',
    Mix_CloseAudio d = inl (tt, d') ∧
    audio_opened d' = 0 ∧
    calls d' = SDL_CloseAudio :: close_music :: calls d ∧
    mix_channel (chan_state d') = None ∧
    num_channels (chan_state d') = num_channels (chan_state d) ∧
    heap (chan_state d') = heap (chan_state d) ∧
    (∀ i c, channel_at (chan_state d) i = Some c →
       done_count i (trace (chan_state d')) =
       (done_count i (trace (chan_state d)) +
        if (channel_done_callback (chan_state d) && negb (playing c =? 0))%Z
        then 1 else 0)%nat) ∧
    Mix_GetNumChunkDecoders d' = inl (0, d') ∧
    (∀ i, Mix_GetChunkDecoder i d' = inl (None, d')) ∧
    Mix_QuerySpec d' = inl ((0, None), d') ∧
    Mix_CloseAudio d' = inl (tt, d') ∧
    (∀ i, 0 ≤ i < num_channels (chan_state d) →
       lift (Mix_GetChunk i) d' = inr (OutOfBounds i)).
Proof.
  intros Hop Hb Hn.
  destruct (halt_all_spec (chan_state d) arr Hb Hn)
    as (s' & Hhalt & Hb' & Hn' & Hh' & Hd' & _).
  destruct (close_last_spec d arr Hop Hb Hn) as (s'' & Hhalt' & Hclose).
  rewrite Hhalt in Hhalt'. injection Hhalt' as <-.
  eexists. split; [exact Hclose|]. simpl.
  split; [done|]. split; [done|]. split; [done|]. split; [exact Hn'|].
  split; [exact Hh'|]. split; [exact Hd'|].
  split; [done|]. split.
  { intros i. unfold Mix_GetChunkDecoder. dunfold. simpl.
    destruct (Z.ltb_spec i 0); simpl; [done|].
    by destruct (Z.leb_spec 0 i); [|lia]. }
  split; [done|]. split; [done|].
  intros i Hi. unfold lift, Mix_GetChunk, get_channel. munfold. simpl.
  rewrite Hn'.
  destruct (Z.leb_spec 0 i); [|lia].
  destruct (Z.ltb_spec i (num_channels (chan_state d))); [|lia]. done.
Qed.

(** X22.  Mix_OpenAudio on a device that is open with another format or
    channel count first drops every reference, whatever the open count: it
    behaves as on the closed device that the last Mix_CloseAudio leaves. *)
Theorem reopen_other_format_restarts
    (MIX_CHANNELS frequency format nchannels chunksize : Z)
    (obtained : option (Z * Z * Z)) (music_ok : bool)
    (memory : option (Z → Mix_Channel)) (room : bool) (d : audio)
    (arr : list Mix_Channel) :
  0 < audio_opened d ≤ INT_MAX →
  mix_channel (chan_state d) = Some arr →
  num_channels (chan_state d) = Z.of_nat (length arr) →
  format ≠ mixer_format (chan_state d) ∨
  nchannels ≠ mixer_channels (chan_state d) →
  ∃ d0,
    Mix_CloseAudio (with_audio_opened 1 d) = inl (tt, d0) ∧
    audio_opened d0 = 0 ∧
    mix_channel (chan_state d0) = None ∧
    Mix_OpenAudio MIX_CHANNELS frequency format nchannels chunksize
      obtained music_ok memory room d =
    Mix_OpenAudio MIX_CHANNELS frequency format nchannels chunksize
      obtained music_ok memory room d0.
Proof.
  intros Hop Hb Hn Hdiff.
  destruct (close_last_spec (with_audio_opened 1 d) arr)
    as (s' & _ & Hclose); [done..|].
  eexists. split; [exact Hclose|]. split; [done|]. split; [done|].
  unfold Mix_OpenAudio at 1. dunfold. unfold id.
  assert (Hbr : negb (audio_opened d =? 0) &&
                (format =? mixer_format (chan_state d)) &&
                (nchannels =? mixer_channels (chan_state d)) = false).
  { destruct (Z.eqb_spec format (mixer_format (chan_state d)));
      destruct (Z.eqb_spec nchannels (mixer_channels (chan_state d)));
      rewrite ?andb_false_r; try done. lia. }
  rewrite Hbr.
  rewrite (close_all_spec arr (Z.to_nat (audio_opened d) - 1) d)
    by (done || lia).
  rewrite Hclose.
  unfold Mix_OpenAudio. dunfold. unfold id. simpl. reflexivity.
Qed.

Lemma clear_fields_chan_ok (hp : gmap positive Mix_Chunk) (c : Mix_Channel) :
  chan_ok hp (clear_fields c).
Proof. split; simpl; [lia|done]. Qed.

(** X23.  When the device, the music player and the allocation succeed,
    Mix_OpenAudio on a closed device returns 0 with an open count of 1 and
    the format the device granted, not the one asked for; the bank holds
    MIX_CHANNELS cleared channels, none of which plays; the reservation,
    the completion callback, the chunks and the trace are kept; and the
    name ["WAVE"] is appended to the decoder registry when it can grow. *)
Theorem open_closed_device
    (MIX_CHANNELS frequency format nchannels chunksize freq' format'
     nchannels' : Z)
    (junk : Z → Mix_Channel) (room : bool) (d : audio) :
  audio_opened d = 0 →
  0 ≤ MIX_CHANNELS →
  registry_ok d →
  num_decoders d < INT_MAX →
  ∃ d1,
    Mix_OpenAudio MIX_CHANNELS frequency format nchannels chunksize
      (Some (freq', format', nchannels')) true (Some junk) room d
      = inl (0, d1) ∧
    Mix_QuerySpec d1 = inl ((1, Some (freq', format', nchannels')), d1) ∧
    calls d1 =
      [SDL_PauseAudio 0; Mix_VolumeMusic SDL_MIX_MAXVOLUME; open_music;
       SDL_OpenAudio frequency format nchannels chunksize] ++ calls d ∧
    num_channels (chan_state d1) = MIX_CHANNELS ∧
    mix_channel (chan_state d1) =
      Some ((λ k, clear_fields (junk (Z.of_nat k)))
              <$> seq 0 (Z.to_nat MIX_CHANNELS)) ∧
    wf (chan_state d1) ∧
    lift (Mix_Playing (-1)) d1 = inl (0, d1) ∧
    reserved_channels (chan_state d1) = reserved_channels (chan_state d) ∧
    channel_done_callback (chan_state d1) =
      channel_done_callback (chan_state d) ∧
    heap (chan_state d1) = heap (chan_state d) ∧
    trace (chan_state d1) = trace (chan_state d) ∧
    (if room
     then Mix_GetNumChunkDecoders d1 = inl (num_decoders d + 1, d1) ∧
          Mix_GetChunkDecoder (num_decoders d) d1 = inl (Some WAVE_name, d1)
     else Mix_GetNumChunkDecoders d1 = inl (num_decoders d, d1)).
Proof.
  intros Hop HN Hreg Hmax.
  set (N := Z.to_nat MIX_CHANNELS).
  set (arr0 := (λ k, junk (Z.of_nat k)) <$> seq 0 N).
  set (arr1 := (λ k, clear_fields (junk (Z.of_nat k))) <$> seq 0 N).
  set (s0 := with_mix_channel (Some arr0)
               (with_num_channels MIX_CHANNELS
                  (with_mixer_spec format' nchannels' (chan_state d)))).
  assert (Hloop : for_loop 0 MIX_CHANNELS clear_channel s0 =
                  Ok tt (with_mix_channel (Some arr1) s0)).
  { change MIX_CHANNELS with (num_channels s0) at 1.
    rewrite (silent_loop_maps clear_channel clear_step clear_fields s0 arr0).
    - unfold arr1, arr0. by rewrite <- list_fmap_compose.
    - apply clear_channel_runs.
    - done.
    - done.
    - simpl. unfold arr0. rewrite length_fmap, length_seq. unfold N. lia. }
  set (s1 := with_mix_channel (Some arr1) s0) in *.
  set (ds := if room
             then <[Z.to_nat (num_decoders d) := WAVE_name]>
                    (resize (Z.to_nat (num_decoders d + 1)) []
                       (chunk_decoders d))
             else chunk_decoders d).
  set (nd := if room then num_decoders d + 1 else num_decoders d).
  exists {| audio_opened := 1; mixer_freq := freq'; chunk_decoders := ds;
            num_decoders := nd; chan_state := s1;
            calls := [SDL_PauseAudio 0; Mix_VolumeMusic SDL_MIX_MAXVOLUME;
                      open_music;
                      SDL_OpenAudio frequency format nchannels chunksize]
                     ++ calls d |}.
  assert (Hlen1 : length arr1 = N)
    by (unfold arr1; by rewrite length_fmap, length_seq).
  assert (Hwf : wf s1).
  { exists arr1. split; [done|]. split; [simpl; lia|].
    unfold arr1. apply Forall_fmap, Forall_forall. intros k _.
    apply clear_fields_chan_ok. }
  split.
  { unfold Mix_OpenAudio. dunfold. unfold id. rewrite Hop. simpl.
    dunfold. rewrite Hop. simpl.
    unfold modify. simpl. fold N. fold arr0. fold s0.
    rewrite Hloop. simpl. unfold add_chunk_decoder, ds, nd. dunfold.
    destruct room; simpl; [|reflexivity].
    rewrite to_int_id by (unfold INT_MAX, registry_ok in *; lia).
    reflexivity. }
  split; [reflexivity|]. split; [reflexivity|]. split; [reflexivity|].
  split; [reflexivity|]. split; [exact Hwf|]. split.
  { unfold lift. simpl.
    rewrite (Mix_Playing_broadcast s1 arr1) by (done || (simpl; lia)).
    assert (count_if active arr1 = 0) as ->; [|by destruct d].
    apply count_if_zero. intros j c Hj. unfold arr1 in Hj.
    rewrite list_lookup_fmap in Hj.
    destruct (seq 0 N !! j); [|done]. simpl in Hj. by injection Hj as <-. }
  split; [reflexivity|]. split; [reflexivity|]. split; [reflexivity|].
  split; [reflexivity|].
  unfold ds, nd. destruct room; [|reflexivity].
  split; [reflexivity|].
  unfold Mix_GetChunkDecoder. dunfold. simpl.
  unfold registry_ok in Hreg.
  destruct (Z.ltb_spec (num_decoders d) 0); [lia|].
  destruct (Z.leb_spec (num_decoders d + 1) (num_decoders d)); [lia|]. simpl.
  rewrite list_lookup_insert_eq; [done|].
  rewrite length_resize. lia.
Qed.

(** X24.  On a closed device, Mix_OpenAudio returns -1 and stays closed when
    SDL_OpenAudio fails, and also when open_music fails, in which case the
    device is closed again.  The result of malloc is not tested: when it is
    NULL the first channel cleared is written through the null pointer. *)
Theorem open_failures_leave_closed
    (MIX_CHANNELS frequency format nchannels chunksize : Z)
    (spec : Z * Z * Z) (music_ok : bool)
    (memory : option (Z → Mix_Channel)) (room : bool) (d : audio) :
  audio_opened d = 0 →
  Mix_OpenAudio MIX_CHANNELS frequency format nchannels chunksize
    None music_ok memory room d =
    inl (-1,
         with_calls
           (SDL_OpenAudio frequency format nchannels chunksize :: calls d) d) ∧
  (∃ d1,
     Mix_OpenAudio MIX_CHANNELS frequency format nchannels chunksize
       (Some spec) false memory room d = inl (-1, d1) ∧
     audio_opened d1 = 0 ∧
     mix_channel (chan_state d1) = mix_channel (chan_state d) ∧
     calls d1 =
       [SDL_CloseAudio; open_music;
        SDL_OpenAudio frequency format nchannels chunksize] ++ calls d) ∧
  (0 < MIX_CHANNELS →
   Mix_OpenAudio MIX_CHANNELS frequency format nchannels chunksize
     (Some spec) true None room d = inr (OutOfBounds 0)).
Proof.
  intros Hop. destruct spec as [[freq' format'] nchannels'].
  split; [|split].
  - unfold Mix_OpenAudio. dunfold. unfold id. rewrite Hop. simpl.
    dunfold. rewrite Hop. reflexivity.
  - eexists. split.
    + unfold Mix_OpenAudio. dunfold. unfold id. rewrite Hop. simpl.
      dunfold. rewrite Hop. simpl.
      unfold modify. simpl. reflexivity.
    + simpl. by rewrite Hop.
  - intros HN. unfold Mix_OpenAudio. dunfold. unfold id. rewrite Hop. simpl.
    dunfold. rewrite Hop. simpl.
    unfold modify. simpl. unfold for_loop.
    destruct (Z.to_nat (MIX_CHANNELS - 0)) as [|n] eqn:E; [lia|].
    simpl. unfold clear_channel, get_channel. munfold. simpl. reflexivity.
Qed.

(** ** Without a completion callback *)

Lemma fade_step_unnotified (i j now : Z) (c c1 : Mix_Channel)
    (evs : list event) :
  fade_step false i now c = inl (c1, evs) → done_count j evs = 0%nat.
Proof.
  unfold fade_step. repeat (case_match; try done); by intros [= <- <-].
Qed.

Lemma mix_pass_unnotified (hp : gmap positive Mix_Chunk) (i j len : Z)
    (fuel : nat) :
  ∀ k k',
    mix_pass fuel false hp i len k = inl k' →
    done_count j (cur_events k) = 0%nat →
    done_count j (cur_events k') = 0%nat.
Proof.
  induction fuel as [|fuel IH]; intros k k'; simpl.
  - destruct (_ && _); [done|]. by intros [= <-].
  - destruct (_ && _); [|by intros [= <-]].
    destruct (chunk_of hp (cur_chan k)) as [ck|]; [|done].
    intros Hk Hz. apply (IH _ _ Hk). simpl.
    rewrite done_count_app, done_count_cons, Hz. simpl.
    by destruct (_ && _).
Qed.

Lemma mix_wrap_unnotified (hp : gmap positive Mix_Chunk) (i j len : Z)
    (fuel : nat) :
  ∀ k k',
    mix_wrap fuel hp i len k = inl k' →
    done_count j (cur_events k) = 0%nat →
    done_count j (cur_events k') = 0%nat.
Proof.
  induction fuel as [|fuel IH]; intros k k'; simpl.
  - destruct (_ && _); [done|]. by intros [= <-].
  - destruct (_ && _); [|by intros [= <-]].
    destruct (chunk_of hp (cur_chan k)) as [ck|]; [|done].
    intros Hk Hz. apply (IH _ _ Hk). simpl.
    by rewrite done_count_cons, Hz.
Qed.

Lemma mix_block_unnotified (fuel : nat) (hp : gmap positive Mix_Chunk)
    (i j now len vol : Z) (c : Mix_Channel) (k : cursor) :
  mix_block fuel false hp i now len vol c = inl k →
  done_count j (cur_events k) = 0%nat.
Proof.
  unfold mix_block.
  destruct (paused c =? 0); [|by intros [= <-]].
  destruct (fade_step false i now c) as [[c1 evs]|] eqn:Hf; [|done].
  pose proof (fade_step_unnotified i j now c c1 evs Hf) as Hz.
  destruct (0 <? playing c1); [|by intros [= <-]].
  destruct (mix_pass _ _ _ _ _ _) as [k1|] eqn:H1; [|done].
  destruct (mix_wrap _ _ _ _ _) as [k2|] eqn:H2; [|done].
  intros H3. apply mix_rewind_frame in H3 as (_ & -> & _).
  apply (mix_wrap_unnotified _ _ _ _ _ _ _ H2).
  by apply (mix_pass_unnotified _ _ _ _ _ _ _ H1).
Qed.

(** X25.  After Mix_ChannelFinished(NULL), which touches neither the
    channels nor the trace, neither the mixing callback nor
    Mix_HaltChannel(-1) notifies the completion of any channel. *)
Theorem unregistered_callback_is_never_run
    (s : mixer_state) (i now len : Z) (c : Mix_Channel) (fuel : nat) :
  wf s →
  len < Z.of_nat fuel →
  channel_at s i = Some c →
  ∃ s0 s1 s2,
    Mix_ChannelFinished false s = Ok tt s0 ∧
    mix_channel s0 = mix_channel s ∧
    trace s0 = trace s ∧
    mix_channels fuel now len s0 = Ok tt s1 ∧
    done_count i (trace s1) = done_count i (trace s) ∧
    Mix_HaltChannel (-1) s0 = Ok 0 s2 ∧
    done_count i (trace s2) = done_count i (trace s).
Proof.
  intros Hwf Hfuel Hc.
  pose proof Hwf as (arr & Hb & Hn & Hok).
  set (s0 := with_channel_done_callback false s).
  assert (Hwf0 : wf s0) by (exists arr; done).
  destruct (mix_channels_spec fuel now len s0 Hwf0 Hfuel)
    as (s1 & Hmix & _ & _ & _ & Hch).
  destruct (Hch i c Hc) as (v & k & Hk & _ & Hd & _).
  destruct (halt_all_spec s0 arr Hb Hn) as (s2 & Hhalt & _ & _ & _ & Hd2 & _).
  exists s0, s1, s2.
  split; [done|]. split; [done|]. split; [done|]. split; [exact Hmix|].
  split.
  { rewrite Hd. simpl in Hk.
    by rewrite (mix_block_unnotified _ _ _ i _ _ _ _ _ Hk). }
  split; [exact Hhalt|].
  rewrite (Hd2 i c Hc). simpl. lia.
Qed.

(** ** Instances of the properties of the channel interface *)

(** An instance of X1: volume 64 set on channel 1 of two idle channels. *)
Lemma volume_set_then_query_witness :
  ∃ s',
    Mix_Volume 1 64 (sample_state [idle_channel; idle_channel] 10) = Ok 128 s' ∧
    Mix_Volume 1 (-1) s' = Ok 64 s'.
Proof.
  destruct (volume_set_then_query
              (sample_state [idle_channel; idle_channel] 10) 1 64 idle_channel)
    as (s' & H1 & _ & _ & _ & _ & H2).
  - reflexivity.
  - vm_compute. reflexivity.
  - exists s'. split; [exact H1|exact H2].
Defined.

(** An instance of X2: volumes 100 and 51 average to 75. *)
Lemma volume_broadcast_average_witness :
  ∃ s',
    Mix_Volume (-1) 40
      (sample_state [set_volume 100 idle_channel; set_volume 51 idle_channel] 10)
      = Ok 75 s' ∧
    mix_channel s' =
      Some [set_volume 40 idle_channel; set_volume 40 idle_channel].
Proof.
  destruct (volume_broadcast_average
              (sample_state
                 [set_volume 100 idle_channel; set_volume 51 idle_channel] 10)
              [set_volume 100 idle_channel; set_volume 51 idle_channel] 40)
    as [_ H].
  - reflexivity.
  - reflexivity.
  - destruct H as (s' & H1 & H2 & _); [discriminate|].
    exists s'. split; [exact H1|exact H2].
Defined.

(** An instance of X3: one playing and one idle channel. *)
Lemma halt_all_then_quiet_witness :
  ∃ s',
    Mix_HaltChannel (-1)
      (sample_state [busy_channel 6 0; idle_channel] 10) = Ok 0 s' ∧
    done_count 0 (trace s') = 1%nat ∧
    done_count 1 (trace s') = 0%nat ∧
    Mix_HaltChannel (-1) s' = Ok 0 s'.
Proof.
  destruct (halt_all_then_quiet
              (sample_state [busy_channel 6 0; idle_channel] 10)
              [busy_channel 6 0; idle_channel])
    as (s' & H1 & _ & _ & _ & Hd & _ & H2).
  - reflexivity.
  - reflexivity.
  - exists s'. split; [exact H1|].
    split; [exact (Hd 0 (busy_channel 6 0) eq_refl)|].
    split; [exact (Hd 1 idle_channel eq_refl)|exact H2].
Defined.

(** An instance of X4: a playing channel, an idle one and one that only
    has repeats left. *)
Lemma playing_broadcast_counts_witness :
  Mix_Playing (-1)
    (sample_state [busy_channel 6 0; idle_channel; busy_channel 0 2] 10) =
  Ok 2 (sample_state [busy_channel 6 0; idle_channel; busy_channel 0 2] 10).
Proof.
  destruct (playing_broadcast_counts
              (sample_state [busy_channel 6 0; idle_channel; busy_channel 0 2] 10)
              [busy_channel 6 0; idle_channel; busy_channel 0 2])
    as (H & _).
  - reflexivity.
  - reflexivity.
  - exact H.
Defined.

(** An instance of X5: indices 7 and -3 on a bank of two channels. *)
Lemma guarded_queries_never_fault_witness :
  Mix_GetChunk 7 (sample_state [busy_channel 6 0; idle_channel] 10) =
    Ok None (sample_state [busy_channel 6 0; idle_channel] 10) ∧
  Mix_FadingChannel (-3) (sample_state [busy_channel 6 0; idle_channel] 10) =
    Ok MIX_NO_FADING (sample_state [busy_channel 6 0; idle_channel] 10).
Proof.
  destruct (guarded_queries_never_fault
              (sample_state [busy_channel 6 0; idle_channel] 10)
              [busy_channel 6 0; idle_channel] 7)
    as ((r1 & H1 & E1) & _); [reflexivity|reflexivity|].
  destruct (guarded_queries_never_fault
              (sample_state [busy_channel 6 0; idle_channel] 10)
              [busy_channel 6 0; idle_channel] (-3))
    as (_ & (r2 & H2 & E2) & _); [reflexivity|reflexivity|].
  subst r1 r2. split; [exact H1|exact H2].
Defined.

(** An instance of X6: a pause at tick 0 is not reported. *)
Lemma pause_stamp_decides_paused_witness :
  ∃ s1 s2,
    Mix_Pause 0 0 (sample_state [busy_channel 6 0; idle_channel] 10)
      = Ok tt s1 ∧
    Mix_Paused 0 s1 = Ok 0 s1 ∧
    Mix_Resume 0 9 s1 = Ok tt s2 ∧
    Mix_Paused 0 s2 = Ok 0 s2.
Proof.
  destruct (pause_stamp_decides_paused
              (sample_state [busy_channel 6 0; idle_channel] 10) 0 0 9
              (busy_channel 6 0))
    as (s1 & s2 & H).
  - reflexivity.
  - vm_compute. reflexivity.
  - vm_compute. reflexivity.
  - solve_range.
  - exists s1, s2. exact H.
Defined.

(** An instance of X7: a paused channel whose deadline, 20, is behind the
    tick count, 50. *)
Lemma paused_channel_is_frozen_witness :
  ∃ s',
    mix_channels 9 50 8
      (sample_state [set_expire 20 (paused_channel 5 6); idle_channel] 10)
      = Ok tt s' ∧
    channel_at s' 0 = Some (set_expire 20 (paused_channel 5 6)) ∧
    done_count 0 (trace s') = 0%nat.
Proof.
  destruct (paused_channel_is_frozen
              (sample_state [set_expire 20 (paused_channel 5 6); idle_channel] 10)
              0 50 8 (set_expire 20 (paused_channel 5 6)) 9)
    as (s' & H1 & H2 & H3 & _).
  - solve_wf.
  - vm_compute. reflexivity.
  - reflexivity.
  - vm_compute. discriminate.
  - exists s'. split; [exact H1|]. split; [exact H2|exact H3].
Defined.

(** An instance of X8: 30 ticks granted at tick 100, callback at tick
    131. *)
Lemma deadline_stops_channel_witness :
  ∃ s1 s2,
    Mix_ExpireChannel 0 30 100
      (sample_state [busy_channel 6 0; idle_channel] 10) = Ok 1 s1 ∧
    channel_at s1 0 = Some (set_expire 130 (busy_channel 6 0)) ∧
    mix_channels 9 131 8 s1 = Ok tt s2 ∧
    channel_at s2 0 = Some (expire_fields (busy_channel 6 0)) ∧
    done_count 0 (trace s2) = 1%nat ∧
    mixed_bytes 0 (trace s2) = 0.
Proof.
  destruct (deadline_stops_channel
              (sample_state [busy_channel 6 0; idle_channel] 10)
              0 30 100 131 8 (busy_channel 6 0) 9)
    as (s1 & H1 & H0 & _ & _ & _ & _ & H2).
  - solve_wf.
  - vm_compute. reflexivity.
  - reflexivity.
  - vm_compute. reflexivity.
  - destruct H2 as (s2 & c2 & Hm & Hc & -> & _ & Hd & Hb);
      [reflexivity|vm_compute; split; reflexivity|].
    exists s1, s2. split; [exact H1|]. split; [exact H0|].
    split; [exact Hm|].
    split; [exact Hc|]. split; [exact Hd|exact Hb].
Defined.

(** An instance of X9: one channel reserved out of three. *)
Lemma reserve_then_auto_pick_witness :
  ∃ sr w s1,
    Mix_ReserveChannels 1
      (sample_state [idle_channel; busy_channel 6 0; idle_channel] 10)
      = Ok 1 sr ∧
    Mix_PlayChannelTimed (-1) (Some 1%positive) 0 (-1) 0 sr = Ok w s1 ∧
    (w = -1 ∨ 1 ≤ w < 3).
Proof.
  destruct (reserve_then_auto_pick
              (sample_state [idle_channel; busy_channel 6 0; idle_channel] 10)
              1 0 (-1) 0 1%positive (mkChunk 1 4096 10 128))
    as (sr & H1 & _ & _ & H2).
  - solve_wf.
  - reflexivity.
  - solve_range.
  - vm_compute. reflexivity.
  - vm_compute. reflexivity.
  - destruct H2 as (w & s1 & Hp & _ & _ & Hw); [lia|].
    exists sr, w, s1. split; [exact H1|]. split; [exact Hp|].
    destruct (decide (w = -1)) as [E|E]; [by left|right].
    destruct (Hw E) as (Hr & _). exact Hr.
Defined.

(** An instance of X10: the range -2 .. 1 on three channels. *)
Lemma group_range_retags_witness :
  ∃ s',
    Mix_GroupChannels (-2) 1 5
      (sample_state [idle_channel; idle_channel; idle_channel] 10) = Ok 2 s' ∧
    channel_at s' 1 = Some (set_tag 5 idle_channel) ∧
    channel_at s' 2 = Some idle_channel.
Proof.
  destruct (group_range_retags
              (sample_state [idle_channel; idle_channel; idle_channel] 10)
              [idle_channel; idle_channel; idle_channel] (-2) 1 5)
    as [H _].
  - reflexivity.
  - reflexivity.
  - destruct H as (s' & H1 & _ & _ & _ & Hc); [vm_compute; reflexivity|].
    exists s'. split; [exact H1|].
    split; [exact (Hc 1 idle_channel eq_refl)|exact (Hc 2 idle_channel eq_refl)].
Defined.

(** An instance of X11: group 5 with one playing and one idle member. *)
Lemma group_available_is_first_witness :
  ∃ w,
    Mix_GroupAvailable 5
      (sample_state
         [idle_channel; grouped_channel 5 0 6; set_tag 5 idle_channel] 10)
      = Ok w
          (sample_state
             [idle_channel; grouped_channel 5 0 6; set_tag 5 idle_channel] 10) ∧
    (w = -1 ∨ 0 ≤ w < 3).
Proof.
  destruct (group_available_is_first
              (sample_state
                 [idle_channel; grouped_channel 5 0 6; set_tag 5 idle_channel] 10)
              [idle_channel; grouped_channel 5 0 6; set_tag 5 idle_channel] 5)
    as (w & H1 & H2 & _).
  - reflexivity.
  - reflexivity.
  - exists w. split; [exact H1|exact H2].
Defined.

(** An instance of X12: two members of group 5 and an older channel of
    group 7. *)
Lemma group_oldest_is_earliest_witness :
  ∃ w,
    Mix_GroupOldest 5 100
      (sample_state
         [grouped_channel 5 40 6; grouped_channel 5 30 6;
          grouped_channel 7 10 6] 10)
      = Ok w
          (sample_state
             [grouped_channel 5 40 6; grouped_channel 5 30 6;
              grouped_channel 7 10 6] 10) ∧
    (w ≠ -1 → 0 ≤ w < 3).
Proof.
  destruct (group_oldest_is_earliest
              (sample_state
                 [grouped_channel 5 40 6; grouped_channel 5 30 6;
                  grouped_channel 7 10 6] 10)
              [grouped_channel 5 40 6; grouped_channel 5 30 6;
               grouped_channel 7 10 6] 5 100)
    as (w & H1 & _ & H2).
  - reflexivity.
  - reflexivity.
  - exists w. split; [exact H1|]. intros E. destruct (H2 E) as (Hr & _).
    exact Hr.
Defined.

(** An instance of X13: a channel 4 bytes into a chunk of 10 bytes, with one
    repeat left, mixed into a buffer of 8 bytes. *)
Lemma callback_stays_in_bounds_witness :
  ∃ s' evs,
    mix_channels 9 0 8
      (sample_state [reading_channel 4 6 1; idle_channel] 10) = Ok tt s' ∧
    trace s' = evs ++ [] ∧
    Forall (mix_in_bounds
              (sample_state [reading_channel 4 6 1; idle_channel] 10) 8) evs.
Proof.
  destruct (callback_stays_in_bounds
              (sample_state [reading_channel 4 6 1; idle_channel] 10) 0 8 9)
    as (s' & evs & H1 & H2 & H3 & _).
  - solve_wf.
  - solve_in_chunk.
  - vm_compute. reflexivity.
  - exists s', evs. split; [exact H1|]. split; [exact H2|exact H3].
Defined.


(** An instance of X15: the chunk is freed under a channel that plays it. *)
Lemma freed_chunk_is_never_mixed_witness :
  ∃ s1 s2 evs,
    Mix_FreeChunk (Some 1%positive)
      (sample_state [reading_channel 4 6 1; idle_channel] 10) = Ok tt s1 ∧
    mix_channels 9 0 8 s1 = Ok tt s2 ∧
    trace s2 = evs ++ trace s1 ∧
    Forall (λ e, ¬ mixes_chunk
                     (sample_state [reading_channel 4 6 1; idle_channel] 10)
                     1%positive e) evs.
Proof.
  destruct (freed_chunk_is_never_mixed
              (sample_state [reading_channel 4 6 1; idle_channel] 10)
              1%positive (mkChunk 1 4096 10 128) 0 8 9)
    as (s1 & s2 & evs & H1 & _ & _ & H2 & H3 & _ & H4).
  - solve_wf.
  - solve_in_chunk.
  - reflexivity.
  - vm_compute. reflexivity.
  - exists s1, s2, evs. split; [exact H1|]. split; [exact H2|].
    split; [exact H3|exact H4].
Defined.

(** An instance of X16: a playing channel, an idle channel with a stamp and
    an idle channel without. *)
Lemma pause_all_resume_all_witness :
  ∃ s1 s2,
    Mix_Pause (-1) 7
      (sample_state [busy_channel 6 0; set_paused 3 idle_channel; idle_channel] 10)
      = Ok tt s1 ∧
    Mix_Paused (-1) s1 = Ok 2 s1 ∧
    Mix_Resume (-1) 9 s1 = Ok tt s2 ∧
    Mix_Paused (-1) s2 = Ok 1 s2.
Proof.
  destruct (pause_all_resume_all
              (sample_state
                 [busy_channel 6 0; set_paused 3 idle_channel; idle_channel] 10)
              [busy_channel 6 0; set_paused 3 idle_channel; idle_channel] 7 9)
    as (s1 & s2 & H1 & _ & _ & H2 & H3 & _ & H4).
  - reflexivity.
  - reflexivity.
  - solve_range.
  - exists s1, s2. split; [exact H1|]. split; [exact H2|].
    split; [exact H3|exact H4].
Defined.

(** An instance of X17: a channel paused at tick 5. *)
Lemma halt_keeps_pause_stamp_witness :
  ∃ s1,
    Mix_HaltChannel 0
      (sample_state [paused_channel 5 6; idle_channel] 10) = Ok 0 s1 ∧
    Mix_Paused 0 s1 = Ok 1 s1 ∧
    Mix_Resume 0 9 s1 = Ok tt s1.
Proof.
  destruct (halt_keeps_pause_stamp
              (sample_state [paused_channel 5 6; idle_channel] 10) 0 9
              (paused_channel 5 6))
    as (s1 & H).
  - reflexivity.
  - vm_compute. reflexivity.
  - vm_compute. discriminate.
  - exists s1. exact H.
Defined.

(** ** Instances of the properties of the loader *)

(** An instance of X18: a ["fmt "] chunk of 4 bytes before a ["data"] chunk
    of 3 bytes, at address 5000. *)
Lemma quickload_finds_data_witness :
  Mix_QuickLoad_WAV 1 (Some 2%positive) 5000
    ([82; 73; 70; 70; 0; 0; 0; 0; 87; 65; 86; 69] ++
     wav_chunks [([102; 109; 116; 32], [1; 0; 2; 0])] ++
     wav_chunk (data_magic, [9; 8; 7]) ++ [0])
    (sample_state [idle_channel] 10) =
  inl (Some 2%positive,
       with_heap
         (<[2%positive := mkChunk 0 5032 3 128]>
            (heap (sample_state [idle_channel] 10)))
         (sample_state [idle_channel] 10)).
Proof.
  destruct (quickload_finds_data 1 5000 2%positive
              [82; 73; 70; 70; 0; 0; 0; 0; 87; 65; 86; 69] [9; 8; 7] [0]
              [([102; 109; 116; 32], [1; 0; 2; 0])]
              (sample_state [idle_channel] 10))
    as [H _].
  - discriminate.
  - reflexivity.
  - constructor; [|constructor].
    split; [reflexivity|]. split; [discriminate|vm_compute; reflexivity].
  - vm_compute. reflexivity.
  - exact H.
Defined.

(** An instance of X19: the same block cut before its ["data"] chunk. *)
Lemma quickload_without_data_overruns_witness :
  Mix_QuickLoad_WAV 1 (Some 2%positive) 5000
    ([82; 73; 70; 70; 0; 0; 0; 0; 87; 65; 86; 69] ++
     wav_chunks [([102; 109; 116; 32], [1; 0; 2; 0])])
    (sample_state [idle_channel] 10) =
  inr (ReadOutside 24).
Proof.
  apply (quickload_without_data_overruns 1 5000 2%positive
           [82; 73; 70; 70; 0; 0; 0; 0; 87; 65; 86; 69]
           [([102; 109; 116; 32], [1; 0; 2; 0])]
           (sample_state [idle_channel] 10)).
  - discriminate.
  - reflexivity.
  - constructor; [|constructor].
    split; [reflexivity|]. split; [discriminate|vm_compute; reflexivity].
Defined.

(** ** Instances of the properties of the device *)

(** An instance of X20: a device opened twice. *)
Lemma reopen_is_counted_witness :
  ∃ d1,
    Mix_OpenAudio 8 22050 32784 2 1024 None false None false
      (open_device 2 [idle_channel]) = inl (0, d1) ∧
    Mix_CloseAudio d1 = inl (tt, open_device 2 [idle_channel]).
Proof.
  destruct (reopen_is_counted 8 22050 32784 2 1024 None false None false
              (open_device 2 [idle_channel]))
    as (d1 & H1 & _ & _ & H2).
  - solve_range.
  - reflexivity.
  - reflexivity.
  - exists d1. split; [exact H1|exact H2].
Defined.

(** An instance of X21: the last close with one channel playing. *)
Lemma last_close_frees_the_bank_witness :
  ∃ d',
    Mix_CloseAudio (open_device 1 [busy_channel 6 0; idle_channel])
      = inl (tt, d') ∧
    audio_opened d' = 0 ∧
    done_count 0 (trace (chan_state d')) = 1%nat ∧
    lift (Mix_GetChunk 1) d' = inr (OutOfBounds 1).
Proof.
  destruct (last_close_frees_the_bank
              (open_device 1 [busy_channel 6 0; idle_channel])
              [busy_channel 6 0; idle_channel])
    as (d' & H1 & H2 & _ & _ & _ & _ & Hd & _ & _ & _ & _ & Hu).
  - reflexivity.
  - reflexivity.
  - reflexivity.
  - exists d'. split; [exact H1|]. split; [exact H2|].
    split; [exact (Hd 0 (busy_channel 6 0) eq_refl)|].
    apply Hu. solve_range.
Defined.

(** An instance of X22: a device opened three times in 16 bits, asked for
    8 bits. *)
Lemma reopen_other_format_restarts_witness :
  ∃ d0,
    Mix_CloseAudio (open_device 1 [idle_channel]) = inl (tt, d0) ∧
    Mix_OpenAudio 8 22050 8 1 1024 None false None false
      (open_device 3 [idle_channel]) =
    Mix_OpenAudio 8 22050 8 1 1024 None false None false d0.
Proof.
  destruct (reopen_other_format_restarts 8 22050 8 1 1024 None false None
              false (open_device 3 [idle_channel]) [idle_channel])
    as (d0 & H1 & _ & _ & H2).
  - solve_range.
  - reflexivity.
  - reflexivity.
  - left. vm_compute. discriminate.
  - exists d0. split; [exact H1|exact H2].
Defined.

(** An instance of X23: eight channels, the memory of each of which holds
    a playing channel. *)
Lemma open_closed_device_witness :
  ∃ d1,
    Mix_OpenAudio 8 22050 32784 2 1024 (Some (22050, 32784, 2)) true
      (Some (λ _, busy_channel 6 0)) true closed_device = inl (0, d1) ∧
    Mix_QuerySpec d1 = inl ((1, Some (22050, 32784, 2)), d1) ∧
    num_channels (chan_state d1) = 8 ∧
    lift (Mix_Playing (-1)) d1 = inl (0, d1) ∧
    Mix_GetChunkDecoder 0 d1 = inl (Some WAVE_name, d1).
Proof.
  destruct (open_closed_device 8 22050 32784 2 1024 22050 32784 2
              (λ _, busy_channel 6 0) true closed_device)
    as (d1 & H1 & H2 & _ & H3 & _ & _ & H4 & _ & _ & _ & _ & _ & H5).
  - reflexivity.
  - lia.
  - reflexivity.
  - vm_compute. reflexivity.
  - exists d1. split; [exact H1|]. split; [exact H2|]. split; [exact H3|].
    split; [exact H4|exact H5].
Defined.

(** An instance of X24: malloc returns NULL. *)
Lemma open_failures_leave_closed_witness :
  Mix_OpenAudio 8 22050 32784 2 1024 (Some (22050, 32784, 2)) true None true
    closed_device = inr (OutOfBounds 0).
Proof.
  destruct (open_failures_leave_closed 8 22050 32784 2 1024
              (22050, 32784, 2) true None true closed_device)
    as (_ & _ & H).
  - reflexivity.
  - apply H. lia.
Defined.

(** An instance of X25: a channel whose deadline has passed. *)
Lemma unregistered_callback_is_never_run_witness :
  ∃ s0 s1,
    Mix_ChannelFinished false
      (sample_state [set_expire 20 (busy_channel 6 0); idle_channel] 10)
      = Ok tt s0 ∧
    mix_channels 9 50 8 s0 = Ok tt s1 ∧
    done_count 0 (trace s1) = 0%nat.
Proof.
  destruct (unregistered_callback_is_never_run
              (sample_state [set_expire 20 (busy_channel 6 0); idle_channel] 10)
              0 50 8 (set_expire 20 (busy_channel 6 0)) 9)
    as (s0 & s1 & _ & H1 & _ & _ & H2 & H3 & _).
  - solve_wf.
  - vm_compute. reflexivity.
  - reflexivity.
  - exists s0, s1. split; [exact H1|]. split; [exact H2|exact H3].
Defined.

(** * The states of an open mixer *)

(** ** Rules of partial correctness *)















(** ** The invariant *)











Lemma same_play_refl (c : Mix_Channel) : same_play c c.
Proof. by repeat split. Qed.



(** ** The control functions keep it *)
















(** ** Groups, reservation, callback, music, loaders *)




(** ** Mix_FreeChunk *)




(** ** Mix_AllocateChannels *)


(** ** Mix_PlayChannelTimed *)











(** ** The callback *)




(** ** Every state of an open mixer *)



(** ** Expiration against halt *)





(** ** Chunks too long for [playing] *)

Lemma sample_state_opened (bank : list Mix_Channel) (len : Z) :
  Forall is_default bank → 0 ≤ len ≤ UINT32_MAX →
  opened (sample_state bank len).
Proof.
  intros Hd Hlen. split.
  - by exists bank.
  - intros p ck Hp. unfold sample_state in Hp. simpl in Hp.
    apply lookup_singleton_Some in Hp as [_ <-]. done.
Qed.

Lemma overlong_state_reachable : reachable overlong_state.
Proof.
  apply reach_open, sample_state_opened.
  - repeat constructor.
  - vm_compute. split; discriminate.
Qed.

(** C1 as stated fails for a chunk of 2^31 bytes in an open mixer with
    4-byte frames: Mix_PlayChannelTimed accepts it, the callback is given
    buffers that total [L], nothing is mixed and the completion callback
    does not run. *)
Lemma overlong_chunk_is_not_reported :
  ∃ s1 s2,
    reachable overlong_state ∧
    channel_done_callback overlong_state = true ∧
    (active <$> channel_at overlong_state 0) = Some false ∧
    alen <$> heap overlong_state !! 1%positive = Some 2147483648 ∧
    frame_width_of (mixer_format overlong_state)
      (mixer_channels overlong_state) = 4 ∧
    Mix_PlayChannelTimed 0 (Some 1%positive) 0 0 0 overlong_state = Ok 0 s1 ∧
    mix_run 1 [(1, 1073741824); (2, 1073741824)] s1 = Ok tt s2 ∧
    total_len [(1, 1073741824); (2, 1073741824)] = 2147483648 ∧
    done_count 0 (trace s2) = 0%nat ∧
    mixed_bytes 0 (trace s2) = 0.
Proof.
  eexists _, _. split; [exact overlong_state_reachable|].
  split; [reflexivity|]. split; [reflexivity|].
  split; [reflexivity|]. split; [reflexivity|]. split.
  { apply (play_state overlong_state
             [idle_channel; idle_channel] 0 0 0 0 1%positive
             (mkChunk 1 4096 2147483648 128) idle_channel);
      [reflexivity|reflexivity|simpl; lia|reflexivity|simpl; lia
      |vm_compute; reflexivity|vm_compute; discriminate]. }
  split; [vm_compute; reflexivity|].
  vm_compute. repeat split.
Qed.

(** C2 as stated fails for a chunk of 2^31 bytes played with one repeat:
    after buffers that total [L * (K + 1)] bytes nothing has been mixed and
    the channel is still active. *)
Lemma overlong_loop_mixes_nothing :
  ∃ s1 s2,
    reachable overlong_state ∧
    alen <$> heap overlong_state !! 1%positive = Some 2147483648 ∧
    frame_width_of (mixer_format overlong_state)
      (mixer_channels overlong_state) = 4 ∧
    Mix_PlayChannelTimed 0 (Some 1%positive) 1 0 0 overlong_state = Ok 0 s1 ∧
    mix_run 1 [(1, 1073741824); (2, 1073741824);
               (3, 1073741824); (4, 1073741824)] s1 = Ok tt s2 ∧
    total_len [(1, 1073741824); (2, 1073741824);
               (3, 1073741824); (4, 1073741824)] = 2147483648 * (1 + 1) ∧
    mixed_bytes 0 (trace s2) = 0 ∧
    Mix_Playing 0 s2 = Ok 1 s2.
Proof.
  eexists _, _. split; [exact overlong_state_reachable|].
  split; [reflexivity|]. split; [reflexivity|]. split.
  { apply (play_state overlong_state
             [idle_channel; idle_channel] 0 1 0 0 1%positive
             (mkChunk 1 4096 2147483648 128) idle_channel);
      [reflexivity|reflexivity|simpl; lia|reflexivity|simpl; lia
      |vm_compute; reflexivity|vm_compute; discriminate]. }
  split; [vm_compute; reflexivity|].
  vm_compute. repeat split.
Qed.

(** ** What Mix_OpenAudio leaves *)

(** The bank that Mix_OpenAudio allocates and clears is one of an open
    mixer. *)
Lemma fresh_bank_opened (s : mixer_state) (junk : Z → Mix_Channel) (N : Z) :
  0 ≤ N →
  num_channels s = N →
  mix_channel s =
    Some ((λ k, clear_fields (junk (Z.of_nat k))) <$> seq 0 (Z.to_nat N)) →
  (∀ p ck, heap s !! p = Some ck → 0 ≤ alen ck ≤ UINT32_MAX) →
  reachable s.
Proof.
  intros HN Hn Hb Hh. apply reach_open. split; [|done].
  eexists. split; [exact Hb|]. split.
  - rewrite length_fmap, length_seq. lia.
  - apply Forall_fmap, Forall_forall. intros k _.
    apply clear_fields_default.
Qed.
